(** * A shallow embedding of the memory allocator (myalloc.h, myalloc.c)

    The allocator keeps an address-sorted, doubly linked list of free blocks
    inside the memory it manages and grows the heap with sbrk.  The embedding
    models that memory as a flat store of cells addressed by integers, the
    static variables of myalloc.c as fields of a state record, the program
    break as part of the same record, and every function of myalloc.c as a
    function on states.

    Modelling conventions:
    - The target is LP64: size_t, intptr_t and pointers are 64 bits wide.
      Values of those types are integers of Z in [0, 2^64); every size_t or
      pointer operation of the source is written with its wrap-around.
    - A header has four fields, at byte offsets 0 (size), 8 (is_allocated),
      16 (prev) and 24 (next).  The store maps the address of an 8-byte cell
      to the word it holds.  size, prev and next fill their cells.
      is_allocated is an int: it is the four low-order bytes of the cell at
      offset 8 (the target is little-endian), and the four bytes after it
      are padding, which a read of the field does not see and a write of
      the field leaves as they are.  A cell that was never written reads as
      0: memory obtained from the kernel is zero-filled.
    - The two loops of the source follow next pointers, and do not end on a
      cyclic list.  They are modelled with a fuel argument; running out of
      fuel is the result OutOfFuel.
    - pthread_mutex_lock and pthread_mutex_unlock have no effect on a
      sequential run and are left out. *)

From Stdlib Require Import ZArith Lia String Sorted.
From stdpp Require Import base option list gmap.

Local Open Scope Z_scope.

(** ** Constants of myalloc.h *)

Definition ALIGNMENT : Z := 32.

(** sizeof(free_block): the union is padded to the 32 bytes of ALIGN. *)
Definition FBLOCKSIZE : Z := 32.

(** sizeof(void * ) *)
Definition POINTER_SIZE : Z := 8.

Definition MIN_SPLIT_REMAINDER : Z := FBLOCKSIZE + POINTER_SIZE.

Definition ALIGNMENT_MASK : Z := ALIGNMENT - 1.

Definition SIZE_MAX : Z := 2 ^ 64 - 1.

Definition INTPTR_MAX : Z := 2 ^ 63 - 1.

Definition NULL : Z := 0.

(** ** 64-bit arithmetic *)

Definition wrap (x : Z) : Z := x mod 2 ^ 64.

Definition add64 (a b : Z) : Z := wrap (a + b).

Definition sub64 (a b : Z) : Z := wrap (a - b).

(** Bitwise complement of a size_t. *)
Definition not64 (a : Z) : Z := wrap (Z.lnot a).

(** Conversion of a size_t to intptr_t, as happens to the argument of sbrk. *)
Definition to_intptr (x : Z) : Z := if x <=? INTPTR_MAX then x else x - 2 ^ 64.

(** PAYLOAD(b) and HEADER(p) of myalloc.h. *)
Definition PAYLOAD (b : Z) : Z := add64 b FBLOCKSIZE.

Definition HEADER (p : Z) : Z := sub64 p FBLOCKSIZE.

(** ** Results *)

(** A call returns, terminates the process through exit, or is still inside
    a loop when the fuel is used up. *)
Inductive result (A : Type) : Type :=
| Ret (a : A)
| Exit (status : Z) (stderr : string)
| OutOfFuel.

Arguments Ret {A} a.
Arguments Exit {A} status stderr.
Arguments OutOfFuel {A}.

Definition bind {A B : Type} (r : result A) (k : A -> result B) : result B :=
  match r with
  | Ret a => k a
  | Exit status stderr => Exit status stderr
  | OutOfFuel => OutOfFuel
  end.

Notation "'let*' x ':=' r 'in' k" := (bind r (fun x => k))
  (at level 10, x pattern, r at level 100, k at level 200).

(** ** The state: static variables, memory and the program break *)

Record state : Type := State {
  head : Z;                       (* static free_block *head *)
  heap_start : Z;                 (* static void *heap_start *)
  heap_initialized : bool;        (* static int heap_initialized *)
  mem : gmap Z Z;                 (* memory, a cell per header field *)
  brk : Z;                        (* the program break *)
  brk_min : Z;                    (* lowest break the kernel accepts *)
  brk_max : Z;                    (* highest break the kernel accepts *)
  sbrk_log : list (Z * option Z)  (* sbrk calls, the latest first: the
                                     increment, and the break returned or
                                     None for a failed call *)
}.

Definition set_head (s : state) (h : Z) : state :=
  State h (heap_start s) (heap_initialized s) (mem s) (brk s)
        (brk_min s) (brk_max s) (sbrk_log s).

Definition set_heap_start (s : state) (a : Z) : state :=
  State (head s) a true (mem s) (brk s) (brk_min s) (brk_max s) (sbrk_log s).

Definition set_mem (s : state) (m : gmap Z Z) : state :=
  State (head s) (heap_start s) (heap_initialized s) m (brk s)
        (brk_min s) (brk_max s) (sbrk_log s).

Definition set_brk (s : state) (b : Z) : state :=
  State (head s) (heap_start s) (heap_initialized s) (mem s) b
        (brk_min s) (brk_max s) (sbrk_log s).

Definition log_sbrk (s : state) (increment : Z) (r : option Z) : state :=
  State (head s) (heap_start s) (heap_initialized s) (mem s) (brk s)
        (brk_min s) (brk_max s) ((increment, r) :: sbrk_log s).

Definition load (s : state) (a : Z) : Z := default 0 (mem s !! a).

Definition store (s : state) (a v : Z) : state := set_mem s (<[a := v]> (mem s)).

(** The int in the four low-order bytes of a cell, as its bit pattern in
    [0, 2^32): the source only tests it against 0. *)
Definition int_of_cell (cell : Z) : Z := cell mod 2 ^ 32.

(** The cell after a write of the int v into its four low-order bytes. *)
Definition cell_with_int (cell v : Z) : Z :=
  cell - cell mod 2 ^ 32 + v mod 2 ^ 32.

(** The fields of the header at address b. *)
Definition size_of (s : state) (b : Z) : Z := load s b.
Definition is_allocated (s : state) (b : Z) : Z := int_of_cell (load s (b + 8)).
Definition prev_of (s : state) (b : Z) : Z := load s (b + 16).
Definition next_of (s : state) (b : Z) : Z := load s (b + 24).

Definition set_size (s : state) (b v : Z) : state := store s b v.
Definition set_is_allocated (s : state) (b v : Z) : state :=
  store s (b + 8) (cell_with_int (load s (b + 8)) v).
Definition set_prev (s : state) (b v : Z) : state := store s (b + 16) v.
Definition set_next (s : state) (b v : Z) : state := store s (b + 24) v.

(** ** The operating system: sbrk *)

(** The value (void * )-1 that sbrk returns on failure. *)
Definition SBRK_FAILED : Z := wrap (-1).

(** sbrk(increment), with increment the intptr_t the call receives.  An
    increment of 0 returns the break.  Another increment moves the break when
    the kernel accepts the new one and fails otherwise, leaving the break
    where it was.  Every call is recorded in sbrk_log. *)
Definition sbrk (s : state) (increment : Z) : state * Z :=
  if increment =? 0 then (log_sbrk s 0 (Some (brk s)), brk s)
  else
    let new_brk := brk s + increment in
    if (brk_min s <=? new_brk) && (new_brk <=? brk_max s)
    then (set_brk (log_sbrk s increment (Some (brk s))) new_brk, brk s)
    else (log_sbrk s increment None, SBRK_FAILED).

(** ** myalloc.c: the free list *)

Definition init_heap_if_needed (s : state) : state :=
  if heap_initialized s then s
  else
    let (s, b) := sbrk s 0 in
    set_heap_start s b.

(** The address just after the payload of block,
    (char * )block + FBLOCKSIZE + block->size. *)
Definition block_end (s : state) (block : Z) : Z :=
  add64 (add64 block FBLOCKSIZE) (size_of s block).

Definition coalesce (s : state) (block : Z) : state * Z :=
  let next_block := next_of s block in
  let prev_block := prev_of s block in
  let s :=
    if negb (next_block =? NULL) && (block_end s block =? next_block) then
      let s := set_next s block (next_of s next_block) in
      let s := set_size s block
                 (add64 (size_of s block)
                        (add64 (size_of s next_block) FBLOCKSIZE)) in
      if negb (next_of s next_block =? NULL)
      then set_prev s (next_of s next_block) block
      else s
    else s in
  if negb (prev_block =? NULL) && (block_end s prev_block =? block) then
    let s := set_next s prev_block (next_of s block) in
    let s := set_size s prev_block
               (add64 (size_of s prev_block)
                      (add64 (size_of s block) FBLOCKSIZE)) in
    let s := if negb (next_block =? NULL)
             then set_prev s next_block prev_block
             else s in
    (s, prev_block)
  else (s, block).

(** The first conditional of coalesce (myalloc.c, lines 100-107): block
    absorbs next_block when it ends where next_block starts. *)
Definition merge_next (s : state) (block next_block : Z) : state :=
  if negb (next_block =? NULL) && (block_end s block =? next_block) then
    let s := set_next s block (next_of s next_block) in
    let s := set_size s block
               (add64 (size_of s block)
                      (add64 (size_of s next_block) FBLOCKSIZE)) in
    if negb (next_of s next_block =? NULL)
    then set_prev s (next_of s next_block) block
    else s
  else s.

(** The second conditional of coalesce (lines 109-117): prev_block absorbs
    block when it ends where block starts.  next_block is still the
    successor that block had when coalesce was entered. *)
Definition merge_prev (s : state) (block next_block prev_block : Z)
  : state * Z :=
  if negb (prev_block =? NULL) && (block_end s prev_block =? block) then
    let s := set_next s prev_block (next_of s block) in
    let s := set_size s prev_block
               (add64 (size_of s prev_block)
                      (add64 (size_of s block) FBLOCKSIZE)) in
    let s := if negb (next_block =? NULL)
             then set_prev s next_block prev_block
             else s in
    (s, prev_block)
  else (s, block).

(** The loop of insert_to_list,
    while (curr && (char * )curr < (char * )new) { prev = curr; curr = curr->next; }
    which returns the final curr and prev. *)
Fixpoint insert_scan (fuel : nat) (s : state) (new curr prev : Z)
  : option (Z * Z) :=
  if negb (curr =? NULL) && (curr <? new) then
    match fuel with
    | O => None
    | S fuel' => insert_scan fuel' s new (next_of s curr) curr
    end
  else Some (curr, prev).

Definition insert_to_list (fuel : nat) (s : state) (new : Z) : result state :=
  let s := set_next s new NULL in
  let s := set_prev s new NULL in
  let* s :=
       (if head s =? NULL then Ret (set_head s new)
        else
          match insert_scan fuel s new (head s) NULL with
          | None => OutOfFuel
          | Some (curr, prev) =>
              if prev =? NULL then
                let s := set_next s new (head s) in
                let s := set_prev s (head s) new in
                Ret (set_head s new)
              else if curr =? NULL then
                let s := set_next s prev new in
                Ret (set_prev s new prev)
              else
                let s := set_prev s new prev in
                let s := set_next s new curr in
                let s := set_next s prev new in
                Ret (set_prev s curr new)
          end) in
  let (s, new) := coalesce s new in
  Ret (set_is_allocated s new 0).

Definition remove_from_list (s : state) (block : Z) : state :=
  if (head s =? NULL) || (block =? NULL) then s
  else
    let s :=
      if block =? head s then
        let s := set_head s (next_of s block) in
        if negb (head s =? NULL) then set_prev s (head s) NULL else s
      else
        let s := if negb (next_of s block =? NULL)
                 then set_prev s (next_of s block) (prev_of s block)
                 else s in
        if negb (prev_of s block =? NULL)
        then set_next s (prev_of s block) (next_of s block)
        else s in
    let s := set_next s block NULL in
    let s := set_prev s block NULL in
    set_is_allocated s block 1.

Definition split_block (fuel : nat) (s : state) (block size : Z)
  : result (state * Z) :=
  let leftover_size := sub64 (sub64 (size_of s block) size) FBLOCKSIZE in
  if leftover_size <? MIN_SPLIT_REMAINDER then Ret (s, block)
  else
    let s := set_size s block size in
    let new := add64 block (add64 size FBLOCKSIZE) in
    let s := set_size s new leftover_size in
    let s := set_next s new NULL in
    let s := set_prev s new NULL in
    let* s := insert_to_list fuel s new in
    Ret (s, block).

(** ** myalloc.c: allocation and release *)

(** The loop of internal_myalloc over the free list.  It either returns
    from internal_myalloc (inl) or ends at the null pointer with the last
    node visited in prev (inr).  fuel bounds the iterations; fuel0 is the
    budget handed to the loop inside split_block. *)
Fixpoint alloc_loop (fuel0 fuel : nat) (s : state) (size curr prev : Z)
  : result (state * Z) + Z :=
  if curr =? NULL then inr prev
  else
    match fuel with
    | O => inl OutOfFuel
    | S fuel' =>
        if (size <=? size_of s curr)
           && (size_of s curr <? add64 size MIN_SPLIT_REMAINDER) then
          let s := remove_from_list s curr in
          inl (Ret (s, PAYLOAD curr))
        else if size <=? size_of s curr then
          let s := remove_from_list s curr in
          inl (let* (s, new) := split_block fuel0 s curr size in
               Ret (s, PAYLOAD new))
        else alloc_loop fuel0 fuel' s size (next_of s curr) curr
    end.

(** A new block at the break.  The source has this code twice, in the
    branch of a last free block that does not touch the break and in the
    branch of an empty free list. *)
Definition new_block (s : state) (size : Z) : result (state * Z) :=
  if add64 size FBLOCKSIZE >? INTPTR_MAX then Ret (s, NULL)
  else
    let (s, region) := sbrk s (to_intptr (add64 size FBLOCKSIZE)) in
    if region =? SBRK_FAILED then Ret (s, NULL)
    else
      let new := region in
      let s := set_size s new size in
      let s := set_is_allocated s new 1 in
      Ret (s, PAYLOAD new).

(** The rounding (size + ALIGNMENT_MASK) & ~ALIGNMENT_MASK. *)
Definition round_up (size : Z) : Z :=
  Z.land (add64 size ALIGNMENT_MASK) (not64 ALIGNMENT_MASK).

Definition internal_myalloc (fuel : nat) (s : state) (size : Z)
  : result (state * Z) :=
  if size <=? 0 then Ret (s, NULL)
  else
    let s := init_heap_if_needed s in
    let size := round_up size in
    match alloc_loop fuel fuel s size (head s) NULL with
    | inl r => r
    | inr prev =>
        let (s, prog_break) := sbrk s 0 in
        if negb (prev =? NULL) then
          let prev_end := add64 (add64 prev (size_of s prev)) FBLOCKSIZE in
          if prev_end =? prog_break then
            let (s, r) := sbrk s (to_intptr (sub64 size (size_of s prev))) in
            if r =? SBRK_FAILED then Ret (s, NULL)
            else
              let s := set_size s prev size in
              let s := remove_from_list s prev in
              Ret (s, PAYLOAD prev)
          else new_block s size
        else new_block s size
    end.

Definition myalloc (fuel : nat) (s : state) (size : Z) : result (state * Z) :=
  internal_myalloc fuel s size.

Definition double_free_message : string :=
  String.append "double free not allowed"
                (String (Ascii.ascii_of_nat 10) EmptyString).

Definition myfree (fuel : nat) (s : state) (ptr : Z) : result state :=
  if ptr =? NULL then Ret s
  else
    let blk := ptr in
    if is_allocated s blk =? 0 then Exit 1 double_free_message
    else insert_to_list fuel s blk.

(** ** myalloc.c: the debugging aid print_list

    print_list reads the free list and writes to stdout.  Its result is the
    list of its calls of printf, in the order of the calls, each with its
    format and its pointer arguments; how a pointer is rendered by the
    conversion p is left to the C library. *)

Definition node_format : string := "%p: -> ".

Definition newline_format : string :=
  String (Ascii.ascii_of_nat 10) EmptyString.

(** The loop while (curr) { printf("%p: -> ", curr); curr = curr->next; } *)
Fixpoint print_loop (fuel : nat) (s : state) (curr : Z)
  : result (list (string * list Z)) :=
  if curr =? NULL then Ret []
  else
    match fuel with
    | O => OutOfFuel
    | S fuel' =>
        let* out := print_loop fuel' s (next_of s curr) in
        Ret ((node_format, [curr]) :: out)
    end.

Definition print_list (fuel : nat) (s : state)
  : result (list (string * list Z)) :=
  let curr := head s in
  if head s =? NULL then Ret []
  else
    let* out := print_loop fuel s curr in
    Ret (out ++ [(newline_format, [])]).

(** ** The client *)

(** The program writes an integer into memory it holds. *)
Definition user_write (s : state) (a v : Z) : state := store s a v.

(** A process before its first call of the allocator: nothing in the
    static variables, zero-filled memory, the break at start and room for
    room more bytes. *)
Definition fresh (start room : Z) : state :=
  State NULL NULL false ∅ start start (start + room) [].

(** ** The free list as a path through memory *)

(** [walk s a l b]: following next pointers from a leads to b through the
    nodes of l, each of them non-null (a is the first of them, b is not one
    of them).  The free list of s is the path from [head s] to NULL. *)
Inductive walk (s : state) : Z -> list Z -> Z -> Prop :=
| walk_nil (a : Z) : walk s a [] a
| walk_cons (a b : Z) (l : list Z) :
    a <> NULL -> walk s (next_of s a) l b -> walk s a (a :: l) b.

Definition free_list (s : state) (l : list Z) : Prop :=
  walk s (head s) l NULL.

(** The headers at a and at b do not overlap. *)
Definition separated (a b : Z) : Prop :=
  a + FBLOCKSIZE <= b \/ b + FBLOCKSIZE <= a.

(** The headers of the nodes of l do not overlap one another. *)
Definition well_separated (l : list Z) : Prop :=
  forall x y, x ∈ l -> y ∈ l -> x <> y -> separated x y.

(** The headers of l lie in the order of the list and do not overlap. *)
Definition headers_in_order (l : list Z) : Prop :=
  StronglySorted (fun a b => a + FBLOCKSIZE <= b) l.

(** The back links of a path: the prev field of the first node of l is p,
    and the prev field of every other node is the node before it. *)
Fixpoint back_linked (s : state) (p : Z) (l : list Z) : Prop :=
  match l with
  | [] => True
  | a :: l' => prev_of s a = p /\ back_linked s a l'
  end.

(** The free list of s is l, linked in both directions. *)
Definition well_linked (s : state) (l : list Z) : Prop :=
  free_list s l /\ back_linked s NULL l.

(** The blocks of l lie in the address space in the order of the list, and
    each of them ends before the next one starts: they neither overlap nor
    touch. *)
Fixpoint blocks_apart (s : state) (l : list Z) : Prop :=
  match l with
  | [] => True
  | a :: l' =>
      0 < a /\ 0 <= size_of s a /\
      a + FBLOCKSIZE + size_of s a < 2 ^ 64 /\
      (forall b, hd_error l' = Some b -> a + FBLOCKSIZE + size_of s a < b) /\
      blocks_apart s l'
  end.

(** Every block of l, as it is in s, lies inside a block of l', as it is
    in s'. *)
Definition covered_by (s : state) (l : list Z) (s' : state) (l' : list Z)
  : Prop :=
  forall x, x ∈ l ->
    exists b, b ∈ l' /\ b <= x /\
              x + FBLOCKSIZE + size_of s x <= b + FBLOCKSIZE + size_of s' b.

(** During the run from s to s' some call of sbrk failed. *)
Definition sbrk_failed_during (s s' : state) : Prop :=
  exists (calls : list (Z * option Z)) (increment : Z),
    sbrk_log s' = calls ++ sbrk_log s /\ (increment, None) ∈ calls.

(** The part of the state that belongs to the kernel and to the heap
    origin: s' has the break, the limits, the sbrk calls and the captured
    origin of s. *)
Definition same_break (s s' : state) : Prop :=
  brk s' = brk s /\ brk_min s' = brk_min s /\ brk_max s' = brk_max s /\
  sbrk_log s' = sbrk_log s /\
  heap_start s' = heap_start s /\ heap_initialized s' = heap_initialized s.

(** ** The invariants of the free list

    A node of the free list: a non-null address that the next pointers
    lead to from the head. *)
Definition reachable (s : state) (n : Z) : Prop :=
  n <> NULL /\ exists l, walk s (head s) l n.

(** The free list is strictly increasing by address, every node lying
    below its successor, and holds no two physically adjacent blocks. *)
Definition sorted_without_adjacent_blocks (s : state) : Prop :=
  (forall n, reachable s n -> next_of s n <> NULL -> n < next_of s n) /\
  (forall a b, reachable s a -> reachable s b -> block_end s a <> b).

(** The head has no predecessor, and the back link of the successor of
    every node of the free list points to that node. *)
Definition links_consistent (s : state) : Prop :=
  (head s <> NULL -> prev_of s (head s) = NULL) /\
  (forall n, reachable s n -> next_of s n <> NULL ->
             prev_of s (next_of s n) = n).

(** ** Scenarios

    Runs of a process from its first call on.  The client stores integers
    in the payloads it holds. *)

Definition a_process : state := fresh 4096 4096.

(** Two blocks of 32 bytes; the client stores 128 and 1 in the first and 1
    in the second word of the second, frees the second, then the first, and
    allocates 32 bytes. *)
Definition split_onto_free_block : result (state * Z) :=
  let* (s, pA) := myalloc 8 a_process 32 in
  let* (s, pB) := myalloc 8 s 32 in
  let s := user_write s pA 128 in
  let s := user_write s (pA + 8) 1 in
  let s := user_write s (pB + 8) 1 in
  let* s := myfree 8 s pB in
  let* s := myfree 8 s pA in
  myalloc 8 s 32.

(** Five blocks of 32 bytes; the client stores 32 and 1 in the first two
    words of the first, second, third and fifth, and frees the first, third,
    fifth and second, in this order. *)
Definition merge_both_sides : result (state * (Z * Z * Z * Z * Z)) :=
  let* (s, pA) := myalloc 8 a_process 32 in
  let* (s, pB) := myalloc 8 s 32 in
  let* (s, pC) := myalloc 8 s 32 in
  let* (s, pD) := myalloc 8 s 32 in
  let* (s, pE) := myalloc 8 s 32 in
  let s := user_write (user_write s pA 32) (pA + 8) 1 in
  let s := user_write (user_write s pB 32) (pB + 8) 1 in
  let s := user_write (user_write s pC 32) (pC + 8) 1 in
  let s := user_write (user_write s pE 32) (pE + 8) 1 in
  let* s := myfree 8 s pA in
  let* s := myfree 8 s pC in
  let* s := myfree 8 s pE in
  let* s := myfree 8 s pB in
  Ret (s, (pA, pB, pC, pD, pE)).

(** The state a run ends in. *)
Definition final_state {A : Type} (r : result (state * A)) : state :=
  match r with
  | Ret (s, _) => s
  | _ => a_process
  end.

(** The first allocation of 32 bytes, at 4128, with the client's 1 in the
    second word of the payload. *)
Definition one_block_in_use : state :=
  Eval vm_compute in user_write (final_state (myalloc 8 a_process 32)) 4136 1.

(** The same after the free of that block. *)
Definition one_block_freed : state :=
  Eval vm_compute in
    final_state (let* s := myfree 8 one_block_in_use 4128 in Ret (s, 0)).


(** A process whose break cannot move. *)
Definition no_room : state := fresh 4096 0.

(** The heap after the first call myalloc(128) of a process. *)
Definition one_block_of_128 : state :=
  Eval vm_compute in final_state (myalloc 1 a_process 128).

(** The states the two scenarios above end in. *)
Definition after_split_onto_free_block : state :=
  Eval vm_compute in final_state split_onto_free_block.

Definition after_merge_both_sides : state :=
  Eval vm_compute in final_state merge_both_sides.


(** Five allocated blocks of 32 bytes: their headers are at 4096, 4160,
    4224, 4288 and 4352, and the break is at 4416. *)
Definition five_blocks : state :=
  Eval vm_compute in
  final_state
    (let* (s, _) := myalloc 8 a_process 32 in
     let* (s, _) := myalloc 8 s 32 in
     let* (s, _) := myalloc 8 s 32 in
     let* (s, _) := myalloc 8 s 32 in
     myalloc 8 s 32).

(** The same after insert_to_list of the first block, at its header
    4096. *)
Definition first_block_free : state :=
  Eval vm_compute in
  final_state (let* s := insert_to_list 8 five_blocks 4096 in Ret (s, 0)).

(** The same after insert_to_list of the third block, at its header
    4224. *)
Definition third_block_free : state :=
  Eval vm_compute in
  final_state (let* s := insert_to_list 8 five_blocks 4224 in Ret (s, 0)).

(** The same after insert_to_list of the first and of the fifth block. *)
Definition outer_blocks_free : state :=
  Eval vm_compute in
  final_state
    (let* s := insert_to_list 8 five_blocks 4096 in
     let* s := insert_to_list 8 s 4352 in
     Ret (s, 0)).

(** The same after insert_to_list of the first, the fifth and the third
    block: the free list is 4096, 4224, 4352. *)
Definition three_free_blocks : state :=
  Eval vm_compute in
  final_state
    (let* s := insert_to_list 8 outer_blocks_free 4224 in Ret (s, 0)).

(** One free block of 128 bytes at 4096: the first block of a process,
    inserted into the free list at its header. *)
Definition free_block_of_128 : state :=
  Eval vm_compute in
  final_state (let* s := insert_to_list 8 one_block_of_128 4096 in Ret (s, 0)).

(** One free block of 96 bytes at 4096, obtained in the same way. *)
Definition free_block_of_96 : state :=
  Eval vm_compute in
  final_state
    (let* (s, _) := myalloc 1 a_process 96 in
     let* s := insert_to_list 8 s 4096 in
     Ret (s, 0)).






(** Two allocations of 32 bytes, at 4128 and 4192; the client stores 1 in
    the second word of the second payload and frees it.  The free list is
    the node 4192, of size 0, which ends at the break 4224. *)
Definition second_block_freed : state :=
  Eval vm_compute in
  final_state
    (let* (s, _) := myalloc 8 a_process 32 in
     let* (s, p) := myalloc 8 s 32 in
     let s := user_write s (p + 8) 1 in
     let* s := myfree 8 s p in
     Ret (s, 0)).

(** * Properties *)

(** A test for equality that fails: rewrite it to false. *)
Ltac eqb_false x y :=
  let H := fresh in
  assert (H : (x =? y) = false) by (apply Z.eqb_neq; done);
  rewrite H; clear H.

(** ** Memory and state projections *)

Lemma load_store_eq (s : state) (a v : Z) : load (store s a v) a = v.
Proof. unfold load, store; simpl. by rewrite lookup_insert_eq. Qed.

Lemma load_store_ne (s : state) (a b v : Z) :
  a <> b -> load (store s a v) b = load s b.
Proof. intros Hab. unfold load, store; simpl. by rewrite lookup_insert_ne. Qed.

Lemma load_store (s : state) (a b v : Z) :
  load (store s a v) b = if decide (a = b) then v else load s b.
Proof.
  case_decide as Hab.
  - subst. apply load_store_eq.
  - by apply load_store_ne.
Qed.

Lemma load_set_head (s : state) (h a : Z) : load (set_head s h) a = load s a.
Proof. reflexivity. Qed.

Lemma load_log_sbrk (s : state) (i : Z) (r : option Z) (a : Z) :
  load (log_sbrk s i r) a = load s a.
Proof. reflexivity. Qed.

Lemma load_set_brk (s : state) (b a : Z) : load (set_brk s b) a = load s a.
Proof. reflexivity. Qed.

(** The int of a cell is what was written into it last, the padding is what
    it was. *)
Lemma int_of_cell_with_int (cell v : Z) :
  0 <= v < 2 ^ 32 -> int_of_cell (cell_with_int cell v) = v.
Proof.
  intros Hv. unfold int_of_cell, cell_with_int.
  rewrite (Z.mod_small v) by done.
  pose proof (Z.div_mod cell (2 ^ 32) ltac:(lia)).
  replace (cell - cell mod 2 ^ 32 + v) with (v + cell / 2 ^ 32 * 2 ^ 32) by lia.
  rewrite Z.mod_add by lia. by apply Z.mod_small.
Qed.

Lemma cell_with_int_twice (cell v w : Z) :
  cell_with_int (cell_with_int cell v) w = cell_with_int cell w.
Proof.
  unfold cell_with_int.
  pose proof (Z.div_mod cell (2 ^ 32) ltac:(lia)).
  pose proof (Z.mod_pos_bound v (2 ^ 32) ltac:(lia)).
  replace (cell - cell mod 2 ^ 32 + v mod 2 ^ 32)
    with (v mod 2 ^ 32 + cell / 2 ^ 32 * 2 ^ 32) by lia.
  rewrite Z.mod_add, Z.mod_mod by lia. lia.
Qed.

Lemma cell_with_int_same (cell : Z) :
  cell_with_int cell (int_of_cell cell) = cell.
Proof.
  unfold cell_with_int, int_of_cell. rewrite Z.mod_mod by lia. lia.
Qed.

Lemma is_allocated_set_is_allocated (s : state) (b v : Z) :
  0 <= v < 2 ^ 32 -> is_allocated (set_is_allocated s b v) b = v.
Proof.
  intros Hv. unfold is_allocated, set_is_allocated. rewrite load_store_eq.
  by apply int_of_cell_with_int.
Qed.

Lemma sbrk_zero (s : state) : sbrk s 0 = (log_sbrk s 0 (Some (brk s)), brk s).
Proof. reflexivity. Qed.

Lemma init_heap_if_needed_mem (s : state) :
  mem (init_heap_if_needed s) = mem s.
Proof. unfold init_heap_if_needed. by destruct (heap_initialized s). Qed.

Lemma init_heap_if_needed_head (s : state) :
  head (init_heap_if_needed s) = head s.
Proof. unfold init_heap_if_needed. by destruct (heap_initialized s). Qed.

Lemma init_heap_if_needed_brk (s : state) :
  brk (init_heap_if_needed s) = brk s.
Proof. unfold init_heap_if_needed. by destruct (heap_initialized s). Qed.

Lemma init_heap_if_needed_limits (s : state) :
  brk_min (init_heap_if_needed s) = brk_min s /\
  brk_max (init_heap_if_needed s) = brk_max s.
Proof. unfold init_heap_if_needed. by destruct (heap_initialized s). Qed.

Lemma load_init_heap_if_needed (s : state) (a : Z) :
  load (init_heap_if_needed s) a = load s a.
Proof. unfold load. by rewrite init_heap_if_needed_mem. Qed.

(** ** 64-bit arithmetic and rounding *)

Lemma wrap_range (x : Z) : 0 <= wrap x < 2 ^ 64.
Proof. unfold wrap. apply Z.mod_pos_bound. lia. Qed.

Lemma wrap_small (x : Z) : 0 <= x < 2 ^ 64 -> wrap x = x.
Proof. unfold wrap. apply Z.mod_small. Qed.

Lemma wrap_eq_diff (a b : Z) : wrap a = wrap b -> 0 < a - b < 2 ^ 64 -> False.
Proof.
  unfold wrap. intros Heq Hdiff.
  pose proof (Z.div_mod a (2 ^ 64) ltac:(lia)).
  pose proof (Z.div_mod b (2 ^ 64) ltac:(lia)).
  lia.
Qed.

(** The rounding clears the five low bits of size + 31 (modulo 2^64). *)
Lemma round_up_eq (size : Z) :
  round_up size = wrap (size + 31) - wrap (size + 31) mod 32.
Proof.
  unfold round_up, add64, not64, ALIGNMENT_MASK, ALIGNMENT.
  change (32 - 1) with (Z.ones 5). change 31 with (Z.ones 5).
  set (x := wrap (size + Z.ones 5)).
  assert (Hx : 0 <= x < 2 ^ 64) by apply wrap_range.
  unfold wrap at 1. rewrite <- Z.land_ones by lia.
  rewrite Z.land_assoc, <- Z.ldiff_land, Z.ldiff_ones_r by lia.
  rewrite Z.shiftr_div_pow2, Z.shiftl_mul_pow2 by lia.
  rewrite Z.land_ones by lia.
  change (2 ^ 5) with 32.
  pose proof (Z.div_mod x 32 ltac:(lia)).
  pose proof (Z.mod_pos_bound x 32 ltac:(lia)).
  rewrite Z.mod_small by lia. lia.
Qed.

Lemma round_up_range (size : Z) : 0 <= round_up size < 2 ^ 64.
Proof.
  rewrite round_up_eq.
  pose proof (wrap_range (size + 31)).
  pose proof (Z.mod_pos_bound (wrap (size + 31)) 32 ltac:(lia)).
  pose proof (Z.mod_le (wrap (size + 31)) 32 ltac:(lia) ltac:(lia)).
  lia.
Qed.

Lemma round_up_aligned (size : Z) : round_up size mod ALIGNMENT = 0.
Proof.
  rewrite round_up_eq. unfold ALIGNMENT.
  rewrite Zminus_mod, Z.mod_mod by lia.
  rewrite Z.sub_diag. reflexivity.
Qed.

(** Without wrap-around the rounding is the least multiple of 32 that is
    not below the size. *)
Lemma round_up_bounds (size : Z) :
  0 <= size <= SIZE_MAX - 31 -> size <= round_up size < size + 32.
Proof.
  unfold SIZE_MAX. intros Hsize. rewrite round_up_eq.
  rewrite wrap_small by lia.
  pose proof (Z.mod_pos_bound (size + 31) 32 ltac:(lia)). lia.
Qed.

(** For a request of at most SIZE_MAX - 63 bytes the bound of the exact-fit
    test does not wrap around: it is the integer r + MIN_SPLIT_REMAINDER. *)
Lemma exact_fit_bound_without_wrap (n : Z) :
  0 < n <= SIZE_MAX - 63 ->
  add64 (round_up n) MIN_SPLIT_REMAINDER = round_up n + MIN_SPLIT_REMAINDER.
Proof.
  intros Hn.
  pose proof (round_up_bounds n ltac:(unfold SIZE_MAX in *; lia)) as Hr.
  pose proof (round_up_aligned n) as Hal. unfold ALIGNMENT in Hal.
  pose proof (Z.div_mod (round_up n) 32 ltac:(lia)) as Hdiv.
  unfold SIZE_MAX in Hn.
  unfold add64, MIN_SPLIT_REMAINDER, FBLOCKSIZE, POINTER_SIZE.
  apply wrap_small. lia.
Qed.

(** ** Paths: composition, determinism, absence of repetition *)

Section Paths.

Context (s : state).

Lemma walk_nil_inv (a b : Z) : walk s a [] b -> a = b.
Proof. by inversion 1. Qed.

Lemma walk_cons_inv (a b x : Z) (l : list Z) :
  walk s a (x :: l) b -> a = x /\ x <> NULL /\ walk s (next_of s x) l b.
Proof. by inversion 1. Qed.

Lemma walk_first (l : list Z) (a b x : Z) :
  walk s a (x :: l) b -> a = x.
Proof. by inversion 1. Qed.

Lemma walk_start (a b : Z) (l : list Z) :
  walk s a l b -> l <> [] -> a ∈ l /\ a <> NULL.
Proof.
  intros Hw Hl. destruct l as [| x l]; [done |].
  apply walk_cons_inv in Hw as (-> & Hx & _). split; [left | done].
Qed.

Lemma walk_app (a b c : Z) (l1 l2 : list Z) :
  walk s a l1 b -> walk s b l2 c -> walk s a (l1 ++ l2) c.
Proof.
  intros Hw1 Hw2. induction Hw1 as [a | a b l Ha Hw IH]; [done |].
  simpl. constructor; [done | by apply IH].
Qed.

Lemma walk_app_inv (l1 l2 : list Z) :
  forall a c : Z,
    walk s a (l1 ++ l2) c -> exists b, walk s a l1 b /\ walk s b l2 c.
Proof.
  induction l1 as [| x l1 IH]; intros a c Hw; simpl in Hw.
  - exists a. split; [constructor | done].
  - inversion Hw as [| a' b' l' Ha Hw']; subst.
    destruct (IH _ _ Hw') as (b & Hw1 & Hw2).
    exists b. split; [by constructor | done].
Qed.

Lemma walk_nodes_nonnull (a b : Z) (l : list Z) :
  walk s a l b -> Forall (fun x => x <> NULL) l.
Proof. induction 1; constructor; done. Qed.

Lemma walk_null_unique (l : list Z) :
  forall (a : Z) (l' : list Z),
    walk s a l NULL -> walk s a l' NULL -> l = l'.
Proof.
  induction l as [| x l IH]; intros a l' Hw Hw'.
  - inversion Hw; subst. inversion Hw'; [done | congruence].
  - inversion Hw as [| a1 b1 l1 Ha Hw1]; subst.
    inversion Hw' as [| a2 b2 l2 Ha' Hw2]; subst; [congruence |].
    f_equal. by eapply IH.
Qed.

(** A null-terminated list passes through no node twice. *)
Lemma walk_null_NoDup (l : list Z) :
  forall a : Z, walk s a l NULL -> NoDup l.
Proof.
  induction l as [| x l IH]; intros a Hw; [constructor |].
  inversion Hw as [| a1 b1 l1 Ha Hw1]; subst.
  constructor; [| by eapply IH].
  intros Hin. apply list_elem_of_split in Hin as (l1 & l2 & ->).
  destruct (walk_app_inv l1 (x :: l2) _ _ Hw1) as (b & _ & Hw2).
  assert (b = x) as -> by (inversion Hw2; done).
  pose proof (walk_null_unique _ _ _ Hw Hw2) as Heq.
  apply (f_equal length) in Heq. simpl in Heq.
  rewrite length_app in Heq. simpl in Heq. lia.
Qed.

(** The last node of a null-terminated list has a null next pointer. *)
Lemma walk_last_next (l : list Z) (a b : Z) :
  walk s a (l ++ [b]) NULL -> b <> NULL /\ next_of s b = NULL.
Proof.
  intros Hw. destruct (walk_app_inv l [b] _ _ Hw) as (x & _ & Hw2).
  inversion Hw2 as [| a1 b1 l1 Ha Hw1]; subst.
  split; [done | by apply walk_nil_inv in Hw1].
Qed.

(** Two states with the same memory have the same paths. *)
Lemma walk_same_mem (s' : state) (a b : Z) (l : list Z) :
  mem s' = mem s -> walk s a l b -> walk s' a l b.
Proof.
  intros Hmem Hw. induction Hw as [a | a b l Ha Hw IH].
  - constructor.
  - constructor; [done |].
    replace (next_of s' a) with (next_of s a); [done |].
    unfold next_of, load. by rewrite Hmem.
Qed.

(** Writing a cell that is the next field of no node of a path keeps the
    path. *)
Lemma walk_store_other (a b c v : Z) (l : list Z) :
  walk s a l b -> Forall (fun x => x + 24 <> c) l ->
  walk (store s c v) a l b.
Proof.
  intros Hw. induction Hw as [a | a b l Ha Hw IH]; intros Hl.
  - constructor.
  - apply Forall_cons in Hl as [Hac Hl].
    constructor; [done |].
    unfold next_of. rewrite load_store_ne by done. by apply IH.
Qed.

(** Writing a null pointer anywhere leaves a null-terminated list
    null-terminated: the list stays as it is or is cut short. *)
Lemma walk_store_null (a c : Z) (l : list Z) :
  walk s a l NULL ->
  exists l', walk (store s c NULL) a l' NULL /\ (length l' <= length l)%nat.
Proof.
  intros Hw. remember NULL as b eqn:Hb.
  induction Hw as [a | a b l Ha Hw IH]; subst.
  - exists []. split; [constructor | done].
  - destruct (IH eq_refl) as (l' & Hw' & Hlen).
    destruct (decide (a + 24 = c)) as [<- | Hne].
    + exists [a]. split; [| simpl; lia].
      constructor; [done |].
      unfold next_of. rewrite load_store_eq. constructor.
    + exists (a :: l'). split; [| simpl; lia].
      constructor; [done |].
      unfold next_of. by rewrite load_store_ne.
Qed.

End Paths.

(** The cell at offset k of the header at x is the next field of no node
    of l, when the headers do not overlap and x itself, if it is in l, is
    not asked about its own next field. *)
Lemma next_fields_apart (l : list Z) (x k : Z) :
  (forall y, y ∈ l -> y <> x -> separated y x) ->
  0 <= k < 32 -> (k = 24 -> x ∉ l) ->
  Forall (fun y => y + 24 <> x + k) l.
Proof.
  intros Hsep Hk Hx. apply Forall_forall. intros y Hy Heq.
  destruct (decide (y = x)) as [-> | Hne].
  - apply Hx; [lia | done].
  - specialize (Hsep y Hy Hne). unfold separated, FBLOCKSIZE in Hsep. lia.
Qed.

(** ** Termination of the insertion scan on a null-terminated list *)

Lemma insert_scan_total (s : state) (new : Z) (l : list Z) :
  forall (fuel : nat) (curr prev : Z),
    walk s curr l NULL -> (length l <= fuel)%nat ->
    exists r, insert_scan fuel s new curr prev = Some r.
Proof.
  induction l as [| a l IH]; intros fuel curr prev Hw Hlen.
  - inversion Hw; subst. destruct fuel; simpl; eauto.
  - inversion Hw; subst. destruct fuel as [| fuel]; [simpl in Hlen; lia |].
    simpl. destruct (negb (a =? NULL) && (a <? new)); [| eauto].
    apply IH; [done | simpl in Hlen; lia].
Qed.

Lemma insert_to_list_total (fuel : nat) (s : state) (new : Z) (l : list Z) :
  free_list s l -> (length l <= fuel)%nat ->
  exists s', insert_to_list fuel s new = Ret s'.
Proof.
  unfold free_list. intros Hw Hlen.
  destruct (walk_store_null s (head s) (new + 24) l Hw) as (l1 & Hw1 & Hlen1).
  destruct (walk_store_null _ (head s) (new + 16) l1 Hw1) as (l2 & Hw2 & Hlen2).
  unfold insert_to_list.
  fold (set_next s new NULL) in Hw2 |- *.
  fold (set_prev (set_next s new NULL) new NULL) in Hw2 |- *.
  set (s2 := set_prev (set_next s new NULL) new NULL) in *.
  change (head s) with (head s2) in Hw2.
  destruct (head s2 =? NULL).
  - simpl. destruct (coalesce _ new). eauto.
  - destruct (insert_scan_total s2 new l2 fuel (head s2) NULL Hw2 ltac:(lia))
      as ([curr prev] & ->).
    destruct (prev =? NULL); [| destruct (curr =? NULL)];
      simpl; match goal with |- context [coalesce ?x ?y] =>
                               destruct (coalesce x y) end; eauto.
Qed.

(** split_block returns on a null-terminated free list, when the two size
    fields it writes are the next field of no node of the list. *)
Lemma split_block_total (fuel : nat) (st : state) (b sz : Z) (l : list Z) :
  free_list st l -> (length l <= fuel)%nat ->
  Forall (fun a => a + 24 <> b /\ a + 24 <> add64 b (add64 sz FBLOCKSIZE)) l ->
  exists st', split_block fuel st b sz = Ret (st', b).
Proof.
  intros Hfl Hfuel Hcells. unfold split_block.
  destruct (_ <? MIN_SPLIT_REMAINDER); [eauto |].
  set (leftover := sub64 _ FBLOCKSIZE).
  set (new := add64 b (add64 sz FBLOCKSIZE)) in *.
  set (st1 := set_prev _ new NULL).
  assert (exists l2, free_list st1 l2 /\ (length l2 <= length l)%nat)
    as (l2 & Hfl2 & Hlen2).
  { unfold free_list, st1, set_prev, set_next, set_size.
    destruct (walk_store_null (store (store st b sz) new leftover)
                (head st) (new + 24) l) as (l1 & Hw1 & Hlen1).
    { repeat apply walk_store_other; [exact Hfl | |].
      all: eapply Forall_impl; [exact Hcells |]; simpl; intros; lia. }
    destruct (walk_store_null _ (head st) (new + 16) l1 Hw1)
      as (l2 & Hw2 & Hlen2).
    exists l2. split; [exact Hw2 | lia]. }
  destruct (insert_to_list_total fuel st1 new l2 Hfl2 ltac:(lia))
    as (st' & ->).
  by exists st'.
Qed.

(** ** Removal from the free list *)

(** Removing a node of a well-linked list whose headers do not overlap:
    the list loses exactly that node, which is marked allocated and keeps
    its size. *)
Lemma remove_from_list_unlinks (s : state) (pre post : list Z) (c : Z) :
  free_list s (pre ++ c :: post) ->
  well_separated (pre ++ c :: post) ->
  (forall p, last pre = Some p -> prev_of s c = p) ->
  let s' := remove_from_list s c in
  free_list s' (pre ++ post) /\
  is_allocated s' c = 1 /\ size_of s' c = size_of s c /\ brk s' = brk s.
Proof.
  intros Hfl Hsep Hprev.
  pose proof (walk_null_NoDup _ _ _ Hfl) as Hnodup.
  destruct (walk_app_inv _ _ _ _ _ Hfl) as (c' & Hpre & Hrest).
  apply walk_cons_inv in Hrest as (-> & Hc & Hpost).
  apply NoDup_app in Hnodup as (Hnodup_pre & Hdisj & Hnodup_rest).
  apply NoDup_cons in Hnodup_rest as [Hc_post Hnodup_post].
  assert (Hc_pre : c ∉ pre).
  { intros Hin. apply (Hdisj c Hin). left. }
  assert (Hsep_at : forall x y,
             x ∈ pre ++ c :: post -> y ∈ pre ++ post -> y <> x ->
             separated y x).
  { intros x y Hx Hy Hne. apply Hsep; [| done | done].
    apply elem_of_app in Hy as [Hy | Hy]; apply elem_of_app; [by left |].
    right. by right. }
  assert (Hin_c : c ∈ pre ++ c :: post).
  { apply elem_of_app. right. left. }
  assert (Hcells : forall l k, l ⊆ pre ++ post -> 0 <= k < 32 ->
             Forall (fun y => y + 24 <> c + k) l).
  { intros l k Hsub Hk. apply next_fields_apart; [| done |].
    - intros y Hy Hne. apply Hsep_at; [done | by apply Hsub | done].
    - intros _ Hin. apply Hsub in Hin.
      apply elem_of_app in Hin as [Hin | Hin]; done. }
  unfold remove_from_list.
  eqb_false c NULL.
  destruct pre as [| p pre' _] using rev_ind.
  - (* c is the head *)
    apply walk_nil_inv in Hpre. simpl in *.
    rewrite Hpre, Z.eqb_refl.
    eqb_false c NULL.
    cbn [orb head set_head].
    destruct post as [| x post'].
    + apply walk_nil_inv in Hpost. rewrite Hpost.
      change (NULL =? NULL) with true. cbn [negb].
      unfold set_is_allocated, set_prev, set_next, is_allocated, size_of.
      split_and!.
      * constructor.
      * rewrite load_store_eq. apply int_of_cell_with_int; lia.
      * rewrite !load_store_ne by lia. reflexivity.
      * reflexivity.
    + apply walk_cons_inv in Hpost as (Hnext & Hx & Hpost').
      rewrite Hnext.
      eqb_false x NULL.
      cbn [negb].
      unfold set_is_allocated, set_prev, set_next, is_allocated, size_of.
      split_and!.
      * unfold free_list. change (head _) with x.
        repeat apply walk_store_other;
          [apply (walk_same_mem s); [done | by constructor]
          | | apply Hcells; [done | lia] ..].
        apply next_fields_apart; [| lia | done].
        intros y Hy Hne. apply Hsep_at; [by right; left | done | done].
      * rewrite load_store_eq. apply int_of_cell_with_int; lia.
      * assert (separated x c) as Hsx.
        { apply Hsep_at; [done | left | intros ->; apply Hc_post; left]. }
        unfold separated, FBLOCKSIZE in Hsx.
        rewrite !load_store_ne by lia. reflexivity.
      * reflexivity.
  - (* c has the predecessor p *)
    specialize (Hprev p (last_snoc _ _)).
    destruct (walk_app_inv _ _ _ _ _ Hpre) as (p' & Hpre' & Hp).
    apply walk_cons_inv in Hp as (-> & Hp & Hpc). apply walk_nil_inv in Hpc.
    destruct (walk_start _ _ _ _ Hpre) as [Hhead_in Hhead];
      [by destruct pre' |].
    assert (Hhead_c : c <> head s) by (by intros ->).
    assert (Hp_in : p ∈ pre' ++ [p]) by (apply elem_of_app; right; left).
    assert (Hpc' : p <> c) by (by intros ->).
    assert (Hp_pre' : p ∉ pre').
    { apply NoDup_app in Hnodup_pre as (_ & Hd & _).
      intros Hin. apply (Hd p Hin). left. }
    assert (Hp_post : p ∉ post).
    { intros Hin. apply (Hdisj p Hp_in). by right. }
    assert (Hsep_pc : separated p c).
    { apply Hsep_at; [done | | done]. apply elem_of_app. by left. }
    eqb_false (head s) NULL.
    eqb_false c (head s).
    cbn [orb].
    assert (Hcells_p : forall l, l ⊆ pre' ++ post ->
               Forall (fun y => y + 24 <> p + 24) l).
    { intros l Hsub. apply Forall_forall. intros y Hy Heq.
      assert (y = p) as -> by lia. apply Hsub in Hy.
      apply elem_of_app in Hy as [Hy | Hy]; done. }
    assert (Hsub_pre' : pre' ⊆ (pre' ++ [p]) ++ post).
    { intros y Hy. apply elem_of_app. left. apply elem_of_app. by left. }
    assert (Hsub_post : post ⊆ (pre' ++ [p]) ++ post).
    { intros y Hy. apply elem_of_app. by right. }
    unfold separated, FBLOCKSIZE in Hsep_pc.
    destruct post as [| x post'].
    + apply walk_nil_inv in Hpost. rewrite Hpost.
      change (NULL =? NULL) with true. cbn [negb].
      rewrite Hprev, Hpost.
      eqb_false p NULL.
      cbn [negb].
      unfold set_is_allocated, set_prev, set_next, is_allocated, size_of.
      split_and!.
      * unfold free_list. change (head _) with (head s).
        rewrite app_nil_r. apply walk_app with (b := p).
        -- repeat apply walk_store_other;
             [done | apply Hcells_p; intros y Hy; apply elem_of_app; by left
             | apply Hcells; [done | lia] ..].
        -- constructor; [done |]. unfold next_of.
           rewrite !load_store_ne by lia. rewrite load_store_eq. constructor.
      * rewrite load_store_eq. apply int_of_cell_with_int; lia.
      * rewrite !load_store_ne by lia. reflexivity.
      * reflexivity.
    + apply walk_cons_inv in Hpost as (Hnext & Hx & Hpost').
      assert (Hx_in : x ∈ x :: post') by left.
      assert (Hxc : x <> c) by (intros ->; by apply Hc_post).
      assert (Hxp : x <> p) by (intros ->; by apply Hp_post).
      assert (Hsep_xc : separated x c).
      { apply Hsep_at; [done | by apply Hsub_post | done]. }
      assert (Hsep_xp : separated x p).
      { apply Hsep_at; [| by apply Hsub_post | done].
        apply elem_of_app. by left. }
      unfold separated, FBLOCKSIZE in Hsep_xc, Hsep_xp.
      assert (Hcells_x : forall l, l ⊆ (pre' ++ [p]) ++ x :: post' ->
                 Forall (fun y => y + 24 <> x + 16) l).
      { intros l Hsub. apply next_fields_apart; [| lia | done].
        intros y Hy Hne. apply Hsep_at; [| by apply Hsub | done].
        apply elem_of_app. right. right. left. }
      rewrite Hnext.
      eqb_false x NULL.
      cbn [negb].
      assert (Hprev1 : prev_of (set_prev s x (prev_of s c)) c = p).
      { unfold prev_of at 1, set_prev. by rewrite load_store_ne by lia. }
      assert (Hnext1 : next_of (set_prev s x (prev_of s c)) c = x).
      { unfold next_of, set_prev. by rewrite load_store_ne by lia. }
      rewrite Hprev1, Hnext1.
      eqb_false p NULL.
      cbn [negb]. rewrite Hprev.
      unfold set_is_allocated, set_prev, set_next, is_allocated, size_of.
      split_and!.
      * unfold free_list. change (head _) with (head s).
        rewrite <- app_assoc. apply walk_app with (b := p).
        -- repeat apply walk_store_other;
             [done
             | apply Hcells_x; by etrans
             | apply Hcells_p; intros y Hy; apply elem_of_app; by left
             | apply Hcells; [done | lia] ..].
        -- simpl. constructor; [done |]. unfold next_of.
           rewrite !load_store_ne by lia. rewrite load_store_eq.
           constructor; [done |]. unfold next_of.
           rewrite !load_store_ne by lia.
           repeat apply walk_store_other;
             [exact Hpost'
             | apply Hcells_x; intros y Hy; apply Hsub_post; by right
             | apply Hcells_p; intros y Hy; apply elem_of_app; right;
               by right
             | apply Hcells; [intros y Hy; apply Hsub_post; by right | lia]
               ..].
      * rewrite load_store_eq. apply int_of_cell_with_int; lia.
      * rewrite !load_store_ne by lia. reflexivity.
      * reflexivity.
Qed.

(** remove_from_list writes only into the header of the block, the next
    field of its prev and the prev field of its next. *)
Lemma remove_from_list_frame (s : state) (c a : Z) :
  a < c \/ c + FBLOCKSIZE <= a ->
  a <> prev_of s c + 24 ->
  next_of s c = NULL \/ a <> next_of s c + 16 ->
  load (remove_from_list s c) a = load s a.
Proof.
  unfold FBLOCKSIZE. intros Ha Hprev Hnext. unfold remove_from_list.
  destruct ((head s =? NULL) || (c =? NULL)); [reflexivity |].
  unfold set_is_allocated, set_prev, set_next.
  rewrite !load_store_ne by lia.
  destruct (c =? head s).
  - cbn [head set_head].
    destruct (next_of s c =? NULL) eqn:Hn; cbn [negb]; [reflexivity |].
    apply Z.eqb_neq in Hn. destruct Hnext as [? | Hnext]; [done |].
    unfold set_prev. rewrite load_store_ne by lia. reflexivity.
  - destruct (next_of s c =? NULL) eqn:Hn; cbn [negb].
    + destruct (prev_of s c =? NULL); cbn [negb]; [reflexivity |].
      rewrite load_store_ne by lia. reflexivity.
    + apply Z.eqb_neq in Hn. destruct Hnext as [? | Hnext]; [done |].
      assert (Hp : prev_of (store s (next_of s c + 16) (prev_of s c)) c
                   = prev_of s c).
      { unfold prev_of. rewrite load_store.
        case_decide as Heq; [done | reflexivity]. }
      unfold set_prev. rewrite Hp.
      destruct (prev_of s c =? NULL); cbn [negb].
      * rewrite load_store_ne by lia. reflexivity.
      * rewrite !load_store_ne by lia. reflexivity.
Qed.

Lemma remove_from_list_brk (s : state) (c : Z) :
  brk (remove_from_list s c) = brk s.
Proof. unfold remove_from_list. repeat case_match; reflexivity. Qed.

Lemma remove_from_list_marks_allocated (s : state) (c : Z) :
  head s <> NULL -> c <> NULL -> is_allocated (remove_from_list s c) c = 1.
Proof.
  intros Hhead Hc. unfold remove_from_list.
  eqb_false (head s) NULL.
  eqb_false c NULL.
  cbn [orb]. apply is_allocated_set_is_allocated; lia.
Qed.

(** ** The scan of internal_myalloc *)

Lemma last_cons_default (l : list Z) :
  forall a d : Z, default d (last (a :: l)) = default a (last l).
Proof.
  induction l as [| z l IH]; intros a d; [reflexivity |].
  change (last (a :: z :: l)) with (last (z :: l)).
  by rewrite !IH.
Qed.

(** The scan passes every node that is too small: on a path of such nodes
    the loop goes from the first of them to the node after the last, and
    prev is then the last of them. *)
Lemma alloc_loop_skip (fuel0 : nat) (s : state) (size : Z) (pre : list Z) :
  forall (fuel : nat) (curr prev c : Z),
    walk s curr pre c ->
    Forall (fun a => size_of s a < size) pre ->
    alloc_loop fuel0 (length pre + fuel) s size curr prev =
    alloc_loop fuel0 fuel s size c (default prev (last pre)).
Proof.
  induction pre as [| a pre IH]; intros fuel curr prev c Hw Hsmall.
  - inversion Hw; subst. reflexivity.
  - inversion Hw as [| a' b' l' Ha Hw' ]; subst.
    apply Forall_cons in Hsmall as [Hlt Hsmall].
    cbn [length Nat.add alloc_loop].
    eqb_false a NULL.
    assert ((size <=? size_of s a) = false) as -> by (apply Z.leb_gt; done).
    cbn [andb].
    rewrite (IH fuel (next_of s a) a c Hw' Hsmall).
    f_equal. symmetry. apply last_cons_default.
Qed.

(** The scan of a list without a fitting node ends with prev at its last node. *)
Lemma alloc_loop_no_fit (fuel0 fuel : nat) (s : state) (size : Z) (l : list Z) :
  free_list s l ->
  Forall (fun a => size_of s a < size) l ->
  (length l <= fuel)%nat ->
  alloc_loop fuel0 fuel s size (head s) NULL = inr (default NULL (last l)).
Proof.
  intros Hw Hsmall Hfuel.
  replace fuel with (length l + (fuel - length l))%nat by lia.
  rewrite (alloc_loop_skip fuel0 s size l _ _ NULL NULL Hw Hsmall).
  by destruct (fuel - length l)%nat.
Qed.

Lemma alloc_loop_empty (fuel0 fuel : nat) (s : state) (size : Z) :
  alloc_loop fuel0 fuel s size NULL NULL = inr NULL.
Proof. by destruct fuel. Qed.

(** split_block returns the block it was given. *)
Lemma split_block_returns_block {A : Type} (fuel : nat) (s : state)
    (block size : Z) (k : state -> Z -> result A) :
  (let* (s', new) := split_block fuel s block size in k s' new) =
  (let* (s', _) := split_block fuel s block size in k s' block).
Proof.
  unfold split_block.
  destruct (_ <? MIN_SPLIT_REMAINDER); [reflexivity |].
  destruct (insert_to_list _ _ _); reflexivity.
Qed.


(** ** Growing the last free block at the break *)

(** X22.  Growing the last free block.  When the scan of
    internal_myalloc finds no fitting node (every node of the free list is
    smaller than the rounded request r), the last node b of the list ends
    at the break, the break is not negative, the highest break the kernel
    accepts is at most INTPTR_MAX, and the kernel grants a break r - b.size
    bytes higher, then the break moves up by exactly r - b.size, b is marked
    allocated and its payload is returned.  No header is written anywhere
    else: outside the header of b, the only cell that may change is the next
    field of the block its back link names.  On a list that is well linked
    (the headers of its nodes do not overlap and the back link of b names
    its predecessor) b.size is r afterwards and the free list is the old one
    without b. *)
Theorem tail_block_grows_in_place
    (fuel : nat) (s : state) (n : Z) (l0 : list Z) (b : Z) :
  let r := round_up n in
  0 < n ->
  free_list s (l0 ++ [b]) ->
  Forall (fun a => size_of s a < r) (l0 ++ [b]) ->
  (length (l0 ++ [b]) <= fuel)%nat ->
  add64 (add64 b (size_of s b)) FBLOCKSIZE = brk s ->
  0 <= brk s -> brk_max s <= INTPTR_MAX ->
  brk_min s <= brk s + (r - size_of s b) <= brk_max s ->
  exists s',
    internal_myalloc fuel s n = Ret (s', PAYLOAD b) /\
    brk s' = brk s + (r - size_of s b) /\
    is_allocated s' b = 1 /\
    (forall a, a < b \/ b + FBLOCKSIZE <= a -> a <> prev_of s b + 24 ->
               load s' a = load s a) /\
    (well_separated (l0 ++ [b]) ->
     (forall p, last l0 = Some p -> prev_of s b = p) ->
     size_of s' b = r /\ free_list s' l0).
Proof.
  intros r Hn Hfl Hsmall Hfuel Hend Hbrk Hmax Hgrant.
  destruct (walk_last_next _ _ _ _ Hfl) as [Hb Hnext].
  assert (Hlt : size_of s b < r).
  { pose proof Hsmall as Hb'. rewrite Forall_app, Forall_singleton in Hb'.
    apply Hb'. }
  set (s0 := init_heap_if_needed s).
  assert (Hmem0 : mem s0 = mem s) by apply init_heap_if_needed_mem.
  assert (Hload0 : forall a, load s0 a = load s a)
    by apply load_init_heap_if_needed.
  assert (Hhead0 : head s0 = head s) by apply init_heap_if_needed_head.
  assert (Hbrk0 : brk s0 = brk s) by apply init_heap_if_needed_brk.
  destruct (init_heap_if_needed_limits s) as [Hmin0 Hmax0].
  fold s0 in Hmin0, Hmax0.
  unfold internal_myalloc. fold r; fold s0.
  assert ((n <=? 0) = false) as -> by (apply Z.leb_gt; done).
  rewrite (alloc_loop_no_fit fuel fuel s0 r (l0 ++ [b])).
  2:{ unfold free_list. rewrite Hhead0. by apply (walk_same_mem s). }
  2:{ eapply Forall_impl; [exact Hsmall |]. intros a Ha; simpl.
      unfold size_of. by rewrite Hload0. }
  2:{ done. }
  rewrite last_snoc. change (default NULL (Some b)) with b.
  rewrite sbrk_zero.
  eqb_false b NULL.
  cbn [negb].
  set (s1 := log_sbrk s0 0 (Some (brk s0))).
  assert (Hsz1 : size_of s1 b = size_of s b) by apply Hload0.
  rewrite Hsz1, Hend, Hbrk0, Z.eqb_refl.
  assert (Hinc : to_intptr (sub64 r (size_of s b)) = r - size_of s b).
  { unfold sub64. rewrite wrap_small by (unfold INTPTR_MAX in *; lia).
    unfold to_intptr.
    assert ((r - size_of s b <=? INTPTR_MAX) = true) as ->
      by (apply Z.leb_le; lia). done. }
  rewrite Hinc. unfold sbrk.
  assert ((r - size_of s b =? 0) = false) as -> by (apply Z.eqb_neq; lia).
  change (brk_min s1) with (brk_min s0). change (brk_max s1) with (brk_max s0).
  change (brk s1) with (brk s0).
  rewrite Hmin0, Hmax0, Hbrk0.
  assert (((brk_min s <=? brk s + (r - size_of s b))
           && (brk s + (r - size_of s b) <=? brk_max s)) = true) as ->.
  { apply andb_true_intro. split; apply Z.leb_le; lia. }
  assert ((brk s =? SBRK_FAILED) = false) as ->.
  { apply Z.eqb_neq. unfold SBRK_FAILED, wrap, INTPTR_MAX in *.
    change ((-1) mod 2 ^ 64) with (2 ^ 64 - 1). lia. }
  eexists. split; [reflexivity |].
  set (s2 := set_brk _ _).
  assert (Hload2 : forall a, load s2 a = load s a) by apply Hload0.
  assert (Hprev2 : prev_of (set_size s2 b r) b = prev_of s b).
  { unfold prev_of, set_size. rewrite load_store_ne by lia. apply Hload2. }
  assert (Hnext2 : next_of (set_size s2 b r) b = NULL).
  { unfold next_of, set_size. rewrite load_store_ne by lia.
    rewrite Hload2. exact Hnext. }
  assert (Hhead2 : head (set_size s2 b r) <> NULL).
  { change (head (set_size s2 b r)) with (head s0). rewrite Hhead0.
    apply (walk_start _ _ _ _ Hfl). by destruct l0. }
  split_and!.
  - rewrite remove_from_list_brk. reflexivity.
  - by apply remove_from_list_marks_allocated.
  - intros a Ha Hap. unfold FBLOCKSIZE in Ha.
    rewrite remove_from_list_frame.
    + unfold set_size. rewrite load_store_ne by lia. apply Hload2.
    + exact Ha.
    + by rewrite Hprev2.
    + by left.
  - intros Hsep Hprev.
    assert (Hfl2 : free_list (set_size s2 b r) (l0 ++ [b])).
    { unfold free_list, set_size. change (head (store s2 b r)) with (head s0).
      rewrite Hhead0. apply walk_store_other.
      - by apply (walk_same_mem s).
      - eapply Forall_impl;
          [apply (next_fields_apart (l0 ++ [b]) b 0); [| lia | intros; lia]
          | intros y Hy; simpl in *; lia].
        intros y Hy Hne. apply Hsep; [done | | done].
        apply elem_of_app. right. left. }
    destruct (remove_from_list_unlinks (set_size s2 b r) l0 [] b Hfl2 Hsep)
      as (Hfl' & _ & Hsize' & _).
    { intros p Hp. rewrite Hprev2. by apply Hprev. }
    rewrite app_nil_r in Hfl'. split; [| exact Hfl'].
    rewrite Hsize'. unfold size_of, set_size. apply load_store_eq.
Qed.

(** ** Failure of sbrk *)

Lemma coalesce_sbrk_log (s : state) (block : Z) :
  sbrk_log (coalesce s block).1 = sbrk_log s.
Proof. unfold coalesce. repeat case_match; reflexivity. Qed.

Lemma remove_from_list_sbrk_log (s : state) (block : Z) :
  sbrk_log (remove_from_list s block) = sbrk_log s.
Proof. unfold remove_from_list. repeat case_match; reflexivity. Qed.

Lemma insert_to_list_sbrk_log (fuel : nat) (s s' : state) (new : Z) :
  insert_to_list fuel s new = Ret s' -> sbrk_log s' = sbrk_log s.
Proof.
  unfold insert_to_list, bind. intros H.
  repeat case_match; simplify_eq;
    match goal with
    | H : coalesce ?x ?y = _ |- _ =>
        pose proof (coalesce_sbrk_log x y) as Hc; rewrite H in Hc
    end; simpl in *; congruence.
Qed.

Lemma split_block_sbrk_log (fuel : nat) (s s' : state) (block size b : Z) :
  split_block fuel s block size = Ret (s', b) -> sbrk_log s' = sbrk_log s.
Proof.
  unfold split_block, bind. intros H.
  repeat case_match; simplify_eq; [reflexivity |].
  match goal with
  | H : insert_to_list _ _ _ = _ |- _ => apply insert_to_list_sbrk_log in H
  end. simpl in *. congruence.
Qed.

Lemma alloc_loop_sbrk_log (fuel0 : nat) (size : Z) (s' : state) (p : Z) :
  forall (fuel : nat) (s : state) (curr prev : Z),
    alloc_loop fuel0 fuel s size curr prev = inl (Ret (s', p)) ->
    sbrk_log s' = sbrk_log s.
Proof.
  induction fuel as [| fuel IH]; intros s curr prev H; simpl in H.
  - repeat case_match; simplify_eq.
  - repeat case_match; simplify_eq.
    + apply remove_from_list_sbrk_log.
    + unfold bind in *. repeat case_match; simplify_eq.
      match goal with
      | H : split_block _ _ _ _ = _ |- _ => apply split_block_sbrk_log in H
      end. rewrite remove_from_list_sbrk_log in *. congruence.
    + eauto.
Qed.

(** A scan that finds no fitting node on a null-terminated list ends, and
    nothing after it loops: the call returns. *)
Lemma internal_myalloc_returns_after_scan
    (fuel : nat) (s : state) (n : Z) (l : list Z) :
  free_list s l ->
  Forall (fun a => size_of s a < round_up n) l ->
  (length l <= fuel)%nat ->
  exists s' p, internal_myalloc fuel s n = Ret (s', p).
Proof.
  intros Hfl Hsmall Hfuel. unfold internal_myalloc.
  destruct (n <=? 0); [eauto |].
  rewrite (alloc_loop_no_fit fuel fuel _ (round_up n) l).
  - unfold new_block. repeat case_match; eauto.
  - unfold free_list. rewrite init_heap_if_needed_head.
    apply (walk_same_mem s); [apply init_heap_if_needed_mem | done].
  - eapply Forall_impl; [exact Hsmall |]. intros a Ha; simpl.
    unfold size_of. by rewrite load_init_heap_if_needed.
  - done.
Qed.

(** A call of sbrk either fails, changing nothing but the log, or
    succeeds. *)
Lemma sbrk_cases (s : state) (increment : Z) :
  sbrk s increment = (log_sbrk s increment None, SBRK_FAILED) \/
  exists s2 b,
    sbrk s increment = (s2, b) /\
    sbrk_log s2 = (increment, Some b) :: sbrk_log s /\
    head s2 = head s /\ mem s2 = mem s.
Proof.
  unfold sbrk. repeat case_match; eauto 10.
  apply Z.eqb_eq in H as ->. eauto 10.
Qed.

(** What a returning call of internal_myalloc adds to the log: calls that
    all succeeded, or calls the last of which failed, and then the result is
    NULL and the heap is as before. *)
Lemma internal_myalloc_log (fuel : nat) (s s' : state) (n p : Z) :
  internal_myalloc fuel s n = Ret (s', p) ->
  exists calls,
    sbrk_log s' = calls ++ sbrk_log s /\
    ((forall increment, (increment, None) ∉ calls) \/
     (p = NULL /\ head s' = head s /\ mem s' = mem s /\ brk s' = brk s)).
Proof.
  unfold internal_myalloc. intros H.
  destruct (n <=? 0).
  { simplify_eq. exists []. split; [done |]. left. intros i Hi. inversion Hi. }
  set (s0 := init_heap_if_needed s) in *.
  assert (exists c0, sbrk_log s0 = c0 ++ sbrk_log s /\
                     forall i, (i, None) ∉ c0) as (c0 & Hlog0 & Hc0).
  { unfold s0, init_heap_if_needed. destruct (heap_initialized s).
    - exists []. split; [done |]. intros i Hi. inversion Hi.
    - exists [(0, Some (brk s))]. split; [done |].
      intros i Hi. apply list_elem_of_singleton in Hi. discriminate. }
  destruct (alloc_loop fuel fuel s0 (round_up n) (head s0) NULL)
    as [r | prev] eqn:Hloop.
  { subst r. apply alloc_loop_sbrk_log in Hloop.
    exists c0. split; [congruence | by left]. }
  rewrite sbrk_zero in H.
  set (s1 := log_sbrk s0 0 (Some (brk s0))) in *.
  assert (Hnew : forall s2 q, new_block s1 (round_up n) = Ret (s2, q) ->
    (sbrk_log s2 = (0, Some (brk s0)) :: sbrk_log s0 \/
     exists i b, sbrk_log s2 = (i, Some b) :: (0, Some (brk s0)) :: sbrk_log s0) \/
    (exists i, sbrk_log s2 = (i, None) :: (0, Some (brk s0)) :: sbrk_log s0) /\
    q = NULL /\ head s2 = head s0 /\ mem s2 = mem s0 /\ brk s2 = brk s0).
  { intros s2 q. unfold new_block.
    destruct (_ >? INTPTR_MAX); [intros; simplify_eq; by left; left |].
    destruct (sbrk_cases s1 (to_intptr (add64 (round_up n) FBLOCKSIZE)))
      as [-> | (s3 & b & -> & Hlog3 & _)].
    - change (SBRK_FAILED =? SBRK_FAILED) with true.
      intros Hq. cbv iota in Hq. simplify_eq.
      right. split; [by eexists | done].
    - intros Hq. left. right.
      destruct (b =? SBRK_FAILED); simplify_eq; simpl; eauto. }
  assert (Hfin : forall s2 q,
    (sbrk_log s2 = (0, Some (brk s0)) :: sbrk_log s0 \/
     exists i b, sbrk_log s2 = (i, Some b) :: (0, Some (brk s0)) :: sbrk_log s0) \/
    (exists i, sbrk_log s2 = (i, None) :: (0, Some (brk s0)) :: sbrk_log s0) /\
    q = NULL /\ head s2 = head s0 /\ mem s2 = mem s0 /\ brk s2 = brk s0 ->
    exists calls,
      sbrk_log s2 = calls ++ sbrk_log s /\
      ((forall increment, (increment, None) ∉ calls) \/
       (q = NULL /\ head s2 = head s /\ mem s2 = mem s /\ brk s2 = brk s))).
  { intros s2 q [[Hl | (i & b & Hl)] | ((i & Hl) & -> & Hh & Hm & Hb)].
    - exists ((0, Some (brk s0)) :: c0). rewrite Hl, Hlog0. split; [done |].
      left. intros j Hj. apply elem_of_cons in Hj as [? | Hj]; [done |].
      by apply (Hc0 j).
    - exists ((i, Some b) :: (0, Some (brk s0)) :: c0).
      rewrite Hl, Hlog0. split; [done |].
      left. intros j Hj. apply elem_of_cons in Hj as [? | Hj]; [done |].
      apply elem_of_cons in Hj as [? | Hj]; [done |]. by apply (Hc0 j).
    - exists ((i, None) :: (0, Some (brk s0)) :: c0).
      rewrite Hl, Hlog0. split; [done |]. right.
      unfold s0 in *.
      rewrite init_heap_if_needed_head, init_heap_if_needed_mem,
        init_heap_if_needed_brk in *. done. }
  apply Hfin.
  destruct (negb (prev =? NULL)); [| by apply Hnew].
  destruct (_ =? brk s0); [| by apply Hnew].
  destruct (sbrk_cases s1 (to_intptr (sub64 (round_up n) (size_of s1 prev))))
    as [Hs | (s3 & b & Hs & Hlog3 & _)]; rewrite Hs in H.
  - change (SBRK_FAILED =? SBRK_FAILED) with true in H.
    cbv iota in H. simplify_eq. right. split; [by eexists | done].
  - left. right. destruct (b =? SBRK_FAILED); simplify_eq.
    + eauto.
    + rewrite remove_from_list_sbrk_log. simpl. eauto.
Qed.

(** C9.  When a call of sbrk fails during allocate, allocate returns NULL,
    and the free list, every header and the break are what they were before
    the call: head, memory and break of the final state equal those of the
    initial one.  The call does return: sbrk is reached only after the scan
    has come to the end of the free list without a fit, and from there
    nothing loops. *)
Theorem out_of_memory_leaves_heap_unchanged
    (fuel : nat) (s : state) (n : Z) :
  (forall s' p,
     internal_myalloc fuel s n = Ret (s', p) ->
     sbrk_failed_during s s' ->
     p = NULL /\ head s' = head s /\ mem s' = mem s /\ brk s' = brk s) /\
  (forall l,
     free_list s l ->
     Forall (fun a => size_of s a < round_up n) l ->
     (length l <= fuel)%nat ->
     exists s' p, internal_myalloc fuel s n = Ret (s', p)).
Proof.
  split.
  - intros s' p Hrun (calls & i & Hlog & Hin).
    destruct (internal_myalloc_log _ _ _ _ _ Hrun)
      as (calls' & Hlog' & Hcases).
    assert (calls' = calls) as ->.
    { rewrite Hlog in Hlog'. by apply app_inv_tail in Hlog'. }
    destruct Hcases as [Hnone | Hsame]; [| done].
    by destruct (Hnone i).
  - intros l. apply internal_myalloc_returns_after_scan.
Qed.

(** ** A difference that does not fit intptr_t *)

(** C8 on the code.  The branch that grows the last free block passes
    size - prev->size to sbrk without a test against INTPTR_MAX; the two
    branches that carve a new block have one.  When the scan finds no
    fitting node, the last node b ends at the break, and the difference
    r - b.size exceeds INTPTR_MAX, the argument that sbrk receives is the
    negative number r - b.size - 2^64.  When the kernel accepts the lower
    break, the break falls by 2^64 - (r - b.size) bytes, b is marked
    allocated and its payload is returned.  On a well-linked list b.size is
    r afterwards and b has left the free list. *)
Theorem tail_growth_lowers_the_break
    (fuel : nat) (s : state) (n : Z) (l0 : list Z) (b : Z) :
  let r := round_up n in
  0 < n ->
  free_list s (l0 ++ [b]) ->
  Forall (fun a => size_of s a < r) (l0 ++ [b]) ->
  (length (l0 ++ [b]) <= fuel)%nat ->
  add64 (add64 b (size_of s b)) FBLOCKSIZE = brk s ->
  0 <= size_of s b ->
  INTPTR_MAX < r - size_of s b ->
  brk s <= brk_max s -> brk_max s <= INTPTR_MAX ->
  brk_min s <= brk s - (2 ^ 64 - (r - size_of s b)) ->
  exists s',
    internal_myalloc fuel s n = Ret (s', PAYLOAD b) /\
    to_intptr (sub64 r (size_of s b)) = - (2 ^ 64 - (r - size_of s b)) /\
    sbrk_log s' = (- (2 ^ 64 - (r - size_of s b)), Some (brk s))
                    :: (0, Some (brk s))
                    :: sbrk_log (init_heap_if_needed s) /\
    brk s' = brk s - (2 ^ 64 - (r - size_of s b)) /\
    brk s' < brk s /\
    is_allocated s' b = 1 /\
    (well_separated (l0 ++ [b]) ->
     (forall p, last l0 = Some p -> prev_of s b = p) ->
     size_of s' b = r /\ free_list s' l0).
Proof.
  intros r Hn Hfl Hsmall Hfuel Hend Hsb Hbig Hbrk Hmax Hgrant.
  pose proof (round_up_range n) as Hr. fold r in Hr.
  destruct (walk_last_next _ _ _ _ Hfl) as [Hb Hnext].
  set (s0 := init_heap_if_needed s).
  assert (Hmem0 : mem s0 = mem s) by apply init_heap_if_needed_mem.
  assert (Hload0 : forall a, load s0 a = load s a)
    by apply load_init_heap_if_needed.
  assert (Hhead0 : head s0 = head s) by apply init_heap_if_needed_head.
  assert (Hbrk0 : brk s0 = brk s) by apply init_heap_if_needed_brk.
  destruct (init_heap_if_needed_limits s) as [Hmin0 Hmax0].
  fold s0 in Hmin0, Hmax0.
  assert (Hbrk_pos : 0 <= brk s).
  { rewrite <- Hend. apply wrap_range. }
  unfold internal_myalloc. fold r; fold s0.
  assert ((n <=? 0) = false) as -> by (apply Z.leb_gt; done).
  rewrite (alloc_loop_no_fit fuel fuel s0 r (l0 ++ [b])).
  2:{ unfold free_list. rewrite Hhead0. by apply (walk_same_mem s). }
  2:{ eapply Forall_impl; [exact Hsmall |]. intros a Ha; simpl.
      unfold size_of. by rewrite Hload0. }
  2:{ done. }
  rewrite last_snoc. change (default NULL (Some b)) with b.
  rewrite sbrk_zero.
  eqb_false b NULL.
  cbn [negb].
  set (s1 := log_sbrk s0 0 (Some (brk s0))).
  assert (Hsz1 : size_of s1 b = size_of s b) by apply Hload0.
  rewrite Hsz1, Hend, Hbrk0, Z.eqb_refl.
  assert (Hinc : to_intptr (sub64 r (size_of s b))
                 = - (2 ^ 64 - (r - size_of s b))).
  { unfold sub64. rewrite wrap_small by lia.
    unfold to_intptr.
    assert ((r - size_of s b <=? INTPTR_MAX) = false) as ->
      by (apply Z.leb_gt; lia). lia. }
  rewrite Hinc. unfold sbrk.
  assert ((- (2 ^ 64 - (r - size_of s b)) =? 0) = false) as ->
    by (apply Z.eqb_neq; lia).
  change (brk_min s1) with (brk_min s0). change (brk_max s1) with (brk_max s0).
  change (brk s1) with (brk s0).
  rewrite Hmin0, Hmax0, Hbrk0.
  assert (((brk_min s <=? brk s + - (2 ^ 64 - (r - size_of s b)))
           && (brk s + - (2 ^ 64 - (r - size_of s b)) <=? brk_max s)) = true)
    as ->.
  { apply andb_true_intro. split; apply Z.leb_le; lia. }
  assert ((brk s =? SBRK_FAILED) = false) as ->.
  { apply Z.eqb_neq. unfold SBRK_FAILED, wrap, INTPTR_MAX in *.
    change ((-1) mod 2 ^ 64) with (2 ^ 64 - 1). lia. }
  eexists. split; [reflexivity |].
  set (s2 := set_brk _ _).
  assert (Hload2 : forall a, load s2 a = load s a) by apply Hload0.
  assert (Hprev2 : prev_of (set_size s2 b r) b = prev_of s b).
  { unfold prev_of, set_size. rewrite load_store_ne by lia. apply Hload2. }
  assert (Hnext2 : next_of (set_size s2 b r) b = NULL).
  { unfold next_of, set_size. rewrite load_store_ne by lia.
    rewrite Hload2. exact Hnext. }
  assert (Hhead2 : head (set_size s2 b r) <> NULL).
  { change (head (set_size s2 b r)) with (head s0). rewrite Hhead0.
    apply (walk_start _ _ _ _ Hfl). by destruct l0. }
  split_and!.
  - reflexivity.
  - rewrite remove_from_list_sbrk_log.
    change (sbrk_log (set_size s2 b r))
      with ((- (2 ^ 64 - (r - size_of s b)), Some (brk s))
              :: (0, Some (brk s0)) :: sbrk_log s0).
    by rewrite Hbrk0.
  - rewrite remove_from_list_brk. cbn [brk set_size store set_mem].
    unfold s2. cbn [brk set_brk]. lia.
  - rewrite remove_from_list_brk. cbn [brk set_size store set_mem].
    unfold s2. cbn [brk set_brk]. lia.
  - by apply remove_from_list_marks_allocated.
  - intros Hsep Hprev.
    assert (Hfl2 : free_list (set_size s2 b r) (l0 ++ [b])).
    { unfold free_list, set_size. change (head (store s2 b r)) with (head s0).
      rewrite Hhead0. apply walk_store_other.
      - by apply (walk_same_mem s).
      - eapply Forall_impl;
          [apply (next_fields_apart (l0 ++ [b]) b 0); [| lia | intros; lia]
          | intros y Hy; simpl in *; lia].
        intros y Hy Hne. apply Hsep; [done | | done].
        apply elem_of_app. right. left. }
    destruct (remove_from_list_unlinks (set_size s2 b r) l0 [] b Hfl2 Hsep)
      as (Hfl' & _ & Hsize' & _).
    { intros p Hp. rewrite Hprev2. by apply Hprev. }
    rewrite app_nil_r in Hfl'. split; [| exact Hfl'].
    rewrite Hsize'. unfold size_of, set_size. apply load_store_eq.
Qed.

(** ** The boundary sizes 0 and SIZE_MAX *)

(** allocate(0) fails at once: nothing is read or written and sbrk is not
    called. *)
Lemma myalloc_zero (fuel : nat) (s : state) : myalloc fuel s 0 = Ret (s, NULL).
Proof. reflexivity. Qed.

(** C4 on the code.  The rounding of SIZE_MAX wraps around to 0, the test
    of size + FBLOCKSIZE against INTPTR_MAX then sees 32, and on an empty
    free list with room for 32 bytes allocate(SIZE_MAX) calls sbrk(32) and
    returns the payload of a new block of size 0. *)
Theorem myalloc_SIZE_MAX_extends_the_heap (fuel : nat) (s : state) :
  head s = NULL ->
  0 <= brk s -> brk s + 32 <= brk_max s -> brk_min s <= brk s ->
  brk_max s < 2 ^ 64 - 32  ->
  round_up SIZE_MAX = 0 /\
  exists s',
    myalloc fuel s SIZE_MAX = Ret (s', brk s + FBLOCKSIZE) /\
    brk s + FBLOCKSIZE <> NULL /\
    sbrk_log s' = (32, Some (brk s)) :: (0, Some (brk s))
                    :: sbrk_log (init_heap_if_needed s) /\
    brk s' = brk s + 32 /\
    size_of s' (brk s) = 0.
Proof.
  intros Hhead Hbrk Hroom Hmin Hmax.
  split; [reflexivity |].
  unfold myalloc, internal_myalloc.
  change (SIZE_MAX <=? 0) with false. cbv iota.
  change (round_up SIZE_MAX) with 0.
  rewrite init_heap_if_needed_head, Hhead, alloc_loop_empty, sbrk_zero.
  change (NULL =? NULL) with true. cbn [negb].
  unfold new_block.
  change (add64 0 FBLOCKSIZE) with 32.
  change (32 >? INTPTR_MAX) with false. cbv iota.
  change (to_intptr 32) with 32.
  unfold sbrk. change (32 =? 0) with false. cbv iota.
  destruct (init_heap_if_needed_limits s) as [Hmin0 Hmax0].
  cbn [brk brk_min brk_max log_sbrk].
  rewrite Hmin0, Hmax0, init_heap_if_needed_brk.
  assert (((brk_min s <=? brk s + 32) && (brk s + 32 <=? brk_max s)) = true)
    as -> by (apply andb_true_intro; split; apply Z.leb_le; lia).
  assert ((brk s =? SBRK_FAILED) = false) as ->.
  { apply Z.eqb_neq. change SBRK_FAILED with (2 ^ 64 - 1). lia. }
  unfold PAYLOAD, add64, FBLOCKSIZE. rewrite wrap_small by lia.
  eexists. split; [reflexivity |].
  split_and!.
  - unfold NULL. lia.
  - reflexivity.
  - reflexivity.
  - unfold size_of, set_is_allocated, set_size.
    rewrite load_store_ne by lia. apply load_store_eq.
Qed.

(** ** Release *)

(** free on an empty free list. *)
Lemma insert_to_list_empty (fuel : nat) (s : state) (new : Z) :
  head s = NULL ->
  insert_to_list fuel s new =
  Ret (set_is_allocated
         (set_head (set_prev (set_next s new NULL) new NULL) new) new 0).
Proof.
  intros Hhead. unfold insert_to_list.
  change (head (set_prev (set_next s new NULL) new NULL)) with (head s).
  rewrite Hhead. change (NULL =? NULL) with true. cbv iota. cbn [bind].
  unfold coalesce, next_of, prev_of.
  rewrite !load_set_head. unfold set_prev, set_next.
  rewrite load_store_eq, load_store_ne, load_store_eq by lia.
  change (NULL =? NULL) with true. reflexivity.
Qed.

(** C1 on the code.  myfree takes its argument p itself for the header:
    on an empty free list the flag that decides between exit and insertion
    is the one at p, the block that becomes the head of the free list is at
    p and not at HEADER p, and no cell below p, the header that precedes
    the payload included, is written. *)
Theorem myfree_takes_ptr_for_the_header (fuel : nat) (s : state) (p : Z) :
  FBLOCKSIZE <= p < 2 ^ 64 ->
  head s = NULL ->
  (is_allocated s p = 0 -> myfree fuel s p = Exit 1 double_free_message) /\
  (is_allocated s p <> 0 ->
   exists s',
     myfree fuel s p = Ret s' /\
     head s' = p /\ head s' <> HEADER p /\
     is_allocated s' p = 0 /\
     forall a, a < p -> load s' a = load s a).
Proof.
  intros Hp Hhead. unfold myfree, FBLOCKSIZE in *.
  assert ((p =? NULL) = false) as -> by (apply Z.eqb_neq; unfold NULL; lia).
  split; intros Hflag.
  - by rewrite Hflag.
  - eqb_false (is_allocated s p) 0.
    rewrite insert_to_list_empty by done.
    eexists. split; [reflexivity |]. split_and!.
    + reflexivity.
    + cbn [head set_head set_is_allocated store set_mem].
      unfold HEADER, sub64, FBLOCKSIZE. rewrite wrap_small by lia. lia.
    + apply is_allocated_set_is_allocated; lia.
    + intros a Ha. unfold set_is_allocated, set_prev, set_next.
      rewrite load_store_ne, load_set_head, !load_store_ne by lia.
      reflexivity.
Qed.

(** C5 on the code.  The first allocation of a process returns p = 4128;
    its block, at HEADER p = 4096, is marked allocated.  myfree(p) reads the
    flag in the payload, finds 0 there, and terminates the process with the
    double-free message. *)
Theorem myfree_exits_on_allocated_block :
  exists s p,
    myalloc 8 (fresh 4096 4096) 32 = Ret (s, p) /\
    p = 4128 /\ HEADER p = 4096 /\
    is_allocated s (HEADER p) = 1 /\
    myfree 8 s p = Exit 1 double_free_message.
Proof.
  eexists _, _. split; [vm_compute; reflexivity |].
  split_and!; reflexivity.
Qed.

(** ** The round trip *)

(** An allocation from an empty free list that succeeds puts a new block
    at the break. *)
Lemma myalloc_empty_list (fuel : nat) (s s1 : state) (n p1 : Z) :
  0 < n -> head s = NULL ->
  myalloc fuel s n = Ret (s1, p1) -> p1 <> NULL ->
  p1 = PAYLOAD (brk s) /\ head s1 = NULL /\
  brk s1 = brk s + add64 (round_up n) FBLOCKSIZE /\
  add64 (round_up n) FBLOCKSIZE <= INTPTR_MAX.
Proof.
  intros Hn Hhead Hrun Hp1. unfold myalloc, internal_myalloc in Hrun.
  assert ((n <=? 0) = false) as Hn' by (apply Z.leb_gt; done).
  rewrite Hn', init_heap_if_needed_head, Hhead, alloc_loop_empty, sbrk_zero
    in Hrun.
  change (NULL =? NULL) with true in Hrun. cbn [negb] in Hrun.
  unfold new_block in Hrun.
  destruct (add64 (round_up n) FBLOCKSIZE >? INTPTR_MAX) eqn:Hcheck;
    [simplify_eq |].
  assert (Hle : add64 (round_up n) FBLOCKSIZE <= INTPTR_MAX) by lia.
  unfold to_intptr in Hrun.
  assert ((add64 (round_up n) FBLOCKSIZE <=? INTPTR_MAX) = true) as Hle'
    by (by apply Z.leb_le).
  rewrite Hle' in Hrun. unfold sbrk in Hrun.
  destruct (add64 (round_up n) FBLOCKSIZE =? 0) eqn:Hzero.
  - apply Z.eqb_eq in Hzero. rewrite Hzero.
    destruct (_ =? SBRK_FAILED); simplify_eq.
    cbn [head brk set_brk log_sbrk set_is_allocated set_size store set_mem].
    rewrite init_heap_if_needed_head, init_heap_if_needed_brk.
    split_and!; [done | done | lia | lia].
  - destruct (_ && _).
    + destruct (_ =? SBRK_FAILED); simplify_eq.
      cbn [head brk set_brk log_sbrk set_is_allocated set_size store set_mem].
      rewrite init_heap_if_needed_head, init_heap_if_needed_brk.
      split_and!; done.
    + change (SBRK_FAILED =? SBRK_FAILED) with true in Hrun.
      cbv iota in Hrun. simplify_eq.
Qed.

(** free on an empty free list makes its argument the only node. *)
Lemma myfree_empty_list (fuel : nat) (s s2 : state) (p : Z) :
  head s = NULL -> p <> NULL ->
  myfree fuel s p = Ret s2 ->
  head s2 = p /\ next_of s2 p = NULL /\ brk s2 = brk s.
Proof.
  intros Hhead Hp Hrun. unfold myfree in Hrun.
  assert ((p =? NULL) = false) as Hp' by (by apply Z.eqb_neq).
  rewrite Hp' in Hrun.
  destruct (is_allocated s p =? 0); [discriminate |].
  rewrite insert_to_list_empty in Hrun by done. simplify_eq.
  split_and!; [reflexivity | | reflexivity].
  unfold next_of, set_is_allocated, set_prev, set_next.
  rewrite load_store_ne, load_set_head, load_store_ne by lia.
  apply load_store_eq.
Qed.

(** An allocation from a free list of one node returns the payload of that
    node or of a new block at the break, or fails. *)
Lemma myalloc_single_node (fuel : nat) (s s3 : state) (n p p2 : Z) :
  0 < n -> head s = p -> p <> NULL -> next_of s p = NULL ->
  myalloc fuel s n = Ret (s3, p2) ->
  p2 = NULL \/ p2 = PAYLOAD p \/
  (p2 = PAYLOAD (brk s) /\ add64 (round_up n) FBLOCKSIZE <= INTPTR_MAX).
Proof.
  intros Hn Hhead Hp Hnext Hrun. unfold myalloc, internal_myalloc in Hrun.
  assert ((n <=? 0) = false) as Hn' by (apply Z.leb_gt; done).
  assert ((p =? NULL) = false) as Hp' by (by apply Z.eqb_neq).
  rewrite Hn', init_heap_if_needed_head, Hhead in Hrun.
  set (s0 := init_heap_if_needed s) in *.
  assert (Hnext0 : next_of s0 p = NULL).
  { unfold next_of, s0. by rewrite load_init_heap_if_needed. }
  assert (Hnew : forall s1 q, brk s1 = brk s ->
            new_block s1 (round_up n) = Ret (s3, q) ->
            q = NULL \/ q = PAYLOAD p \/
            (q = PAYLOAD (brk s) /\
             add64 (round_up n) FBLOCKSIZE <= INTPTR_MAX)).
  { intros s1 q Hbrk1. unfold new_block, sbrk.
    destruct (add64 (round_up n) FBLOCKSIZE >? INTPTR_MAX) eqn:Hcheck;
      [intros; simplify_eq; by left |].
    intros Hq. repeat case_match; simplify_eq; eauto.
    all: right; right; rewrite Hbrk1; split; [done | lia]. }
  destruct fuel as [| fuel]; cbn [alloc_loop] in Hrun; rewrite Hp' in Hrun;
    [discriminate |].
  destruct ((round_up n <=? size_of s0 p)
            && (size_of s0 p <? add64 (round_up n) MIN_SPLIT_REMAINDER)).
  { simplify_eq. eauto. }
  destruct (round_up n <=? size_of s0 p).
  { rewrite split_block_returns_block in Hrun. unfold bind in Hrun.
    repeat case_match; simplify_eq. eauto. }
  rewrite Hnext0 in Hrun.
  assert (alloc_loop (S fuel) fuel s0 (round_up n) NULL p = inr p) as Hloop
    by (by destruct fuel).
  rewrite Hloop, sbrk_zero, Hp' in Hrun. cbn [negb] in Hrun.
  destruct (_ =? brk s0).
  - unfold sbrk in Hrun. repeat case_match; simplify_eq; eauto.
  - eapply Hnew; [| exact Hrun]. apply init_heap_if_needed_brk.
Qed.

(** C2 on the code.  After an allocation from an empty free list, whatever
    the client stores in the block, a free of the returned pointer followed
    by an allocation of the same size never returns the block again: the
    header of the second allocation is not the header of the first. *)
Theorem round_trip_returns_another_block
    (fuel : nat) (s s1 s2 s3 : state) (n p1 p2 : Z) (m : gmap Z Z) :
  0 < n <= SIZE_MAX - 63 ->
  head s = NULL ->
  myalloc fuel s n = Ret (s1, p1) -> p1 <> NULL ->
  myfree fuel (set_mem s1 m) p1 = Ret s2 ->
  myalloc fuel s2 n = Ret (s3, p2) -> p2 <> NULL ->
  HEADER p2 <> HEADER p1.
Proof.
  intros Hn Hhead Hrun1 Hp1 Hfree Hrun2 Hp2.
  destruct (myalloc_empty_list _ _ _ _ _ (proj1 Hn) Hhead Hrun1 Hp1)
    as (-> & Hhead1 & Hbrk1 & Hle).
  destruct (myfree_empty_list _ (set_mem s1 m) _ _ Hhead1 Hp1 Hfree)
    as (Hhead2 & Hnext2 & Hbrk2).
  change (brk (set_mem s1 m)) with (brk s1) in Hbrk2.
  pose proof (round_up_bounds n ltac:(unfold SIZE_MAX in *; lia)) as Hr.
  assert (Hsum : add64 (round_up n) FBLOCKSIZE = round_up n + 32).
  { unfold add64, FBLOCKSIZE. apply wrap_small.
    unfold SIZE_MAX in *. lia. }
  assert (Hneq : p2 <> PAYLOAD (brk s)).
  { destruct (myalloc_single_node _ _ _ _ _ _ (proj1 Hn) Hhead2 Hp1 Hnext2
                Hrun2) as [? | [-> | [-> _]]]; [done | |].
    - unfold PAYLOAD, add64 at 1. intros Heq.
      pose proof (wrap_range (brk s + FBLOCKSIZE)).
      rewrite <- (wrap_small (add64 (brk s) FBLOCKSIZE)) in Heq at 2
        by (unfold add64; lia).
      apply wrap_eq_diff in Heq; [done | unfold FBLOCKSIZE; lia].
    - rewrite Hbrk2, Hbrk1, Hsum. unfold PAYLOAD, add64. intros Heq.
      apply wrap_eq_diff in Heq; [done |].
      unfold FBLOCKSIZE, SIZE_MAX in *. lia. }
  unfold HEADER, sub64. intros Heq. apply Hneq.
  assert (Hrange2 : 0 <= p2 < 2 ^ 64).
  { destruct (myalloc_single_node _ _ _ _ _ _ (proj1 Hn) Hhead2 Hp1 Hnext2
                Hrun2) as [? | [-> | [-> _]]]; [done | |];
      apply wrap_range. }
  pose proof (wrap_range (brk s + FBLOCKSIZE)) as Hrange1.
  fold (add64 (brk s) FBLOCKSIZE) in Hrange1. fold (PAYLOAD (brk s)) in Hrange1.
  unfold wrap in Heq.
  pose proof (Z.div_mod (p2 - FBLOCKSIZE) (2 ^ 64) ltac:(lia)).
  pose proof (Z.div_mod (PAYLOAD (brk s) - FBLOCKSIZE) (2 ^ 64) ltac:(lia)).
  lia.
Qed.

(** ** The invariants on the scenarios *)

Lemma reachable_head (s : state) : head s <> NULL -> reachable s (head s).
Proof. intros Hhead. split; [done |]. exists []. constructor. Qed.

Lemma self_loop_not_sorted (s : state) :
  head s <> NULL -> next_of s (head s) = head s ->
  ~ sorted_without_adjacent_blocks s.
Proof.
  intros Hhead Hloop [Hsorted _].
  specialize (Hsorted (head s) (reachable_head s Hhead)).
  rewrite Hloop in Hsorted. specialize (Hsorted Hhead). lia.
Qed.

Lemma stale_back_link_not_consistent (s : state) :
  head s <> NULL -> next_of s (head s) <> NULL ->
  prev_of s (next_of s (head s)) <> head s ->
  ~ links_consistent s.
Proof.
  intros Hhead Hnext Hprev [_ Hlinks].
  apply Hprev, Hlinks; [by apply reachable_head | done].
Qed.

(** C3 on the code.  In the scenario split_onto_free_block the last
    allocation splits the block at 4128, which the client's 128 made look
    128 bytes long, and carves the leftover at 4192, a node that is already
    in the free list: the node becomes its own successor, and the free list
    is not strictly increasing. *)
Theorem free_list_cycle_after_split :
  split_onto_free_block = Ret (after_split_onto_free_block, 4160) /\
  head after_split_onto_free_block = 4192 /\
  next_of after_split_onto_free_block 4192 = 4192 /\
  ~ sorted_without_adjacent_blocks after_split_onto_free_block.
Proof.
  split_and!; [vm_compute; reflexivity | reflexivity | reflexivity |].
  apply self_loop_not_sorted; [discriminate | reflexivity].
Qed.

(** C10 on the code.  In the scenario merge_both_sides the last free
    merges the block at 4192 with its successor 4256 and then into its
    predecessor 4128.  The list is then 4128 -> 4384, but the back link of
    4384 still points to 4192. *)
Theorem stale_back_link_after_double_merge :
  merge_both_sides
    = Ret (after_merge_both_sides, (4128, 4192, 4256, 4320, 4384)) /\
  head after_merge_both_sides = 4128 /\
  next_of after_merge_both_sides 4128 = 4384 /\
  prev_of after_merge_both_sides 4384 = 4192 /\
  ~ links_consistent after_merge_both_sides.
Proof.
  split_and!; [vm_compute; reflexivity | reflexivity .. |].
  apply stale_back_link_not_consistent; discriminate.
Qed.

(** ** Rounding and the header macros *)

Lemma wrap_add_l (x y : Z) : wrap (wrap x + y) = wrap (x + y).
Proof. unfold wrap. apply Zplus_mod_idemp_l. Qed.

Lemma wrap_add_r (x y : Z) : wrap (x + wrap y) = wrap (x + y).
Proof. unfold wrap. apply Zplus_mod_idemp_r. Qed.

Lemma wrap_sub_l (x y : Z) : wrap (wrap x - y) = wrap (x - y).
Proof. unfold wrap. apply Zminus_mod_idemp_l. Qed.

Lemma add64_comm (a b : Z) : add64 a b = add64 b a.
Proof. unfold add64. f_equal. lia. Qed.

Lemma add64_assoc (a b c : Z) : add64 a (add64 b c) = add64 (add64 a b) c.
Proof. unfold add64. rewrite wrap_add_r, wrap_add_l. f_equal. lia. Qed.

(** A block that has absorbed its successor ends where the successor
    ended. *)
Lemma block_end_merged (b sb sc : Z) :
  add64 (add64 b FBLOCKSIZE) (add64 sb (add64 sc FBLOCKSIZE)) =
  add64 (add64 (add64 (add64 b FBLOCKSIZE) sb) FBLOCKSIZE) sc.
Proof. by rewrite (add64_comm sc), !add64_assoc. Qed.

(** X1.  The rounding (size + ALIGNMENT_MASK) & ~ALIGNMENT_MASK of
    internal_myalloc.  For a request of at most SIZE_MAX - 31 bytes the
    result is the least multiple of ALIGNMENT that is not below the
    request: a multiple of 32 in [n, n + 32).  For a larger request the
    addition wraps around and the result is 0. *)
Theorem round_up_is_the_next_multiple (n : Z) :
  (0 <= n <= SIZE_MAX - 31 ->
   round_up n mod ALIGNMENT = 0 /\ n <= round_up n < n + ALIGNMENT) /\
  (SIZE_MAX - 31 < n <= SIZE_MAX -> round_up n = 0).
Proof.
  split.
  - intros Hn. split; [apply round_up_aligned | by apply round_up_bounds].
  - unfold SIZE_MAX. intros Hn. rewrite round_up_eq.
    assert (wrap (n + 31) = n + 31 - 2 ^ 64) as ->.
    { unfold wrap. symmetry. apply (Z.mod_unique_pos _ _ 1); lia. }
    rewrite Z.mod_small by lia. lia.
Qed.

(** X2.  HEADER and PAYLOAD of myalloc.h are inverse to each other on
    64-bit addresses, wrap-around included: the header of the payload of b
    is b, and the payload of the header of b is b. *)
Theorem header_and_payload_are_inverse (b : Z) :
  0 <= b < 2 ^ 64 ->
  HEADER (PAYLOAD b) = b /\ PAYLOAD (HEADER b) = b.
Proof.
  intros Hb. unfold HEADER, PAYLOAD, sub64, add64. split.
  - rewrite wrap_sub_l. rewrite <- (wrap_small b) at 2 by done. f_equal. lia.
  - rewrite wrap_add_l. rewrite <- (wrap_small b) at 2 by done. f_equal. lia.
Qed.

(** ** Lists linked in both directions *)

Lemma headers_in_order_cons (x : Z) (l : list Z) :
  headers_in_order (x :: l) <->
  Forall (fun y => x + 32 <= y) l /\ headers_in_order l.
Proof.
  unfold headers_in_order, FBLOCKSIZE. split.
  - intros H. apply StronglySorted_inv in H as [H1 H2]. done.
  - intros [H1 H2]. by constructor.
Qed.

Lemma headers_in_order_app (l1 l2 : list Z) :
  headers_in_order (l1 ++ l2) <->
  headers_in_order l1 /\ headers_in_order l2 /\
  Forall (fun x => Forall (fun y => x + 32 <= y) l2) l1.
Proof.
  induction l1 as [| a l1 IH]; simpl.
  - split; [intros H; split_and!; [constructor | done | constructor] |].
    by intros (_ & H & _).
  - rewrite !headers_in_order_cons, IH, Forall_app, Forall_cons. tauto.
Qed.

Lemma headers_in_order_snoc (l : list Z) (x : Z) :
  headers_in_order (l ++ [x]) <->
  headers_in_order l /\ Forall (fun y => y + 32 <= x) l.
Proof.
  rewrite headers_in_order_app. split.
  - intros (H1 & _ & H3). split; [done |].
    eapply Forall_impl; [exact H3 |]. simpl. intros y Hy.
    by rewrite Forall_singleton in Hy.
  - intros (H1 & H2). split_and!; [done | repeat constructor |].
    eapply Forall_impl; [exact H2 |]. simpl. intros y Hy.
    by rewrite Forall_singleton.
Qed.

Lemma headers_in_order_well_separated (l : list Z) :
  headers_in_order l -> well_separated l.
Proof.
  induction l as [| a l IH]; intros H x y Hx Hy Hne.
  - inversion Hx.
  - apply headers_in_order_cons in H as [H1 H2].
    rewrite Forall_forall in H1. unfold separated, FBLOCKSIZE.
    apply elem_of_cons in Hx as [-> | Hx]; apply elem_of_cons in Hy as [-> | Hy].
    + done.
    + left. by apply H1.
    + right. by apply H1.
    + by apply IH.
Qed.

Lemma headers_in_order_around (l1 l2 : list Z) (x : Z) :
  headers_in_order (l1 ++ x :: l2) ->
  Forall (fun y => y + 32 <= x) l1 /\ Forall (fun y => x + 32 <= y) l2.
Proof.
  rewrite headers_in_order_app, headers_in_order_cons.
  intros (_ & [H2 _] & H12). split; [| done].
  eapply Forall_impl; [exact H12 |]. simpl. intros y Hy.
  by apply Forall_cons in Hy as [Hy _].
Qed.

Lemma headers_in_order_snoc_cons (l1 l2 : list Z) (p x : Z) :
  headers_in_order ((l1 ++ [p]) ++ x :: l2) ->
  Forall (fun y => y + 32 <= p) l1 /\ p + 32 <= x.
Proof.
  intros H. pose proof (headers_in_order_around _ _ _ H) as [Hb _].
  apply Forall_app in Hb as [_ Hp]. rewrite Forall_singleton in Hp.
  apply headers_in_order_app in H as (H & _).
  apply headers_in_order_snoc in H as [_ H]. done.
Qed.

Lemma headers_in_order_cons_cons (l1 l2 : list Z) (x c : Z) :
  headers_in_order (l1 ++ x :: c :: l2) ->
  x + 32 <= c /\ Forall (fun y => c + 32 <= y) l2.
Proof.
  intros H. apply headers_in_order_app in H as (_ & H & _).
  apply headers_in_order_cons in H as [Hx H].
  apply Forall_cons in Hx as [Hx _].
  apply headers_in_order_cons in H as [H _]. done.
Qed.

Lemma headers_in_order_last (l : list Z) (p : Z) :
  headers_in_order l -> last l = Some p ->
  Forall (fun x => x = p \/ x + 32 <= p) l.
Proof.
  intros H Hlast. apply last_Some in Hlast as [l' ->].
  apply headers_in_order_snoc in H as [_ H].
  apply Forall_app. split; [| apply Forall_singleton; by left].
  eapply Forall_impl; [exact H |]. simpl. intros; by right.
Qed.

Lemma headers_in_order_hd (l : list Z) (c : Z) :
  headers_in_order l -> hd_error l = Some c ->
  Forall (fun x => x = c \/ c + 32 <= x) l.
Proof.
  intros H Hhd. destruct l as [| c' l]; simplify_eq/=.
  apply headers_in_order_cons in H as [H _].
  apply Forall_cons. split; [by left |].
  eapply Forall_impl; [exact H |]. simpl. intros; by right.
Qed.

(** The order of the headers, read at the nodes around new. *)
Lemma headers_in_order_facts (l1 l2 : list Z) (new : Z) :
  headers_in_order (l1 ++ new :: l2) ->
  Forall (fun x => x + 32 <= new /\
                   forall p, last l1 = Some p -> x = p \/ x + 32 <= p) l1 /\
  Forall (fun x => new + 32 <= x /\
                   forall c, hd_error l2 = Some c -> x = c \/ c + 32 <= x) l2 /\
  (forall p, last l1 = Some p -> p + 32 <= new) /\
  (forall c, hd_error l2 = Some c -> new + 32 <= c).
Proof.
  intros H. destruct (headers_in_order_around _ _ _ H) as [Hb Ha].
  pose proof H as H'.
  apply headers_in_order_app in H' as (H1 & H2 & _).
  apply headers_in_order_cons in H2 as [_ H2].
  rewrite !Forall_forall in *. split_and!.
  - intros x Hx. split; [by apply Hb |]. intros p Hp.
    pose proof (headers_in_order_last _ _ H1 Hp) as Hl.
    rewrite Forall_forall in Hl. by apply Hl.
  - intros x Hx. split; [by apply Ha |]. intros c Hc.
    pose proof (headers_in_order_hd _ _ H2 Hc) as Hl.
    rewrite Forall_forall in Hl. by apply Hl.
  - intros p Hp. apply Hb. by apply last_Some_elem_of.
  - intros c Hc. apply Ha. destruct l2; simplify_eq/=. left.
Qed.

Lemma headers_in_order_replace (l1 l2 : list Z) (c new : Z) :
  headers_in_order (l1 ++ c :: l2) -> c <= new ->
  Forall (fun y => new + 32 <= y) l2 ->
  headers_in_order (l1 ++ new :: l2).
Proof.
  rewrite !headers_in_order_app, !headers_in_order_cons.
  intros (H1 & [Hc H2] & H12) Hle Hnew. split_and!; [done .. |].
  eapply Forall_impl; [exact H12 |]. simpl. intros x Hx.
  apply Forall_cons in Hx as [Hxc Hx]. apply Forall_cons. split; [lia | done].
Qed.

Lemma hd_hd_error (l : list Z) (c : Z) :
  hd NULL l <> NULL -> hd_error l = Some (hd NULL l).
Proof. by destruct l. Qed.

Lemma walk_agree (s s' : state) (a b : Z) (l : list Z) :
  walk s a l b ->
  Forall (fun x => next_of s' x = next_of s x) l ->
  walk s' a l b.
Proof.
  intros Hw. induction Hw as [a | a b l Ha Hw IH]; intros Hl.
  - constructor.
  - apply Forall_cons in Hl as [Hx Hl].
    constructor; [done |]. rewrite Hx. by apply IH.
Qed.

(** The walk from a first node: the first node of a path to NULL, or NULL. *)
Lemma walk_hd (s : state) (a : Z) (l : list Z) :
  walk s a l NULL -> a = hd NULL l.
Proof.
  destruct l as [| c l]; intros Hw; simpl.
  - by apply walk_nil_inv in Hw.
  - by apply walk_cons_inv in Hw as (-> & _).
Qed.

Lemma back_linked_agree (s s' : state) (l : list Z) :
  forall p : Z,
    back_linked s p l ->
    Forall (fun x => prev_of s' x = prev_of s x) l ->
    back_linked s' p l.
Proof.
  induction l as [| a l IH]; intros p Hb Hl; [done |].
  apply Forall_cons in Hl as [Hx Hl]. destruct Hb as [Hp Hb].
  split; [congruence | by apply IH].
Qed.

Lemma back_linked_app (s : state) (l1 l2 : list Z) :
  forall p : Z,
    back_linked s p (l1 ++ l2) <->
    back_linked s p l1 /\ back_linked s (default p (last l1)) l2.
Proof.
  induction l1 as [| a l1 IH]; intros p; simpl.
  - tauto.
  - rewrite IH. rewrite last_cons_default. simpl.
    destruct (last l1); simpl; tauto.
Qed.

Lemma well_linked_inv (s : state) (l1 l2 : list Z) (b : Z) :
  well_linked s (l1 ++ b :: l2) ->
  walk s (head s) l1 b /\ b <> NULL /\ walk s (next_of s b) l2 NULL /\
  back_linked s NULL l1 /\ prev_of s b = default NULL (last l1) /\
  back_linked s b l2.
Proof.
  intros [Hfl Hback].
  destruct (walk_app_inv _ _ _ _ _ Hfl) as (b' & Hw1 & Hw2).
  apply walk_cons_inv in Hw2 as (-> & Hb & Hw2).
  apply back_linked_app in Hback as (Hb1 & Hb2 & Hb3).
  done.
Qed.

Lemma well_linked_intro (s : state) (l1 l2 : list Z) (b : Z) :
  walk s (head s) l1 b -> b <> NULL -> walk s (next_of s b) l2 NULL ->
  back_linked s NULL l1 -> prev_of s b = default NULL (last l1) ->
  back_linked s b l2 ->
  well_linked s (l1 ++ b :: l2).
Proof.
  intros Hw1 Hb Hw2 Hb1 Hb2 Hb3. split.
  - apply walk_app with (b := b); [done | by constructor].
  - apply back_linked_app. done.
Qed.

Lemma well_linked_agree (s s' : state) (l : list Z) :
  well_linked s l -> head s' = head s ->
  Forall (fun x => next_of s' x = next_of s x /\ prev_of s' x = prev_of s x) l ->
  well_linked s' l.
Proof.
  intros [Hfl Hback] Hhead Hl. apply Forall_and in Hl as [Hn Hp]. split.
  - unfold free_list. rewrite Hhead. by apply (walk_agree s).
  - by apply (back_linked_agree s).
Qed.

Lemma well_linked_last_next (s : state) (l1 l2 : list Z) (c p : Z) :
  well_linked s (l1 ++ c :: l2) -> last l1 = Some p -> next_of s p = c.
Proof.
  intros Hwl Hlast. apply last_Some in Hlast as [l1' ->].
  destruct (well_linked_inv _ _ _ _ Hwl) as (Hw1 & _).
  destruct (walk_app_inv _ _ _ _ _ Hw1) as (p' & _ & Hwp).
  apply walk_cons_inv in Hwp as (-> & _ & Hwp). by apply walk_nil_inv in Hwp.
Qed.

Lemma well_linked_hd_prev (s : state) (l1 l2 : list Z) (c n : Z) :
  well_linked s (l1 ++ c :: l2) -> hd_error l2 = Some n -> prev_of s n = c.
Proof.
  intros Hwl Hhd. destruct l2 as [| n' l2']; simplify_eq/=.
  destruct (well_linked_inv _ _ _ _ Hwl) as (_ & _ & _ & _ & _ & [? _]). done.
Qed.

Lemma well_linked_init_heap_if_needed (s : state) (l : list Z) :
  well_linked s l -> well_linked (init_heap_if_needed s) l.
Proof.
  intros Hwl. apply (well_linked_agree s); [done | |].
  - apply init_heap_if_needed_head.
  - apply Forall_forall. intros x _. unfold next_of, prev_of.
    by rewrite !load_init_heap_if_needed.
Qed.

(** ** What the list operations leave alone *)

Lemma same_break_refl (s : state) : same_break s s.
Proof. by repeat split. Qed.

Lemma same_break_trans (s1 s2 s3 : state) :
  same_break s1 s2 -> same_break s2 s3 -> same_break s1 s3.
Proof. unfold same_break. intuition congruence. Qed.

Lemma coalesce_same_break (s : state) (block : Z) :
  same_break s (coalesce s block).1.
Proof. unfold coalesce. repeat case_match; by repeat split. Qed.

Lemma remove_from_list_same_break (s : state) (block : Z) :
  same_break s (remove_from_list s block).
Proof. unfold remove_from_list. repeat case_match; by repeat split. Qed.

Lemma insert_to_list_same_break (fuel : nat) (s s' : state) (new : Z) :
  insert_to_list fuel s new = Ret s' -> same_break s s'.
Proof.
  unfold insert_to_list, bind. intros H.
  repeat case_match; simplify_eq;
    match goal with
    | H : coalesce ?x ?y = _ |- _ =>
        pose proof (coalesce_same_break x y) as Hc; rewrite H in Hc
    end; simpl in *; exact Hc.
Qed.

Lemma split_block_same_break (fuel : nat) (s s' : state) (block size b : Z) :
  split_block fuel s block size = Ret (s', b) -> same_break s s'.
Proof.
  unfold split_block, bind. intros H.
  repeat case_match; simplify_eq; [apply same_break_refl |].
  match goal with
  | H : insert_to_list _ _ _ = _ |- _ =>
      apply insert_to_list_same_break in H; exact H
  end.
Qed.

Lemma alloc_loop_same_break (fuel0 : nat) (size : Z) (s' : state) (p : Z) :
  forall (fuel : nat) (s : state) (curr prev : Z),
    alloc_loop fuel0 fuel s size curr prev = inl (Ret (s', p)) ->
    same_break s s'.
Proof.
  induction fuel as [| fuel IH]; intros s curr prev H; simpl in H.
  - repeat case_match; simplify_eq.
  - repeat case_match; simplify_eq.
    + apply remove_from_list_same_break.
    + unfold bind in *. repeat case_match; simplify_eq.
      match goal with
      | H : split_block _ _ _ _ = _ |- _ =>
          apply split_block_same_break in H;
          eapply same_break_trans; [apply remove_from_list_same_break | exact H]
      end.
    + eauto.
Qed.

Lemma sbrk_same_origin (s : state) (increment : Z) :
  heap_start (sbrk s increment).1 = heap_start s /\
  heap_initialized (sbrk s increment).1 = heap_initialized s /\
  head (sbrk s increment).1 = head s /\
  mem (sbrk s increment).1 = mem s.
Proof. unfold sbrk. repeat case_match; done. Qed.

(** ** The two merges of coalesce *)

(** coalesce is its two conditionals, one after the other. *)
Lemma coalesce_eq (s : state) (block : Z) :
  coalesce s block =
  merge_prev (merge_next s block (next_of s block)) block
             (next_of s block) (prev_of s block).
Proof. reflexivity. Qed.

Lemma merge_next_none (s : state) (b c : Z) :
  c = NULL \/ block_end s b <> c -> merge_next s b c = s.
Proof.
  intros Hc. unfold merge_next.
  assert (negb (c =? NULL) && (block_end s b =? c) = false) as ->; [| done].
  destruct Hc as [-> | Hc]; [done |].
  apply andb_false_iff. right. by apply Z.eqb_neq.
Qed.

Lemma merge_prev_none (s : state) (b nb p : Z) :
  p = NULL \/ block_end s p <> b -> merge_prev s b nb p = (s, b).
Proof.
  intros Hp. unfold merge_prev.
  assert (negb (p =? NULL) && (block_end s p =? b) = false) as ->; [| done].
  destruct Hp as [-> | Hp]; [done |].
  apply andb_false_iff. right. by apply Z.eqb_neq.
Qed.

(** What the forward merge writes: the next and size fields of block and
    the prev field of the node after the absorbed one. *)
Lemma merge_next_absorbs (s : state) (b c : Z) :
  c <> NULL -> block_end s b = c -> b + 32 <= c ->
  (next_of s c <> NULL -> c + 32 <= next_of s c) ->
  next_of (merge_next s b c) b = next_of s c /\
  size_of (merge_next s b c) b
    = add64 (size_of s b) (add64 (size_of s c) FBLOCKSIZE) /\
  (next_of s c <> NULL -> prev_of (merge_next s b c) (next_of s c) = b) /\
  (forall a, a <> b -> a <> b + 24 ->
             (next_of s c <> NULL -> a <> next_of s c + 16) ->
             load (merge_next s b c) a = load s a) /\
  head (merge_next s b c) = head s.
Proof.
  intros Hc Hend Hbc Hd. unfold merge_next.
  rewrite Hend, Z.eqb_refl. eqb_false c NULL. cbn [negb andb].
  set (d := next_of s c) in *.
  set (s1 := set_next s b d).
  assert (size_of s1 b = size_of s b) as ->.
  { unfold s1, size_of, set_next. by rewrite load_store_ne by lia. }
  assert (size_of s1 c = size_of s c) as ->.
  { unfold s1, size_of, set_next. by rewrite load_store_ne by lia. }
  set (sz := add64 (size_of s b) (add64 (size_of s c) FBLOCKSIZE)).
  set (s2 := set_size s1 b sz).
  assert (next_of s2 c = d) as ->.
  { unfold s2, s1, next_of, set_size, set_next.
    by rewrite !load_store_ne by lia. }
  assert (Hs2 : next_of s2 b = d /\ size_of s2 b = sz /\
                forall a, a <> b -> a <> b + 24 -> load s2 a = load s a).
  { unfold s2, s1, next_of, size_of, set_size, set_next. split_and!.
    - rewrite load_store_ne by lia. apply load_store_eq.
    - apply load_store_eq.
    - intros a H1 H2. by rewrite !load_store_ne by lia. }
  destruct Hs2 as (Hn2 & Hsz2 & Hfr2).
  destruct (d =? NULL) eqn:Hdn; cbn [negb].
  - apply Z.eqb_eq in Hdn. split_and!; [done | done | done | | done].
    intros a H1 H2 _. by apply Hfr2.
  - apply Z.eqb_neq in Hdn. specialize (Hd Hdn).
    unfold next_of, size_of, prev_of, set_prev in *. split_and!.
    + rewrite load_store_ne by lia. exact Hn2.
    + rewrite load_store_ne by lia. exact Hsz2.
    + intros _. apply load_store_eq.
    + intros a H1 H2 H3. specialize (H3 Hdn).
      rewrite load_store_ne by lia. by apply Hfr2.
    + reflexivity.
Qed.

(** What the backward merge writes: the next and size fields of prev_block
    and the prev field of next_block. *)
Lemma merge_prev_absorbs (s : state) (b nb p : Z) :
  p <> NULL -> block_end s p = b -> p + 32 <= b ->
  (nb <> NULL -> b + 32 <= nb) ->
  exists s',
    merge_prev s b nb p = (s', p) /\
    next_of s' p = next_of s b /\
    size_of s' p = add64 (size_of s p) (add64 (size_of s b) FBLOCKSIZE) /\
    (nb <> NULL -> prev_of s' nb = p) /\
    (forall a, a <> p -> a <> p + 24 -> (nb <> NULL -> a <> nb + 16) ->
               load s' a = load s a) /\
    head s' = head s.
Proof.
  intros Hp Hend Hpb Hnb. unfold merge_prev.
  rewrite Hend, Z.eqb_refl. eqb_false p NULL. cbn [negb andb].
  set (n := next_of s b).
  set (s1 := set_next s p n).
  assert (size_of s1 p = size_of s p) as ->.
  { unfold s1, size_of, set_next. by rewrite load_store_ne by lia. }
  assert (size_of s1 b = size_of s b) as ->.
  { unfold s1, size_of, set_next. by rewrite load_store_ne by lia. }
  set (sz := add64 (size_of s p) (add64 (size_of s b) FBLOCKSIZE)).
  set (s2 := set_size s1 p sz).
  assert (Hs2 : next_of s2 p = n /\ size_of s2 p = sz /\
                forall a, a <> p -> a <> p + 24 -> load s2 a = load s a).
  { unfold s2, s1, next_of, size_of, set_size, set_next. split_and!.
    - rewrite load_store_ne by lia. apply load_store_eq.
    - apply load_store_eq.
    - intros a H1 H2. by rewrite !load_store_ne by lia. }
  destruct Hs2 as (Hn2 & Hsz2 & Hfr2).
  eexists. split; [reflexivity |].
  destruct (nb =? NULL) eqn:Hnn; cbn [negb].
  - apply Z.eqb_eq in Hnn. split_and!; [done | done | done | | done].
    intros a H1 H2 _. by apply Hfr2.
  - apply Z.eqb_neq in Hnn. specialize (Hnb Hnn).
    unfold next_of, size_of, prev_of, set_prev in *. split_and!.
    + rewrite load_store_ne by lia. exact Hn2.
    + rewrite load_store_ne by lia. exact Hsz2.
    + intros _. apply load_store_eq.
    + intros a H1 H2 H3. specialize (H3 Hnn).
      rewrite load_store_ne by lia. by apply Hfr2.
    + reflexivity.
Qed.

(** ** Insertion into the free list *)

(** The scan of insert_to_list passes the nodes that lie below new. *)
Lemma insert_scan_skip (s : state) (new : Z) (l : list Z) :
  forall (fuel : nat) (curr prev c : Z),
    walk s curr l c ->
    Forall (fun a => a < new) l ->
    insert_scan (length l + fuel) s new curr prev =
    insert_scan fuel s new c (default prev (last l)).
Proof.
  induction l as [| a l IH]; intros fuel curr prev c Hw Hlt.
  - apply walk_nil_inv in Hw as ->. reflexivity.
  - apply walk_cons_inv in Hw as (-> & Ha & Hw).
    apply Forall_cons in Hlt as [Hlt Hl].
    cbn [length Nat.add insert_scan].
    eqb_false a NULL.
    assert ((a <? new) = true) as -> by (by apply Z.ltb_lt).
    cbn [negb andb].
    rewrite (IH fuel (next_of s a) a c Hw Hl).
    f_equal. symmetry. apply last_cons_default.
Qed.

Lemma insert_scan_stop (fuel : nat) (s : state) (new c prev : Z) :
  c = NULL \/ new <= c ->
  insert_scan fuel s new c prev = Some (c, prev).
Proof.
  intros Hc.
  assert (negb (c =? NULL) && (c <? new) = false) as Htest.
  { destruct Hc as [-> | Hc]; [reflexivity |].
    apply andb_false_iff. right. by apply Z.ltb_ge. }
  destruct fuel; simpl; by rewrite Htest.
Qed.

(** The linking phase of insert_to_list.  The free list is l1 ++ l2, the
    header of new lies after those of l1 and before those of l2.  The
    phase ends in a state s2 in which new is linked between the last node
    of l1 and the first of l2, and coalesce is run from there. *)
Lemma insert_to_list_links (fuel : nat) (s : state) (new : Z) (l1 l2 : list Z) :
  new <> NULL ->
  free_list s (l1 ++ l2) ->
  headers_in_order (l1 ++ new :: l2) ->
  (length l1 <= fuel)%nat ->
  let pn := default NULL (last l1) in
  let cn := hd NULL l2 in
  exists s2,
    insert_to_list fuel s new =
      (let (s3, b) := coalesce s2 new in Ret (set_is_allocated s3 b 0)) /\
    head s2 = hd new l1 /\
    prev_of s2 new = pn /\ next_of s2 new = cn /\
    (l1 <> [] -> next_of s2 pn = new) /\
    (l2 <> [] -> prev_of s2 cn = new) /\
    (forall a, a <> new + 16 -> a <> new + 24 ->
               (l1 <> [] -> a <> pn + 24) -> (l2 <> [] -> a <> cn + 16) ->
               load s2 a = load s a).
Proof.
  intros Hnew Hfl Hord Hfuel pn cn.
  destruct (headers_in_order_around _ _ _ Hord) as [Hbelow Habove].
  unfold insert_to_list.
  fold (set_next s new NULL). fold (set_prev (set_next s new NULL) new NULL).
  set (s1 := set_prev (set_next s new NULL) new NULL).
  assert (Hload1 : forall a, a <> new + 16 -> a <> new + 24 ->
                             load s1 a = load s a).
  { intros a H16 H24. unfold s1, set_prev, set_next.
    rewrite !load_store_ne by done. reflexivity. }
  assert (Hfl1 : walk s1 (head s) (l1 ++ l2) NULL).
  { apply (walk_agree s); [exact Hfl |].
    apply Forall_app. split.
    - eapply Forall_impl; [exact Hbelow |]. simpl. intros x Hx.
      unfold next_of. apply Hload1; lia.
    - eapply Forall_impl; [exact Habove |]. simpl. intros x Hx.
      unfold next_of. apply Hload1; lia. }
  destruct (walk_app_inv _ _ _ _ _ Hfl1) as (c0 & Hw1 & Hw2).
  assert (Hc0 : c0 = cn).
  { unfold cn. destruct l2 as [| c l2']; simpl.
    - by apply walk_nil_inv in Hw2.
    - by apply walk_cons_inv in Hw2 as (-> & _). }
  assert (Hstop : c0 = NULL \/ new <= c0).
  { rewrite Hc0. unfold cn. destruct l2 as [| c l2']; simpl; [by left |].
    apply Forall_cons in Habove as [Hc _]. right. lia. }
  change (head s1) with (head s).
  destruct (last l1) as [p |] eqn:Hlast.
  - (* l1 ends with p *)
    apply last_Some in Hlast as [l1' ->].
    assert (Hp : p + 32 <= new).
    { destruct (proj1 (Forall_app _ _ _) Hbelow) as [_ Hp].
      by rewrite Forall_singleton in Hp. }
    assert (Hpnull : p <> NULL).
    { pose proof (walk_nodes_nonnull _ _ _ _ Hw1) as Hnn.
      apply Forall_app in Hnn as [_ Hp']. by rewrite Forall_singleton in Hp'. }
    destruct (walk_start _ _ _ _ Hw1) as [_ Hhead]; [by destruct l1' |].
    eqb_false (head s) NULL.
    replace fuel with (length (l1' ++ [p]) + (fuel - length (l1' ++ [p])))%nat
      by lia.
    rewrite (insert_scan_skip s1 new (l1' ++ [p]) _ _ NULL c0 Hw1)
      by (eapply Forall_impl; [exact Hbelow |]; simpl; lia).
    rewrite last_snoc. change (default NULL (Some p)) with p.
    rewrite insert_scan_stop by done. cbv beta iota.
    eqb_false p NULL.
    assert (Hne : l1' ++ [p] <> []) by (by destruct l1').
    assert (Hhd : hd new (l1' ++ [p]) = head s).
    { destruct l1'; simpl in *; by apply walk_cons_inv in Hw1 as (-> & _). }
    subst pn. change (default NULL (Some p)) with p.
    rewrite Hc0. subst cn.
    destruct l2 as [| c l2']; simpl hd in *.
    + change (NULL =? NULL) with true. cbv iota. cbn [bind].
      eexists. split; [reflexivity |].
      unfold prev_of, next_of, set_prev, set_next.
      split_and!.
      * by rewrite Hhd.
      * apply load_store_eq.
      * rewrite !load_store_ne by lia. unfold s1, set_prev.
        rewrite load_store_ne by lia. apply load_store_eq.
      * intros _. rewrite load_store_ne by lia. apply load_store_eq.
      * done.
      * intros a H16 H24 Hp24 _. specialize (Hp24 Hne).
        unfold s1, set_prev, set_next. rewrite !load_store_ne by lia.
        reflexivity.
    + apply Forall_cons in Habove as [Hc _].
      assert (Hcnull : c <> NULL).
      { by apply walk_cons_inv in Hw2 as (_ & Hc' & _). }
      eqb_false c NULL. cbn [bind].
      eexists. split; [reflexivity |].
      unfold prev_of, next_of, set_prev, set_next.
      split_and!.
      * by rewrite Hhd.
      * rewrite !load_store_ne by lia. apply load_store_eq.
      * rewrite !load_store_ne by lia. apply load_store_eq.
      * intros _. rewrite !load_store_ne by lia. apply load_store_eq.
      * intros _. apply load_store_eq.
      * intros a H16 H24 Hp24 Hc16.
        specialize (Hp24 Hne). specialize (Hc16 ltac:(done)).
        unfold s1, set_prev, set_next. rewrite !load_store_ne by lia.
        reflexivity.
  - (* l1 is empty *)
    apply last_None in Hlast as ->. simpl in *.
    apply walk_nil_inv in Hw1. subst pn. rewrite Hw1, Hc0. subst cn.
    destruct l2 as [| c l2']; simpl hd in *.
    + change (NULL =? NULL) with true. cbv iota. cbn [bind].
      eexists. split; [reflexivity |].
      unfold prev_of, next_of. rewrite !load_set_head.
      unfold s1, set_prev, set_next.
      split_and!.
      * reflexivity.
      * apply load_store_eq.
      * rewrite load_store_ne by lia. apply load_store_eq.
      * done.
      * done.
      * intros a H16 H24 _ _. rewrite load_set_head.
        rewrite !load_store_ne by done. reflexivity.
    + apply Forall_cons in Habove as [Hc _].
      assert (Hcnull : c <> NULL).
      { by apply walk_cons_inv in Hw2 as (_ & Hc' & _). }
      eqb_false c NULL.
      rewrite insert_scan_stop by (right; lia). cbv beta iota.
      change (NULL =? NULL) with true. cbv iota. cbn [bind].
      eexists. split; [reflexivity |].
      unfold prev_of, next_of. rewrite !load_set_head.
      unfold set_prev, set_next.
      split_and!.
      * reflexivity.
      * rewrite !load_store_ne by lia. unfold s1, set_prev. apply load_store_eq.
      * rewrite !load_store_ne by lia. apply load_store_eq.
      * done.
      * intros _. apply load_store_eq.
      * intros a H16 H24 _ Hc16. specialize (Hc16 ltac:(done)).
        rewrite load_set_head.
        unfold s1, set_prev, set_next. rewrite !load_store_ne by lia.
        reflexivity.
Qed.

(** After the linking phase of insert_to_list the free list is
    l1 ++ new :: l2, linked in both directions. *)
Lemma insert_to_list_linked (fuel : nat) (s : state) (new : Z) (l1 l2 : list Z) :
  new <> NULL ->
  well_linked s (l1 ++ l2) ->
  headers_in_order (l1 ++ new :: l2) ->
  (length l1 <= fuel)%nat ->
  exists s2,
    insert_to_list fuel s new =
      (let (s3, b) := coalesce s2 new in Ret (set_is_allocated s3 b 0)) /\
    well_linked s2 (l1 ++ new :: l2) /\
    (forall a, a <> new + 16 -> a <> new + 24 ->
               (forall p, last l1 = Some p -> a <> p + 24) ->
               (forall c, hd_error l2 = Some c -> a <> c + 16) ->
               load s2 a = load s a).
Proof.
  intros Hnew [Hfl Hback] Hord Hfuel.
  destruct (insert_to_list_links fuel s new l1 l2 Hnew Hfl Hord Hfuel)
    as (s2 & Hrun & Hhead & Hprev & Hnext & Hpn & Hcn & Hframe).
  exists s2. split; [exact Hrun |].
  destruct (headers_in_order_around _ _ _ Hord) as [Hbelow Habove].
  destruct (walk_app_inv _ _ _ _ _ Hfl) as (c0 & Hw1 & Hw2).
  pose proof (walk_hd _ _ _ Hw2) as Hc0.
  apply back_linked_app in Hback as [Hb1 Hb2].
  assert (Hframe' : forall a, a <> new + 16 -> a <> new + 24 ->
            (forall p, last l1 = Some p -> a <> p + 24) ->
            (forall c, hd_error l2 = Some c -> a <> c + 16) ->
            load s2 a = load s a).
  { intros a H16 H24 Hp Hc. apply Hframe; [done | done | |].
    - intros Hne. destruct (last l1) as [p |] eqn:Hlast.
      + by apply Hp.
      + by apply last_None in Hlast.
    - intros Hne. destruct l2 as [| c l2']; [done |]. by apply Hc. }
  split; [| exact Hframe'].
  assert (Hl2 : walk s2 (hd NULL l2) l2 NULL /\ back_linked s2 new l2).
  { destruct l2 as [| c l2']; [split; [constructor | done] |].
    simpl hd in *. subst c0.
    destruct (headers_in_order_cons_cons _ _ _ _ Hord) as [Hnc Hc_above].
    apply Forall_cons in Habove as [_ Habove].
    destruct Hb2 as [_ Hb2]. specialize (Hcn ltac:(done)).
    assert (Hagree : forall x k, x = c \/ c + 32 <= x -> 0 <= k < 32 ->
                       x + k <> c + 16 -> load s2 (x + k) = load s (x + k)).
    { intros x k Hx Hk Hne. apply Hframe'; [lia | lia | | ].
      - intros p Hp. apply last_Some in Hp as [l1' ->].
        apply headers_in_order_snoc_cons in Hord as [_ Hp]. lia.
      - intros c' Hc'. simplify_eq/=. done. }
    split.
    - apply (walk_agree s); [done |].
      apply Forall_cons. split.
      + unfold next_of. apply Hagree; lia.
      + eapply Forall_impl; [exact Hc_above |]. simpl. intros x Hx.
        unfold next_of. apply Hagree; lia.
    - split; [done |]. apply (back_linked_agree s); [done |].
      eapply Forall_impl; [exact Hc_above |]. simpl. intros x Hx.
      unfold prev_of. apply Hagree; lia. }
  destruct Hl2 as [Hw2' Hb2'].
  apply well_linked_intro; [| done | by rewrite Hnext | | done | done].
  - destruct (last l1) as [p |] eqn:Hlast.
    + apply last_Some in Hlast as [l1' ->].
      destruct (headers_in_order_snoc_cons _ _ _ _ Hord) as [Hl1' Hpn'].
      specialize (Hpn ltac:(by destruct l1')).
      change (default NULL (Some p)) with p in Hpn.
      destruct (walk_app_inv _ _ _ _ _ Hw1) as (p' & Hw1' & Hwp).
      apply walk_cons_inv in Hwp as (-> & Hp & _).
      assert (head s2 = head s) as ->.
      { rewrite Hhead. destruct l1'; simpl in *;
          by apply walk_cons_inv in Hw1 as (-> & _). }
      apply walk_app with (b := p).
      * apply (walk_agree s); [done |].
        eapply Forall_impl; [exact Hl1' |]. simpl. intros x Hx.
        unfold next_of. apply Hframe'; [lia | lia | |].
        -- intros p' Hp'. try rewrite last_snoc in Hp'. simplify_eq. lia.
        -- intros c Hc. destruct l2 as [| c' l2']; simplify_eq/=.
           apply Forall_cons in Habove as [Hc _]. lia.
      * constructor; [done |]. rewrite Hpn. constructor.
    + apply last_None in Hlast as ->. simpl in Hhead. rewrite Hhead.
      constructor.
  - destruct (last l1) as [p |] eqn:Hlast; [| by apply last_None in Hlast as ->].
    apply (back_linked_agree s); [done |].
    pose proof Hlast as Hlast'.
    apply last_Some in Hlast' as [l1' ->].
    destruct (headers_in_order_snoc_cons _ _ _ _ Hord) as [Hl1' Hpn'].
    assert (Hl1 : Forall (fun x => x = p \/ x + 32 <= p) (l1' ++ [p])).
    { apply Forall_app. split; [| apply Forall_singleton; by left].
      eapply Forall_impl; [exact Hl1' |]. simpl. intros; by right. }
    eapply Forall_impl; [exact Hl1 |]. simpl. intros x Hx.
    unfold prev_of. apply Hframe'; [lia | lia | |].
    + intros p' Hp'. simplify_eq. lia.
    + intros c Hc. destruct l2 as [| c' l2']; simplify_eq/=.
      apply Forall_cons in Habove as [Hc _]. lia.
Qed.

(** Insertion between two nodes without a merge. *)
Lemma insert_to_list_apart
    (fuel : nat) (s : state) (new : Z) (l1 l2 : list Z) :
  new <> NULL ->
  well_linked s (l1 ++ l2) ->
  headers_in_order (l1 ++ new :: l2) ->
  (length l1 <= fuel)%nat ->
  (forall p, last l1 = Some p -> block_end s p <> new) ->
  (forall c, hd_error l2 = Some c -> block_end s new <> c) ->
  exists s',
    insert_to_list fuel s new = Ret s' /\
    well_linked s' (l1 ++ new :: l2) /\
    is_allocated s' new = 0 /\
    (forall a, a <> new + 8 -> a <> new + 16 -> a <> new + 24 ->
               (forall p, last l1 = Some p -> a <> p + 24) ->
               (forall c, hd_error l2 = Some c -> a <> c + 16) ->
               load s' a = load s a).
Proof.
  intros Hnew Hwl Hord Hfuel Hprev Hnext.
  destruct (insert_to_list_linked fuel s new l1 l2 Hnew Hwl Hord Hfuel)
    as (s2 & Hrun & Hwl2 & Hframe).
  destruct (headers_in_order_facts _ _ _ Hord) as (Hl1 & Hl2 & Hp & Hc).
  destruct (well_linked_inv _ _ _ _ Hwl2) as (_ & _ & Hw2 & _ & Hb2 & _).
  apply walk_hd in Hw2.
  assert (Hsize_new : size_of s2 new = size_of s new).
  { unfold size_of. apply Hframe; [lia | lia | |].
    - intros p Hp'. specialize (Hp p Hp'). lia.
    - intros c Hc'. specialize (Hc c Hc'). lia. }
  assert (Hsize_p : forall p, last l1 = Some p -> size_of s2 p = size_of s p).
  { intros p Hp'. specialize (Hp p Hp'). unfold size_of.
    apply Hframe; [lia | lia | |].
    - intros p' ?. simplify_eq. lia.
    - intros c Hc'. specialize (Hc c Hc'). lia. }
  rewrite Hrun, coalesce_eq, Hb2, Hw2.
  rewrite merge_next_none.
  2: { destruct l2 as [| c l2']; [by left | right]. simpl.
       unfold block_end. rewrite Hsize_new. by apply Hnext. }
  rewrite merge_prev_none.
  2: { destruct (last l1) as [p |] eqn:Hlast; [right | by left]. simpl.
       unfold block_end. rewrite (Hsize_p p eq_refl). by apply Hprev. }
  eexists. split; [reflexivity |]. split_and!.
  - apply (well_linked_agree s2); [done | done |].
    apply Forall_app. split; [| apply Forall_cons; split].
    + eapply Forall_impl; [exact Hl1 |]. simpl. intros x [Hx _].
      unfold next_of, prev_of, set_is_allocated.
      by rewrite !load_store_ne by lia.
    + unfold next_of, prev_of, set_is_allocated.
      by rewrite !load_store_ne by lia.
    + eapply Forall_impl; [exact Hl2 |]. simpl. intros x [Hx _].
      unfold next_of, prev_of, set_is_allocated.
      by rewrite !load_store_ne by lia.
  - apply is_allocated_set_is_allocated; lia.
  - intros a H8 H16 H24 Hap Hac. unfold set_is_allocated.
    rewrite load_store_ne by lia. by apply Hframe.
Qed.

(** Insertion without a merge writes the int of the flag cell of new and
    leaves its padding as it was. *)
Lemma insert_to_list_apart_flag
    (fuel : nat) (s : state) (new : Z) (l1 l2 : list Z) :
  new <> NULL ->
  well_linked s (l1 ++ l2) ->
  headers_in_order (l1 ++ new :: l2) ->
  (length l1 <= fuel)%nat ->
  (forall p, last l1 = Some p -> block_end s p <> new) ->
  (forall c, hd_error l2 = Some c -> block_end s new <> c) ->
  exists s',
    insert_to_list fuel s new = Ret s' /\
    load s' (new + 8) = cell_with_int (load s (new + 8)) 0.
Proof.
  intros Hnew Hwl Hord Hfuel Hprev Hnext.
  destruct (insert_to_list_linked fuel s new l1 l2 Hnew Hwl Hord Hfuel)
    as (s2 & Hrun & Hwl2 & Hframe).
  destruct (headers_in_order_facts _ _ _ Hord) as (Hl1 & Hl2 & Hp & Hc).
  destruct (well_linked_inv _ _ _ _ Hwl2) as (_ & _ & Hw2 & _ & Hb2 & _).
  apply walk_hd in Hw2.
  assert (Hsize_new : size_of s2 new = size_of s new).
  { unfold size_of. apply Hframe; [lia | lia | |].
    - intros p Hp'. specialize (Hp p Hp'). lia.
    - intros c Hc'. specialize (Hc c Hc'). lia. }
  assert (Hsize_p : forall p, last l1 = Some p -> size_of s2 p = size_of s p).
  { intros p Hp'. specialize (Hp p Hp'). unfold size_of.
    apply Hframe; [lia | lia | |].
    - intros p' ?. simplify_eq. lia.
    - intros c Hc'. specialize (Hc c Hc'). lia. }
  rewrite Hrun, coalesce_eq, Hb2, Hw2.
  rewrite merge_next_none.
  2: { destruct l2 as [| c l2']; [by left | right]. simpl.
       unfold block_end. rewrite Hsize_new. by apply Hnext. }
  rewrite merge_prev_none.
  2: { destruct (last l1) as [p |] eqn:Hlast; [right | by left]. simpl.
       unfold block_end. rewrite (Hsize_p p eq_refl). by apply Hprev. }
  eexists. split; [reflexivity |].
  unfold set_is_allocated. rewrite load_store_eq. f_equal.
  apply Hframe; [lia | lia | |].
  - intros p Hp'. specialize (Hp p Hp'). lia.
  - intros c Hc'. specialize (Hc c Hc'). lia.
Qed.

(** Insertion without a merge changes no size. *)
Lemma insert_to_list_apart_sizes
    (fuel : nat) (s : state) (new : Z) (l1 l2 : list Z) :
  new <> NULL ->
  well_linked s (l1 ++ l2) ->
  headers_in_order (l1 ++ new :: l2) ->
  (length l1 <= fuel)%nat ->
  (forall p, last l1 = Some p -> block_end s p <> new) ->
  (forall c, hd_error l2 = Some c -> block_end s new <> c) ->
  exists s',
    insert_to_list fuel s new = Ret s' /\
    well_linked s' (l1 ++ new :: l2) /\
    is_allocated s' new = 0 /\
    (forall x, x ∈ l1 ++ new :: l2 -> size_of s' x = size_of s x) /\
    (forall a, a <> new + 8 -> a <> new + 16 -> a <> new + 24 ->
               (forall p, last l1 = Some p -> a <> p + 24) ->
               (forall c, hd_error l2 = Some c -> a <> c + 16) ->
               load s' a = load s a).
Proof.
  intros Hnew Hwl Hord Hfuel Hprev Hnext.
  destruct (insert_to_list_apart fuel s new l1 l2 Hnew Hwl Hord Hfuel
              Hprev Hnext) as (s' & Hrun & Hwl' & Hflag & Hframe).
  exists s'. split_and!; [done | done | done | | done].
  destruct (headers_in_order_facts _ _ _ Hord) as (Hl1 & Hl2 & Hp & Hc).
  rewrite Forall_forall in Hl1, Hl2.
  intros x Hx. unfold size_of.
  apply elem_of_app in Hx as [Hx | Hx]; [| apply elem_of_cons in Hx as [-> | Hx]].
  - destruct (Hl1 x Hx) as [Hxn Hxp].
    apply Hframe; [lia | lia | lia | |].
    + intros p Hp'. destruct (Hxp p Hp'); lia.
    + intros c Hc'. specialize (Hc c Hc'). lia.
  - apply Hframe; [lia | lia | lia | |].
    + intros p Hp'. specialize (Hp p Hp'). lia.
    + intros c Hc'. specialize (Hc c Hc'). lia.
  - destruct (Hl2 x Hx) as [Hxn Hxc].
    apply Hframe; [lia | lia | lia | |].
    + intros p Hp'. specialize (Hp p Hp'). lia.
    + intros c Hc'. destruct (Hxc c Hc'); lia.
Qed.

(** Insertion of a block that ends where its successor starts, and does
    not start where its predecessor ends. *)
Lemma insert_to_list_forward
    (fuel : nat) (s : state) (new c : Z) (l1 l2 : list Z) :
  new <> NULL ->
  well_linked s (l1 ++ c :: l2) ->
  headers_in_order (l1 ++ new :: c :: l2) ->
  (length l1 <= fuel)%nat ->
  block_end s new = c ->
  (forall p, last l1 = Some p -> block_end s p <> new) ->
  exists s',
    insert_to_list fuel s new = Ret s' /\
    well_linked s' (l1 ++ new :: l2) /\
    size_of s' new = add64 (size_of s new) (add64 (size_of s c) FBLOCKSIZE) /\
    block_end s' new = block_end s c /\
    is_allocated s' new = 0 /\
    (forall a, a < new \/ new + FBLOCKSIZE <= a ->
               (forall p, last l1 = Some p -> a <> p + 24) ->
               a <> c + 16 ->
               (forall d, hd_error l2 = Some d -> a <> d + 16) ->
               load s' a = load s a).
Proof.
  intros Hnew Hwl Hord Hfuel Hend Hprev.
  destruct (insert_to_list_linked fuel s new l1 (c :: l2) Hnew Hwl Hord Hfuel)
    as (s2 & Hrun & Hwl2 & Hframe).
  destruct (headers_in_order_facts _ _ _ Hord) as (Hl1 & _ & Hp & Hc).
  specialize (Hc c eq_refl).
  assert (Hord' : headers_in_order ((l1 ++ [new]) ++ c :: l2))
    by (by rewrite <- app_assoc).
  destruct (headers_in_order_facts _ _ _ Hord') as (_ & Hl2 & _ & Hd).
  destruct (well_linked_inv _ _ _ _ Hwl2) as (Hw1 & _ & Hw2 & Hb1 & Hb2 & Hb3).
  apply walk_cons_inv in Hw2 as (Hnext2 & Hcnull & Hw2).
  destruct Hb3 as [_ Hb3].
  pose proof (walk_hd _ _ _ Hw2) as Hdeq.
  set (d := hd NULL l2) in *.
  assert (Hd' : d <> NULL -> c + 32 <= d /\ hd_error l2 = Some d).
  { intros Hdn. pose proof (hd_hd_error l2 c Hdn) as Hhd.
    split; [| done]. by apply Hd. }
  assert (Hframe2 : forall a, a <> new + 16 -> a <> new + 24 ->
            (forall p, last l1 = Some p -> a <> p + 24) -> a <> c + 16 ->
            load s2 a = load s a).
  { intros a H1 H2 H3 H4. apply Hframe; [done | done | done |].
    intros c' Hc'. by simplify_eq/=. }
  assert (Hsize_new : size_of s2 new = size_of s new).
  { unfold size_of. apply Hframe2; [lia | lia | | lia].
    intros p Hp'. specialize (Hp p Hp'). lia. }
  assert (Hsize_c : size_of s2 c = size_of s c).
  { unfold size_of. apply Hframe2; [lia | lia | | lia].
    intros p Hp'. specialize (Hp p Hp'). lia. }
  assert (Hsize_p : forall p, last l1 = Some p -> size_of s2 p = size_of s p).
  { intros p Hp'. specialize (Hp p Hp'). unfold size_of.
    apply Hframe2; [lia | lia | | lia]. intros p' ?. simplify_eq. lia. }
  destruct (merge_next_absorbs s2 new c) as (Hn3 & Hsz3 & Hdp & Hfr3 & Hhead3).
  { done. }
  { unfold block_end. by rewrite Hsize_new. }
  { done. }
  { rewrite Hdeq. intros Hdn. by apply Hd'. }
  rewrite Hdeq in Hn3, Hdp, Hfr3.
  rewrite Hrun, coalesce_eq, Hb2, Hnext2.
  set (s3 := merge_next s2 new c) in *.
  rewrite merge_prev_none.
  2: { destruct (last l1) as [p |] eqn:Hlast; [right | by left]. simpl.
       specialize (Hp p eq_refl).
       unfold block_end.
       replace (size_of s3 p) with (size_of s p); [by apply Hprev |].
       rewrite <- (Hsize_p p eq_refl). symmetry. unfold size_of.
       apply Hfr3; [lia | lia |]. intros Hdn. apply Hd' in Hdn. lia. }
  assert (Hfr' : forall a, a <> new -> a <> new + 8 -> a <> new + 24 ->
                           (d <> NULL -> a <> d + 16) ->
                           load (set_is_allocated s3 new 0) a = load s2 a).
  { intros a H1 H2 H3 H4. unfold set_is_allocated.
    rewrite load_store_ne by lia. by apply Hfr3. }
  eexists. split; [reflexivity |]. split_and!.
  - apply well_linked_intro.
    + change (head (set_is_allocated s3 new 0)) with (head s3).
      rewrite Hhead3. apply (walk_agree s2); [done |].
      eapply Forall_impl; [exact Hl1 |]. simpl. intros x [Hx _].
      unfold next_of. apply Hfr'; [lia | lia | lia |].
      intros Hdn. apply Hd' in Hdn. lia.
    + done.
    + assert (next_of (set_is_allocated s3 new 0) new = d) as ->.
      { unfold next_of, set_is_allocated. rewrite load_store_ne by lia.
        exact Hn3. }
      apply (walk_agree s2); [by rewrite <- Hdeq |].
      eapply Forall_impl; [exact Hl2 |]. simpl. intros x [Hx Hxd].
      unfold next_of. apply Hfr'; [lia | lia | lia |].
      intros Hdn. apply Hd' in Hdn as [_ Hdn].
      destruct (Hxd d Hdn); lia.
    + apply (back_linked_agree s2); [done |].
      eapply Forall_impl; [exact Hl1 |]. simpl. intros x [Hx _].
      unfold prev_of. apply Hfr'; [lia | lia | lia |].
      intros Hdn. apply Hd' in Hdn. lia.
    + rewrite <- Hb2. unfold prev_of. apply Hfr'; [lia | lia | lia |].
      intros Hdn. apply Hd' in Hdn. lia.
    + destruct l2 as [| d' l2']; [done |].
      simpl in d. subst d.
      assert (Hdn : d' <> NULL) by (by apply walk_cons_inv in Hw2 as (_ & ? & _)).
      destruct Hb3 as [_ Hb3]. split.
      * unfold prev_of, set_is_allocated. destruct (Hd' Hdn) as [? _].
        rewrite load_store_ne by lia. by apply Hdp.
      * apply (back_linked_agree s2); [done |].
        assert (Hord'' : headers_in_order (((l1 ++ [new]) ++ [c]) ++ d' :: l2'))
          by (by rewrite <- !app_assoc).
        destruct (headers_in_order_facts _ _ _ Hord'') as (_ & Hl2' & _).
        eapply Forall_impl; [exact Hl2' |]. simpl. intros x [Hx _].
        destruct (Hd' Hdn) as [? _].
        unfold prev_of. apply Hfr'; lia.
  - unfold size_of, set_is_allocated. rewrite load_store_ne by lia.
    fold (size_of s3 new). by rewrite Hsz3, Hsize_new, Hsize_c.
  - unfold block_end at 1.
    assert (size_of (set_is_allocated s3 new 0) new = size_of s3 new) as ->.
    { unfold size_of, set_is_allocated. by rewrite load_store_ne by lia. }
    rewrite Hsz3, Hsize_new, Hsize_c, block_end_merged.
    unfold block_end in Hend. rewrite Hend. reflexivity.
  - apply is_allocated_set_is_allocated; lia.
  - unfold FBLOCKSIZE. intros a Ha Hap Hac Had.
    rewrite Hfr'; [| lia | lia | lia |].
    + apply Hframe2; [lia | lia | done | done].
    + intros Hdn. apply Hd' in Hdn as [_ Hdn]. by apply Had.
Qed.

(** The forward merge changes the size of the inserted block only. *)
Lemma insert_to_list_forward_sizes
    (fuel : nat) (s : state) (new c : Z) (l1 l2 : list Z) :
  new <> NULL ->
  well_linked s (l1 ++ c :: l2) ->
  headers_in_order (l1 ++ new :: c :: l2) ->
  (length l1 <= fuel)%nat ->
  block_end s new = c ->
  (forall p, last l1 = Some p -> block_end s p <> new) ->
  exists s',
    insert_to_list fuel s new = Ret s' /\
    well_linked s' (l1 ++ new :: l2) /\
    size_of s' new = add64 (size_of s new) (add64 (size_of s c) FBLOCKSIZE) /\
    block_end s' new = block_end s c /\
    is_allocated s' new = 0 /\
    (forall x, x ∈ l1 ++ l2 -> size_of s' x = size_of s x).
Proof.
  intros Hnew Hwl Hord Hfuel Hend Hprev.
  destruct (insert_to_list_forward fuel s new c l1 l2 Hnew Hwl Hord Hfuel
              Hend Hprev) as (s' & Hrun & Hwl' & Hsize & Hend' & Hflag & Hframe).
  exists s'. split_and!; [done .. |].
  destruct (headers_in_order_facts _ _ _ Hord) as (Hl1 & _ & Hp & Hc).
  specialize (Hc c eq_refl).
  assert (Hord' : headers_in_order ((l1 ++ [new]) ++ c :: l2))
    by (by rewrite <- app_assoc).
  destruct (headers_in_order_facts _ _ _ Hord') as (_ & Hl2 & _ & Hd).
  rewrite Forall_forall in Hl1, Hl2. unfold FBLOCKSIZE in Hframe.
  intros x Hx. unfold size_of.
  apply elem_of_app in Hx as [Hx | Hx].
  - destruct (Hl1 x Hx) as [Hxn Hxp].
    apply Hframe; [lia | | lia |].
    + intros p Hp'. destruct (Hxp p Hp'); lia.
    + intros d Hd'. specialize (Hd d Hd'). lia.
  - destruct (Hl2 x Hx) as [Hxn Hxd].
    apply Hframe; [lia | | lia |].
    + intros p Hp'. specialize (Hp p Hp'). lia.
    + intros d Hd'. destruct (Hxd d Hd'); lia.
Qed.

(** Insertion of a block that starts where its predecessor ends, and does
    not end where its successor starts. *)
Lemma insert_to_list_backward
    (fuel : nat) (s : state) (new p : Z) (l1 l2 : list Z) :
  new <> NULL ->
  well_linked s ((l1 ++ [p]) ++ l2) ->
  headers_in_order ((l1 ++ [p]) ++ new :: l2) ->
  (length (l1 ++ [p]) <= fuel)%nat ->
  block_end s p = new ->
  (forall c, hd_error l2 = Some c -> block_end s new <> c) ->
  exists s',
    insert_to_list fuel s new = Ret s' /\
    well_linked s' ((l1 ++ [p]) ++ l2) /\
    size_of s' p = add64 (size_of s p) (add64 (size_of s new) FBLOCKSIZE) /\
    block_end s' p = block_end s new /\
    is_allocated s' p = 0 /\
    is_allocated s' new = is_allocated s new /\
    (forall x, x ∈ l1 ++ l2 -> size_of s' x = size_of s x) /\
    (forall a, a < p \/ p + FBLOCKSIZE <= a ->
               a <> new + 16 -> a <> new + 24 ->
               (forall c, hd_error l2 = Some c -> a <> c + 16) ->
               load s' a = load s a).
Proof.
  intros Hnew Hwl Hord Hfuel Hend Hnext.
  destruct (insert_to_list_linked fuel s new (l1 ++ [p]) l2 Hnew Hwl Hord Hfuel)
    as (s2 & Hrun & Hwl2 & Hframe).
  destruct (headers_in_order_facts _ _ _ Hord) as (_ & Hl2 & _ & Hc).
  destruct (headers_in_order_snoc_cons _ _ _ _ Hord) as [Hl1 Hpn].
  destruct (well_linked_inv _ _ _ _ Hwl2) as (Hw1 & _ & Hw2 & Hb1 & Hb2 & Hb3).
  rewrite last_snoc in Hb2. change (default NULL (Some p)) with p in Hb2.
  destruct (walk_app_inv _ _ _ _ _ Hw1) as (p' & Hw1' & Hwp).
  apply walk_cons_inv in Hwp as (-> & Hpnull & Hwp).
  apply walk_nil_inv in Hwp.
  apply back_linked_app in Hb1 as [Hb1 [Hb1p _]].
  pose proof (walk_hd _ _ _ Hw2) as Hceq.
  set (cn := hd NULL l2) in *.
  assert (Hc' : cn <> NULL -> new + 32 <= cn /\ hd_error l2 = Some cn).
  { intros Hcn. pose proof (hd_hd_error l2 new Hcn) as Hhd.
    split; [| done]. by apply Hc. }
  assert (Hframe2 : forall a, a <> new + 16 -> a <> new + 24 -> a <> p + 24 ->
            (cn <> NULL -> a <> cn + 16) -> load s2 a = load s a).
  { intros a H1 H2 H3 H4. apply Hframe; [done | done | |].
    - intros p' Hp'. rewrite last_snoc in Hp'. by simplify_eq.
    - intros c' Hc''. destruct l2 as [| c0 l2']; simplify_eq/=.
      apply H4. by apply walk_cons_inv in Hw2 as (_ & ? & _). }
  assert (Hsize_new : size_of s2 new = size_of s new).
  { unfold size_of. apply Hframe2; [lia | lia | lia |].
    intros Hcn. apply Hc' in Hcn. lia. }
  assert (Hsize_p : size_of s2 p = size_of s p).
  { unfold size_of. apply Hframe2; [lia | lia | lia |].
    intros Hcn. apply Hc' in Hcn. lia. }
  rewrite Hrun, coalesce_eq, Hb2, Hceq.
  rewrite merge_next_none.
  2: { destruct (decide (cn = NULL)) as [? | Hcn]; [by left | right].
       unfold block_end. rewrite Hsize_new. apply Hnext. by apply Hc'. }
  destruct (merge_prev_absorbs s2 new cn p)
    as (s4 & -> & Hn4 & Hsz4 & Hcp & Hfr4 & Hhead4).
  { done. }
  { unfold block_end. by rewrite Hsize_p. }
  { done. }
  { intros Hcn. by apply Hc'. }
  rewrite Hceq in Hn4.
  assert (Hfr' : forall a, a <> p -> a <> p + 8 -> a <> p + 24 ->
                           (cn <> NULL -> a <> cn + 16) ->
                           load (set_is_allocated s4 p 0) a = load s2 a).
  { intros a H1 H2 H3 H4. unfold set_is_allocated.
    rewrite load_store_ne by lia. by apply Hfr4. }
  eexists. split; [reflexivity |]. split_and!.
  - rewrite <- app_assoc. apply well_linked_intro.
    + change (head (set_is_allocated s4 p 0)) with (head s4).
      rewrite Hhead4. apply (walk_agree s2); [done |].
      eapply Forall_impl; [exact Hl1 |]. simpl. intros x Hx.
      unfold next_of. apply Hfr'; [lia | lia | lia |].
      intros Hcn. apply Hc' in Hcn. lia.
    + done.
    + assert (next_of (set_is_allocated s4 p 0) p = cn) as ->.
      { unfold next_of, set_is_allocated. rewrite load_store_ne by lia.
        exact Hn4. }
      apply (walk_agree s2); [by rewrite <- Hceq |].
      eapply Forall_impl; [exact Hl2 |]. simpl. intros x [Hx Hxc].
      unfold next_of. apply Hfr'; [lia | lia | lia |].
      intros Hcn. apply Hc' in Hcn as [_ Hcn].
      destruct (Hxc cn Hcn); lia.
    + apply (back_linked_agree s2); [done |].
      eapply Forall_impl; [exact Hl1 |]. simpl. intros x Hx.
      unfold prev_of. apply Hfr'; [lia | lia | lia |].
      intros Hcn. apply Hc' in Hcn. lia.
    + rewrite <- Hb1p. unfold prev_of. apply Hfr'; [lia | lia | lia |].
      intros Hcn. apply Hc' in Hcn. lia.
    + destruct l2 as [| c l2']; [done |].
      simpl in cn. subst cn.
      assert (Hcn : c <> NULL) by (by apply walk_cons_inv in Hw2 as (_ & ? & _)).
      destruct Hb3 as [_ Hb3]. destruct (Hc' Hcn) as [? _]. split.
      * unfold prev_of, set_is_allocated.
        rewrite load_store_ne by lia. by apply Hcp.
      * apply (back_linked_agree s2); [done |].
        destruct (headers_in_order_cons_cons _ _ _ _ Hord) as [_ Hl2'].
        eapply Forall_impl; [exact Hl2' |]. simpl. intros x Hx.
        unfold prev_of. apply Hfr'; lia.
  - unfold size_of, set_is_allocated. rewrite load_store_ne by lia.
    fold (size_of s4 p). by rewrite Hsz4, Hsize_new, Hsize_p.
  - unfold block_end at 1.
    assert (size_of (set_is_allocated s4 p 0) p = size_of s4 p) as ->.
    { unfold size_of, set_is_allocated. by rewrite load_store_ne by lia. }
    rewrite Hsz4, Hsize_new, Hsize_p, block_end_merged.
    unfold block_end in Hend. rewrite Hend. reflexivity.
  - apply is_allocated_set_is_allocated; lia.
  - unfold is_allocated. rewrite Hfr'; [| lia | lia | lia |].
    + f_equal. apply Hframe2; [lia | lia | lia |].
      intros Hcn. apply Hc' in Hcn. lia.
    + intros Hcn. apply Hc' in Hcn. lia.
  - intros x Hx. unfold size_of. rewrite Forall_forall in Hl1, Hl2.
    apply elem_of_app in Hx as [Hx | Hx].
    + specialize (Hl1 x Hx).
      rewrite Hfr'; [| lia | lia | lia |].
      * apply Hframe2; [lia | lia | lia |].
        intros Hcn. apply Hc' in Hcn. lia.
      * intros Hcn. apply Hc' in Hcn. lia.
    + destruct (Hl2 x Hx) as [Hxn Hxc].
      rewrite Hfr'; [| lia | lia | lia |].
      * apply Hframe2; [lia | lia | lia |].
        intros Hcn. apply Hc' in Hcn as [_ Hcn]. destruct (Hxc cn Hcn); lia.
      * intros Hcn. apply Hc' in Hcn as [_ Hcn]. destruct (Hxc cn Hcn); lia.
  - unfold FBLOCKSIZE. intros a Ha H16 H24 Hac.
    rewrite Hfr'; [| lia | lia | lia |].
    + apply Hframe2; [lia | lia | lia |].
      intros Hcn. apply Hc' in Hcn as [_ Hcn]. by apply Hac.
    + intros Hcn. apply Hc' in Hcn as [_ Hcn]. by apply Hac.
Qed.

(** Insertion of a block that starts where its predecessor ends and ends
    where its successor starts. *)
Lemma insert_to_list_both
    (fuel : nat) (s : state) (new p c : Z) (l1 l2 : list Z) :
  new <> NULL ->
  well_linked s ((l1 ++ [p]) ++ c :: l2) ->
  headers_in_order ((l1 ++ [p]) ++ new :: c :: l2) ->
  (length (l1 ++ [p]) <= fuel)%nat ->
  block_end s p = new ->
  block_end s new = c ->
  exists s',
    insert_to_list fuel s new = Ret s' /\
    free_list s' ((l1 ++ [p]) ++ l2) /\
    back_linked s' NULL (l1 ++ [p]) /\
    (forall d l2', l2 = d :: l2' ->
                   prev_of s' d = new /\ back_linked s' d l2') /\
    size_of s' p
      = add64 (size_of s p)
              (add64 (add64 (size_of s new) (add64 (size_of s c) FBLOCKSIZE))
                     FBLOCKSIZE) /\
    block_end s' p = block_end s c /\
    is_allocated s' p = 0 /\
    (forall x, x ∈ l1 ++ l2 -> size_of s' x = size_of s x).
Proof.
  intros Hnew Hwl Hord Hfuel Hendp Hendn.
  destruct (insert_to_list_linked fuel s new (l1 ++ [p]) (c :: l2)
              Hnew Hwl Hord Hfuel) as (s2 & Hrun & Hwl2 & Hframe).
  destruct (headers_in_order_snoc_cons _ _ _ _ Hord) as [Hl1 Hpn].
  destruct (headers_in_order_cons_cons _ _ _ _ Hord) as [Hnc Hl2c].
  assert (Hord' : headers_in_order (((l1 ++ [p]) ++ [new]) ++ c :: l2))
    by (by rewrite <- (app_assoc _ [new])).
  destruct (headers_in_order_facts _ _ _ Hord') as (_ & Hl2 & _ & Hd).
  destruct (well_linked_inv _ _ _ _ Hwl2) as (Hw1 & _ & Hw2 & Hb1 & Hb2 & Hb3).
  rewrite last_snoc in Hb2. change (default NULL (Some p)) with p in Hb2.
  destruct (walk_app_inv _ _ _ _ _ Hw1) as (p' & Hw1' & Hwp).
  apply walk_cons_inv in Hwp as (-> & Hpnull & Hwp).
  apply walk_nil_inv in Hwp.
  apply walk_cons_inv in Hw2 as (Hnext2 & Hcnull & Hw2).
  destruct Hb3 as [_ Hb3].
  pose proof (walk_hd _ _ _ Hw2) as Hdeq.
  set (d := hd NULL l2) in *.
  assert (Hd' : d <> NULL -> c + 32 <= d /\ hd_error l2 = Some d).
  { intros Hdn. pose proof (hd_hd_error l2 c Hdn) as Hhd.
    split; [| done]. by apply Hd. }
  assert (Hframe2 : forall a, a <> new + 16 -> a <> new + 24 -> a <> p + 24 ->
            a <> c + 16 -> load s2 a = load s a).
  { intros a H1 H2 H3 H4. apply Hframe; [done | done | |].
    - intros p' Hp'. rewrite last_snoc in Hp'. by simplify_eq.
    - intros c' Hc'. by simplify_eq/=. }
  assert (Hsize_new : size_of s2 new = size_of s new).
  { unfold size_of. apply Hframe2; lia. }
  assert (Hsize_c : size_of s2 c = size_of s c).
  { unfold size_of. apply Hframe2; lia. }
  assert (Hsize_p : size_of s2 p = size_of s p).
  { unfold size_of. apply Hframe2; lia. }
  destruct (merge_next_absorbs s2 new c) as (Hn3 & Hsz3 & Hdp & Hfr3 & Hhead3).
  { done. }
  { unfold block_end. by rewrite Hsize_new. }
  { done. }
  { rewrite Hdeq. intros Hdn. by apply Hd'. }
  rewrite Hdeq in Hn3, Hdp, Hfr3.
  rewrite Hrun, coalesce_eq, Hb2, Hnext2.
  set (s3 := merge_next s2 new c) in *.
  assert (Hsize_p3 : size_of s3 p = size_of s p).
  { rewrite <- Hsize_p. unfold size_of. apply Hfr3; [lia | lia |].
    intros Hdn. apply Hd' in Hdn. lia. }
  destruct (merge_prev_absorbs s3 new c p)
    as (s4 & -> & Hn4 & Hsz4 & Hcp & Hfr4 & Hhead4).
  { done. }
  { unfold block_end. by rewrite Hsize_p3. }
  { done. }
  { intros _. done. }
  assert (Hfr' : forall a, a <> p -> a <> p + 8 -> a <> p + 24 ->
                           a <> c + 16 -> a <> new -> a <> new + 24 ->
                           (d <> NULL -> a <> d + 16) ->
                           load (set_is_allocated s4 p 0) a = load s2 a).
  { intros a H1 H2 H3 H4 H5 H6 H7. unfold set_is_allocated.
    rewrite load_store_ne by lia. rewrite Hfr4 by done. by apply Hfr3. }
  assert (Hsize' : size_of (set_is_allocated s4 p 0) p
                   = add64 (size_of s p)
                       (add64 (add64 (size_of s new)
                                     (add64 (size_of s c) FBLOCKSIZE))
                              FBLOCKSIZE)).
  { unfold size_of, set_is_allocated. rewrite load_store_ne by lia.
    fold (size_of s4 p). by rewrite Hsz4, Hsize_p3, Hsz3, Hsize_new, Hsize_c. }
  eexists. split; [reflexivity |]. split_and!.
  - rewrite <- app_assoc. unfold free_list.
    change (head (set_is_allocated s4 p 0)) with (head s4).
    rewrite Hhead4, Hhead3. apply walk_app with (b := p).
    + apply (walk_agree s2); [done |].
      eapply Forall_impl; [exact Hl1 |]. simpl. intros x Hx.
      unfold next_of. apply Hfr'; [lia .. |].
      intros Hdn. apply Hd' in Hdn. lia.
    + constructor; [done |].
      assert (next_of (set_is_allocated s4 p 0) p = d) as ->.
      { unfold next_of, set_is_allocated. rewrite load_store_ne by lia.
        fold (next_of s4 p). by rewrite Hn4. }
      apply (walk_agree s2); [by rewrite <- Hdeq |].
      eapply Forall_impl; [exact Hl2 |]. simpl. intros x [Hx Hxd].
      unfold next_of. apply Hfr'; [lia .. |].
      intros Hdn. apply Hd' in Hdn as [_ Hdn].
      destruct (Hxd d Hdn); lia.
  - apply (back_linked_agree s2); [done |].
    apply Forall_app. split; [| apply Forall_singleton].
    + eapply Forall_impl; [exact Hl1 |]. simpl. intros x Hx.
      unfold prev_of. apply Hfr'; [lia .. |].
      intros Hdn. apply Hd' in Hdn. lia.
    + unfold prev_of. apply Hfr'; [lia .. |].
      intros Hdn. apply Hd' in Hdn. lia.
  - intros d' l2' ->. simpl in d. subst d.
    assert (Hdn : d' <> NULL) by (by apply walk_cons_inv in Hw2 as (_ & ? & _)).
    destruct Hb3 as [_ Hb3]. destruct (Hd' Hdn) as [? _]. split.
    + unfold prev_of, set_is_allocated. rewrite load_store_ne by lia.
      rewrite Hfr4 by lia. by apply Hdp.
    + apply (back_linked_agree s2); [done |].
      assert (Hord'' : headers_in_order
                         ((((l1 ++ [p]) ++ [new]) ++ [c]) ++ d' :: l2'))
        by (by rewrite <- (app_assoc _ [c]), <- (app_assoc _ [new])).
      destruct (headers_in_order_facts _ _ _ Hord'') as (_ & Hl2' & _).
      eapply Forall_impl; [exact Hl2' |]. simpl. intros x [Hx _].
      unfold prev_of. apply Hfr'; lia.
  - exact Hsize'.
  - unfold block_end at 1. rewrite Hsize', block_end_merged.
    unfold block_end in Hendp. rewrite Hendp, block_end_merged.
    unfold block_end in Hendn. rewrite Hendn. reflexivity.
  - apply is_allocated_set_is_allocated; lia.
  - intros x Hx. unfold size_of. rewrite Forall_forall in Hl1, Hl2.
    apply elem_of_app in Hx as [Hx | Hx].
    + specialize (Hl1 x Hx).
      rewrite Hfr'; [| lia .. |].
      * apply Hframe2; lia.
      * intros Hdn. apply Hd' in Hdn. lia.
    + destruct (Hl2 x Hx) as [Hxn Hxd].
      rewrite Hfr'; [| lia .. |].
      * apply Hframe2; lia.
      * intros Hdn. apply Hd' in Hdn as [_ Hdn]. destruct (Hxd d Hdn); lia.
Qed.

(** X3.  insert_to_list of a block that touches neither neighbour.  The
    free list is l1 ++ l2, linked in both directions; the header of new
    lies after the headers of l1 and before those of l2; the last node of
    l1 does not end where new starts and new does not end where the first
    node of l2 starts.  Then the call returns (the scan takes one unit of
    fuel for each node of l1), the free list is l1 ++ new :: l2, linked in
    both directions, new is marked free, no size field of a node has
    changed, and the only cells written are the flag and the two links of
    new, the next field of its predecessor and the prev field of its
    successor. *)
Theorem insert_to_list_links_in_address_order
    (fuel : nat) (s : state) (new : Z) (l1 l2 : list Z) :
  new <> NULL ->
  well_linked s (l1 ++ l2) ->
  headers_in_order (l1 ++ new :: l2) ->
  (length l1 <= fuel)%nat ->
  (forall p, last l1 = Some p -> block_end s p <> new) ->
  (forall c, hd_error l2 = Some c -> block_end s new <> c) ->
  exists s',
    insert_to_list fuel s new = Ret s' /\
    well_linked s' (l1 ++ new :: l2) /\
    is_allocated s' new = 0 /\
    (forall x, x ∈ l1 ++ new :: l2 -> size_of s' x = size_of s x) /\
    (forall a, a <> new + 8 -> a <> new + 16 -> a <> new + 24 ->
               (forall p, last l1 = Some p -> a <> p + 24) ->
               (forall c, hd_error l2 = Some c -> a <> c + 16) ->
               load s' a = load s a).
Proof. exact (insert_to_list_apart_sizes fuel s new l1 l2). Qed.

(** X4.  insert_to_list of a block new that ends where its successor c
    starts and does not start where its predecessor ends: new absorbs c.
    The call returns; the free list is l1 ++ new :: l2, without c, linked
    in both directions; the size of new has grown by the size of c and one
    header, so that new ends where c ended; new is marked free; the sizes
    of the other nodes are unchanged. *)
Theorem insert_to_list_absorbs_next_block
    (fuel : nat) (s : state) (new c : Z) (l1 l2 : list Z) :
  new <> NULL ->
  well_linked s (l1 ++ c :: l2) ->
  headers_in_order (l1 ++ new :: c :: l2) ->
  (length l1 <= fuel)%nat ->
  block_end s new = c ->
  (forall p, last l1 = Some p -> block_end s p <> new) ->
  exists s',
    insert_to_list fuel s new = Ret s' /\
    well_linked s' (l1 ++ new :: l2) /\
    size_of s' new = add64 (size_of s new) (add64 (size_of s c) FBLOCKSIZE) /\
    block_end s' new = block_end s c /\
    is_allocated s' new = 0 /\
    (forall x, x ∈ l1 ++ l2 -> size_of s' x = size_of s x).
Proof. exact (insert_to_list_forward_sizes fuel s new c l1 l2). Qed.

(** X5.  insert_to_list of a block new that starts where its predecessor
    p ends and does not end where its successor starts: p absorbs new.
    The call returns; the free list is the one before the call, linked in
    both directions; the size of p has grown by the size of new and one
    header, so that p ends where new ended; p is marked free, and the flag
    of new itself is left as it was; the sizes of the other nodes are
    unchanged; outside the header of p only the two links of new and the
    prev field of the successor are written. *)
Theorem insert_to_list_merges_into_previous_block
    (fuel : nat) (s : state) (new p : Z) (l1 l2 : list Z) :
  new <> NULL ->
  well_linked s ((l1 ++ [p]) ++ l2) ->
  headers_in_order ((l1 ++ [p]) ++ new :: l2) ->
  (length (l1 ++ [p]) <= fuel)%nat ->
  block_end s p = new ->
  (forall c, hd_error l2 = Some c -> block_end s new <> c) ->
  exists s',
    insert_to_list fuel s new = Ret s' /\
    well_linked s' ((l1 ++ [p]) ++ l2) /\
    size_of s' p = add64 (size_of s p) (add64 (size_of s new) FBLOCKSIZE) /\
    block_end s' p = block_end s new /\
    is_allocated s' p = 0 /\
    is_allocated s' new = is_allocated s new /\
    (forall x, x ∈ l1 ++ l2 -> size_of s' x = size_of s x) /\
    (forall a, a < p \/ p + FBLOCKSIZE <= a ->
               a <> new + 16 -> a <> new + 24 ->
               (forall c, hd_error l2 = Some c -> a <> c + 16) ->
               load s' a = load s a).
Proof. exact (insert_to_list_backward fuel s new p l1 l2). Qed.

(** X6.  insert_to_list of a block new that starts where its predecessor
    p ends and ends where its successor c starts: p absorbs new and c.
    The call returns; following next pointers the free list is the one
    before the call without c; the back links up to p are those of the
    list; the size of p has grown by the sizes of new and c and two
    headers, so that p ends where c ended; p is marked free; the sizes of
    the other nodes are unchanged.  The prev field of the node after c, if
    there is one, names new: the second merge writes the back link of c,
    the successor new had on entry to coalesce, and not that of the node
    that now follows p. *)
Theorem insert_to_list_merges_on_both_sides
    (fuel : nat) (s : state) (new p c : Z) (l1 l2 : list Z) :
  new <> NULL ->
  well_linked s ((l1 ++ [p]) ++ c :: l2) ->
  headers_in_order ((l1 ++ [p]) ++ new :: c :: l2) ->
  (length (l1 ++ [p]) <= fuel)%nat ->
  block_end s p = new ->
  block_end s new = c ->
  exists s',
    insert_to_list fuel s new = Ret s' /\
    free_list s' ((l1 ++ [p]) ++ l2) /\
    back_linked s' NULL (l1 ++ [p]) /\
    (forall d l2', l2 = d :: l2' ->
                   prev_of s' d = new /\ back_linked s' d l2') /\
    size_of s' p
      = add64 (size_of s p)
              (add64 (add64 (size_of s new) (add64 (size_of s c) FBLOCKSIZE))
                     FBLOCKSIZE) /\
    block_end s' p = block_end s c /\
    is_allocated s' p = 0 /\
    (forall x, x ∈ l1 ++ l2 -> size_of s' x = size_of s x).
Proof. exact (insert_to_list_both fuel s new p c l1 l2). Qed.

(** ** Removal from a list linked in both directions *)

(** remove_from_list writes the flag and the links of the block, the next
    field of its predecessor and the prev field of its successor, and no
    other cell. *)
Lemma remove_from_list_writes (s : state) (c a : Z) :
  a <> c + 8 -> a <> c + 16 -> a <> c + 24 ->
  (prev_of s c <> NULL -> a <> prev_of s c + 24) ->
  (next_of s c <> NULL -> a <> next_of s c + 16) ->
  load (remove_from_list s c) a = load s a.
Proof.
  intros H8 H16 H24 Hprev Hnext. unfold remove_from_list.
  destruct ((head s =? NULL) || (c =? NULL)); [reflexivity |].
  unfold set_is_allocated, set_prev, set_next.
  rewrite !load_store_ne by lia.
  destruct (c =? head s).
  - cbn [head set_head].
    destruct (next_of s c =? NULL) eqn:Hn; cbn [negb]; [reflexivity |].
    apply Z.eqb_neq in Hn. specialize (Hnext Hn).
    unfold set_prev. rewrite load_store_ne by lia. reflexivity.
  - assert (Hp : prev_of (store s (next_of s c + 16) (prev_of s c)) c
                = prev_of s c).
    { unfold prev_of. rewrite load_store.
      case_decide as Heq; [done | reflexivity]. }
    destruct (next_of s c =? NULL) eqn:Hn; cbn [negb].
    + destruct (prev_of s c =? NULL) eqn:Hpn; cbn [negb]; [reflexivity |].
      apply Z.eqb_neq in Hpn. specialize (Hprev Hpn).
      rewrite load_store_ne by lia. reflexivity.
    + apply Z.eqb_neq in Hn. specialize (Hnext Hn).
      unfold set_prev. rewrite Hp.
      destruct (prev_of s c =? NULL) eqn:Hpn; cbn [negb].
      * rewrite load_store_ne by lia. reflexivity.
      * apply Z.eqb_neq in Hpn. specialize (Hprev Hpn).
        rewrite !load_store_ne by lia. reflexivity.
Qed.

(** The links and the flag of a block after its removal. *)
Lemma remove_from_list_clears_links (s : state) (c : Z) :
  head s <> NULL -> c <> NULL ->
  next_of (remove_from_list s c) c = NULL /\
  prev_of (remove_from_list s c) c = NULL /\
  is_allocated (remove_from_list s c) c = 1.
Proof.
  intros Hhead Hc. unfold remove_from_list.
  eqb_false (head s) NULL. eqb_false c NULL. cbn [orb].
  unfold next_of, prev_of, is_allocated, set_is_allocated, set_prev, set_next.
  split_and!.
  - rewrite !load_store_ne by lia. apply load_store_eq.
  - rewrite load_store_ne by lia. apply load_store_eq.
  - rewrite load_store_eq. apply int_of_cell_with_int; lia.
Qed.

(** The write of the flag by remove_from_list leaves the padding of its
    cell as it was. *)
Lemma remove_from_list_flag_cell (s : state) (c : Z) :
  head s <> NULL -> c <> NULL ->
  (next_of s c <> NULL -> c + 32 <= next_of s c) ->
  (prev_of s c <> NULL -> prev_of s c + 32 <= c) ->
  load (remove_from_list s c) (c + 8) = cell_with_int (load s (c + 8)) 1.
Proof.
  intros Hhead Hc Hn Hp. unfold remove_from_list.
  eqb_false (head s) NULL. eqb_false c NULL. cbn [orb].
  unfold set_is_allocated. rewrite load_store_eq. f_equal.
  unfold set_prev, set_next. rewrite !load_store_ne by lia.
  destruct (c =? head s).
  - cbn [head set_head].
    destruct (next_of s c =? NULL) eqn:Hnn; cbn [negb]; [reflexivity |].
    apply Z.eqb_neq in Hnn. specialize (Hn Hnn).
    unfold set_prev. rewrite load_store_ne by lia. reflexivity.
  - destruct (next_of s c =? NULL) eqn:Hnn; cbn [negb].
    + destruct (prev_of s c =? NULL) eqn:Hpn; cbn [negb]; [reflexivity |].
      apply Z.eqb_neq in Hpn. specialize (Hp Hpn).
      rewrite load_store_ne by lia. reflexivity.
    + apply Z.eqb_neq in Hnn. specialize (Hn Hnn).
      assert (Hpp : prev_of (store s (next_of s c + 16) (prev_of s c)) c
                    = prev_of s c).
      { unfold prev_of. rewrite load_store_ne by lia. reflexivity. }
      unfold set_prev. rewrite Hpp.
      destruct (prev_of s c =? NULL) eqn:Hpn; cbn [negb].
      * rewrite load_store_ne by lia. reflexivity.
      * apply Z.eqb_neq in Hpn. specialize (Hp Hpn).
        rewrite !load_store_ne by lia. reflexivity.
Qed.

(** The back link that the successor of a removed block gets. *)
Lemma remove_from_list_back_link (s : state) (c : Z) :
  head s <> NULL -> c <> NULL -> next_of s c <> NULL ->
  (c = head s -> prev_of s c = NULL) ->
  c + 32 <= next_of s c ->
  (prev_of s c <> NULL -> prev_of s c + 32 <= c) ->
  prev_of (remove_from_list s c) (next_of s c) = prev_of s c.
Proof.
  intros Hhead Hc Hn Hfirst Hcn Hpc. unfold remove_from_list.
  eqb_false (head s) NULL. eqb_false c NULL. cbn [orb].
  set (n := next_of s c) in *. set (p := prev_of s c) in *.
  unfold prev_of at 1. unfold set_is_allocated, set_prev at 1, set_next at 1.
  rewrite !load_store_ne by lia.
  destruct (c =? head s) eqn:Hch.
  - apply Z.eqb_eq in Hch. rewrite (Hfirst Hch).
    cbn [head set_head]. eqb_false n NULL. cbn [negb].
    unfold set_prev. apply load_store_eq.
  - eqb_false n NULL. cbn [negb].
    assert (prev_of (set_prev s n p) c = p) as ->.
    { unfold prev_of, set_prev. by rewrite load_store_ne by lia. }
    assert (next_of (set_prev s n p) c = n) as ->.
    { unfold next_of, set_prev. by rewrite load_store_ne by lia. }
    destruct (p =? NULL) eqn:Hpn; cbn [negb].
    + unfold set_prev. apply load_store_eq.
    + apply Z.eqb_neq in Hpn. specialize (Hpc Hpn).
      unfold set_prev, set_next. rewrite load_store_ne by lia.
      apply load_store_eq.
Qed.

(** Removal of a node of a list linked in both directions. *)
Lemma remove_from_list_well_linked (s : state) (l1 l2 : list Z) (c : Z) :
  well_linked s (l1 ++ c :: l2) ->
  headers_in_order (l1 ++ c :: l2) ->
  well_linked (remove_from_list s c) (l1 ++ l2).
Proof.
  intros Hwl Hord.
  destruct (headers_in_order_facts _ _ _ Hord) as (Hl1 & Hl2 & Hp & Hn).
  destruct (well_linked_inv _ _ _ _ Hwl) as (Hw1 & Hc & Hw2 & Hb1 & Hb2 & Hb3).
  pose proof (walk_hd _ _ _ Hw2) as Hneq.
  destruct Hwl as [Hfl Hback].
  assert (Hhead : head s <> NULL).
  { destruct (walk_start _ _ _ _ Hfl) as [_ ?]; [by destruct l1 | done]. }
  assert (Hprev : prev_of s c <> NULL -> last l1 = Some (prev_of s c)).
  { rewrite Hb2. destruct (last l1); [done |]. simpl. done. }
  assert (Hnext : next_of s c <> NULL -> hd_error l2 = Some (next_of s c)).
  { rewrite Hneq. apply hd_hd_error. exact 0. }
  destruct (remove_from_list_unlinks s l1 l2 c Hfl
              (headers_in_order_well_separated _ Hord)) as (Hfl' & _).
  { intros p Hlast. rewrite Hb2, Hlast. reflexivity. }
  split; [exact Hfl' |].
  apply back_linked_app. split.
  - apply (back_linked_agree s); [done |].
    eapply Forall_impl; [exact Hl1 |]. simpl. intros x [Hx Hxp].
    unfold prev_of at 1. apply remove_from_list_writes; [lia | lia | lia | |].
    + intros Hpn. destruct (Hxp _ (Hprev Hpn)); lia.
    + intros Hnn. specialize (Hn _ (Hnext Hnn)). lia.
  - destruct l2 as [| n l2']; [done |]. simpl in Hneq.
    destruct Hb3 as [_ Hb3].
    assert (Hnn : n <> NULL) by (by apply walk_cons_inv in Hw2 as (_ & ? & _)).
    specialize (Hn n eq_refl).
    split.
    + rewrite <- Hb2, <- Hneq. apply remove_from_list_back_link.
      * done.
      * done.
      * by rewrite Hneq.
      * intros ->. destruct l1 as [| h l1']; [done |].
        apply walk_cons_inv in Hw1 as (Hh & _).
        apply Forall_cons in Hl1 as [[Hh' _] _]. lia.
      * rewrite Hneq. lia.
      * intros Hpn. apply Hp. by apply Hprev.
    + apply (back_linked_agree s); [done |].
      destruct (headers_in_order_cons_cons _ _ _ _ Hord) as [_ Hl2'].
      eapply Forall_impl; [exact Hl2' |]. simpl. intros x Hx.
      unfold prev_of at 1. apply remove_from_list_writes; [lia | lia | lia | |].
      * intros Hpn. specialize (Hp _ (Hprev Hpn)). lia.
      * rewrite Hneq. lia.
Qed.

(** Removal changes no size. *)
Lemma remove_from_list_sizes (s : state) (l1 l2 : list Z) (c : Z) :
  well_linked s (l1 ++ c :: l2) ->
  headers_in_order (l1 ++ c :: l2) ->
  forall x, x ∈ l1 ++ c :: l2 ->
            size_of (remove_from_list s c) x = size_of s x.
Proof.
  intros Hwl Hord.
  destruct (headers_in_order_facts _ _ _ Hord) as (Hl1 & Hl2 & Hp & Hn).
  destruct (well_linked_inv _ _ _ _ Hwl) as (_ & _ & Hw2 & _ & Hb2 & _).
  pose proof (walk_hd _ _ _ Hw2) as Hneq.
  assert (Hprev : prev_of s c <> NULL -> last l1 = Some (prev_of s c)).
  { rewrite Hb2. destruct (last l1); [done |]. simpl. done. }
  assert (Hnext : next_of s c <> NULL -> hd_error l2 = Some (next_of s c)).
  { rewrite Hneq. apply hd_hd_error. exact 0. }
  rewrite Forall_forall in Hl1, Hl2.
  intros x Hx. unfold size_of.
  apply elem_of_app in Hx as [Hx | Hx]; [| apply elem_of_cons in Hx as [-> | Hx]].
  - destruct (Hl1 x Hx) as [Hxc Hxp].
    apply remove_from_list_writes; [lia | lia | lia | |].
    + intros Hpn. destruct (Hxp _ (Hprev Hpn)); lia.
    + intros Hnn. specialize (Hn _ (Hnext Hnn)). lia.
  - apply remove_from_list_writes; [lia | lia | lia | |].
    + intros Hpn. specialize (Hp _ (Hprev Hpn)). lia.
    + intros Hnn. specialize (Hn _ (Hnext Hnn)). lia.
  - destruct (Hl2 x Hx) as [Hxc Hxn].
    apply remove_from_list_writes; [lia | lia | lia | |].
    + intros Hpn. specialize (Hp _ (Hprev Hpn)). lia.
    + intros Hnn. destruct (Hxn _ (Hnext Hnn)); lia.
Qed.

(** X7.  remove_from_list of a node c of a free list that is linked in
    both directions and whose headers lie in list order without
    overlapping: the free list loses exactly c and stays linked in both
    directions; c is marked allocated and its two links are null; the only
    cells written are the flag and the two links of c, the next field of
    its predecessor and the prev field of its successor. *)
Theorem remove_from_list_unlinks_both_ways
    (s : state) (l1 l2 : list Z) (c : Z) :
  well_linked s (l1 ++ c :: l2) ->
  headers_in_order (l1 ++ c :: l2) ->
  well_linked (remove_from_list s c) (l1 ++ l2) /\
  is_allocated (remove_from_list s c) c = 1 /\
  next_of (remove_from_list s c) c = NULL /\
  prev_of (remove_from_list s c) c = NULL /\
  (forall a, a <> c + 8 -> a <> c + 16 -> a <> c + 24 ->
             (forall p, last l1 = Some p -> a <> p + 24) ->
             (forall n, hd_error l2 = Some n -> a <> n + 16) ->
             load (remove_from_list s c) a = load s a).
Proof.
  intros Hwl Hord.
  destruct (well_linked_inv _ _ _ _ Hwl) as (_ & Hc & Hw2 & _ & Hb2 & _).
  pose proof (walk_hd _ _ _ Hw2) as Hneq.
  assert (Hhead : head s <> NULL).
  { destruct Hwl as [Hfl _].
    destruct (walk_start _ _ _ _ Hfl) as [_ ?]; [by destruct l1 | done]. }
  destruct (remove_from_list_clears_links s c Hhead Hc) as (Hn & Hp & Hflag).
  split_and!; [by apply remove_from_list_well_linked | done | done | done |].
  intros a H8 H16 H24 Hap Han. apply remove_from_list_writes; [done .. | |].
  - rewrite Hb2. intros Hpn. apply Hap. by destruct (last l1).
  - rewrite Hneq. intros Hnn. apply Han. by apply hd_hd_error.
Qed.

(** X8.  remove_from_list followed by insert_to_list of the same block.
    When c is a node of the free list, marked free, that touches neither
    neighbour, the removal leaves the list without c and c marked
    allocated, and the insertion that follows returns in a state whose head
    and whose every memory cell are those before the removal. *)
Theorem remove_then_insert_restores_the_heap
    (fuel : nat) (s : state) (c : Z) (l1 l2 : list Z) :
  well_linked s (l1 ++ c :: l2) ->
  headers_in_order (l1 ++ c :: l2) ->
  is_allocated s c = 0 ->
  (forall p, last l1 = Some p -> block_end s p <> c) ->
  (forall n, hd_error l2 = Some n -> block_end s c <> n) ->
  (length l1 <= fuel)%nat ->
  well_linked (remove_from_list s c) (l1 ++ l2) /\
  is_allocated (remove_from_list s c) c = 1 /\
  exists s',
    insert_to_list fuel (remove_from_list s c) c = Ret s' /\
    head s' = head s /\
    (forall a, load s' a = load s a).
Proof.
  intros Hwl Hord Hflag Hprev Hnext Hfuel.
  pose proof (remove_from_list_well_linked s l1 l2 c Hwl Hord) as Hwl1.
  destruct (headers_in_order_facts _ _ _ Hord) as (_ & _ & Hp & Hn).
  destruct (well_linked_inv _ _ _ _ Hwl) as (_ & Hc & Hw2 & _ & Hb2 & _).
  pose proof (walk_hd _ _ _ Hw2) as Hneq.
  assert (Hhead : head s <> NULL).
  { destruct Hwl as [Hfl _].
    destruct (walk_start _ _ _ _ Hfl) as [_ ?]; [by destruct l1 | done]. }
  assert (Hpn : prev_of s c <> NULL -> last l1 = Some (prev_of s c)).
  { rewrite Hb2. destruct (last l1); [done |]. simpl. done. }
  assert (Hnn : next_of s c <> NULL -> hd_error l2 = Some (next_of s c)).
  { rewrite Hneq. apply hd_hd_error. exact 0. }
  set (s1 := remove_from_list s c) in *.
  assert (Hframe1 : forall a, a <> c + 8 -> a <> c + 16 -> a <> c + 24 ->
            (forall p, last l1 = Some p -> a <> p + 24) ->
            (forall n, hd_error l2 = Some n -> a <> n + 16) ->
            load s1 a = load s a).
  { intros a H8 H16 H24 Hap Han. apply remove_from_list_writes; auto. }
  assert (Hsize_c : size_of s1 c = size_of s c).
  { unfold size_of. apply Hframe1; [lia | lia | lia | |].
    - intros p Hp'. specialize (Hp p Hp'). lia.
    - intros n Hn'. specialize (Hn n Hn'). lia. }
  assert (Hsize_p : forall p, last l1 = Some p -> size_of s1 p = size_of s p).
  { intros p Hp'. specialize (Hp p Hp'). unfold size_of.
    apply Hframe1; [lia | lia | lia | |].
    - intros p' ?. simplify_eq. lia.
    - intros n Hn'. specialize (Hn n Hn'). lia. }
  split; [exact Hwl1 |].
  split; [by apply remove_from_list_clears_links |].
  assert (Hprev1 : forall p, last l1 = Some p -> block_end s1 p <> c).
  { intros p Hp'. unfold block_end. rewrite (Hsize_p p Hp'). by apply Hprev. }
  assert (Hnext1 : forall n, hd_error l2 = Some n -> block_end s1 c <> n).
  { intros n Hn'. unfold block_end. rewrite Hsize_c. by apply Hnext. }
  destruct (insert_to_list_apart fuel s1 c l1 l2 Hc Hwl1 Hord Hfuel
              Hprev1 Hnext1)
    as (s' & Hrun & Hwl' & Hflag' & Hframe').
  exists s'. split; [exact Hrun |]. split.
  - destruct Hwl as [Hfl _]. destruct Hwl' as [Hfl' _].
    apply walk_hd in Hfl, Hfl'. congruence.
  - intros a.
    destruct (decide (a = c + 8)) as [-> | H8].
    { destruct (insert_to_list_apart_flag fuel s1 c l1 l2 Hc Hwl1 Hord Hfuel
                  Hprev1 Hnext1) as (s'' & Hrun' & Hcell).
      rewrite Hrun in Hrun'. injection Hrun' as <-.
      rewrite Hcell. unfold s1. rewrite remove_from_list_flag_cell.
      - rewrite cell_with_int_twice.
        pose proof (cell_with_int_same (load s (c + 8))) as Hsame.
        unfold is_allocated in Hflag. by rewrite Hflag in Hsame.
      - done.
      - done.
      - intros Hnn'. specialize (Hn _ (Hnn Hnn')). lia.
      - intros Hpn'. specialize (Hp _ (Hpn Hpn')). lia. }
    destruct (decide (a = c + 16)) as [-> | H16].
    { destruct (well_linked_inv _ _ _ _ Hwl') as (_ & _ & _ & _ & Hb2' & _).
      unfold prev_of in Hb2, Hb2'. congruence. }
    destruct (decide (a = c + 24)) as [-> | H24].
    { destruct (well_linked_inv _ _ _ _ Hwl') as (_ & _ & Hw2' & _).
      apply walk_hd in Hw2'. unfold next_of in Hneq, Hw2'. congruence. }
    destruct (last l1) as [p |] eqn:Hlast.
    + destruct (decide (a = p + 24)) as [-> | Hap].
      { pose proof (well_linked_last_next _ _ _ _ _ Hwl Hlast) as H1.
        pose proof (well_linked_last_next _ _ _ _ _ Hwl' Hlast) as H2.
        unfold next_of in H1, H2. congruence. }
      destruct (hd_error l2) as [n |] eqn:Hhd.
      * destruct (decide (a = n + 16)) as [-> | Han].
        { pose proof (well_linked_hd_prev _ _ _ _ _ Hwl Hhd) as H1.
          pose proof (well_linked_hd_prev _ _ _ _ _ Hwl' Hhd) as H2.
          unfold prev_of in H1, H2. congruence. }
        rewrite Hframe', Hframe1; try done; intros; by simplify_eq.
      * rewrite Hframe', Hframe1; try done; intros; by simplify_eq.
    + destruct (hd_error l2) as [n |] eqn:Hhd.
      * destruct (decide (a = n + 16)) as [-> | Han].
        { pose proof (well_linked_hd_prev _ _ _ _ _ Hwl Hhd) as H1.
          pose proof (well_linked_hd_prev _ _ _ _ _ Hwl' Hhd) as H2.
          unfold prev_of in H1, H2. congruence. }
        rewrite Hframe', Hframe1; try done; intros; by simplify_eq.
      * rewrite Hframe', Hframe1; try done; intros; by simplify_eq.
Qed.

(** ** Requests served by the first fit *)

(** The first fit exceeds the request by a header and the minimum
    remainder: it is split. *)
Lemma first_fit_split
    (fuel : nat) (s : state) (n : Z) (pre post : list Z) (c : Z) :
  0 < n <= SIZE_MAX - 63 ->
  well_linked s (pre ++ c :: post) ->
  headers_in_order (pre ++ c :: post) ->
  Forall (fun a => size_of s a < round_up n) pre ->
  round_up n + FBLOCKSIZE + MIN_SPLIT_REMAINDER <= size_of s c ->
  0 <= c -> c + FBLOCKSIZE + size_of s c < 2 ^ 64 ->
  (forall p, last pre = Some p -> block_end s p <= c) ->
  (forall y, hd_error post = Some y -> c + FBLOCKSIZE + size_of s c < y) ->
  (length pre < fuel)%nat ->
  exists s',
    internal_myalloc fuel s n = Ret (s', PAYLOAD c) /\
    well_linked s' (pre ++ (c + FBLOCKSIZE + round_up n) :: post) /\
    size_of s' c = round_up n /\ is_allocated s' c = 1 /\
    size_of s' (c + FBLOCKSIZE + round_up n)
      = size_of s c - round_up n - FBLOCKSIZE /\
    is_allocated s' (c + FBLOCKSIZE + round_up n) = 0 /\
    block_end s' (c + FBLOCKSIZE + round_up n) = block_end s c /\
    brk s' = brk s /\
    (forall x, x ∈ pre ++ post -> size_of s' x = size_of s x).
Proof.
  unfold FBLOCKSIZE, MIN_SPLIT_REMAINDER, POINTER_SIZE, FBLOCKSIZE.
  intros Hn Hwl Hord Hsmall Hsize Hc Hcend Hprev Hnext Hfuel.
  set (r := round_up n) in *.
  set (new := c + 32 + r).
  pose proof (round_up_bounds n ltac:(unfold SIZE_MAX in *; lia)) as Hr.
  fold r in Hr.
  destruct (headers_in_order_facts _ _ _ Hord) as (Hl1 & Hl2 & Hp & Hy).
  unfold internal_myalloc.
  assert ((n <=? 0) = false) as -> by (apply Z.leb_gt; lia).
  fold r.
  pose proof (well_linked_init_heap_if_needed _ _ Hwl) as Hwl0.
  assert (Hsize0 : forall a, size_of (init_heap_if_needed s) a = size_of s a).
  { intros a. unfold size_of. apply load_init_heap_if_needed. }
  pose proof (init_heap_if_needed_brk s) as Hbrk0.
  set (s0 := init_heap_if_needed s) in *.
  destruct (well_linked_inv _ _ _ _ Hwl0) as (Hw1 & Hcnull & _).
  assert (Hloop : alloc_loop fuel fuel s0 r (head s0) NULL
                  = alloc_loop fuel (S (fuel - S (length pre))) s0 r c
                      (default NULL (last pre))).
  { rewrite <- (alloc_loop_skip fuel s0 r pre (S (fuel - S (length pre)))
                  (head s0) NULL c Hw1).
    - f_equal. lia.
    - eapply Forall_impl; [exact Hsmall |]. simpl. intros.
      by rewrite Hsize0. }
  rewrite Hloop. clear Hloop.
  cbn [alloc_loop]. eqb_false c NULL.
  rewrite Hsize0.
  assert ((r <=? size_of s c) = true) as -> by (apply Z.leb_le; lia).
  assert (add64 r MIN_SPLIT_REMAINDER = r + 40) as ->.
  { unfold r. rewrite exact_fit_bound_without_wrap by lia. reflexivity. }
  assert ((size_of s c <? r + 40) = false) as -> by (apply Z.ltb_ge; lia).
  cbn [andb].
  (* the removal *)
  pose proof (remove_from_list_well_linked s0 pre post c Hwl0 Hord) as Hwl1.
  assert (Hhead0 : head s0 <> NULL).
  { destruct Hwl0 as [Hfl0 _].
    destruct (walk_start _ _ _ _ Hfl0) as [_ ?]; [by destruct pre | done]. }
  destruct (remove_from_list_clears_links s0 c Hhead0 Hcnull)
    as (_ & _ & Hflag1).
  destruct (well_linked_inv _ _ _ _ Hwl0) as (_ & _ & Hw2 & _ & Hb2 & _).
  pose proof (walk_hd _ _ _ Hw2) as Hneq.
  assert (Hpn : prev_of s0 c <> NULL -> last pre = Some (prev_of s0 c)).
  { rewrite Hb2. destruct (last pre); [done |]. simpl. done. }
  assert (Hnn : next_of s0 c <> NULL -> hd_error post = Some (next_of s0 c)).
  { rewrite Hneq. apply hd_hd_error. exact 0. }
  assert (Hframe1 : forall a, a <> c + 8 -> a <> c + 16 -> a <> c + 24 ->
            (forall p, last pre = Some p -> a <> p + 24) ->
            (forall y, hd_error post = Some y -> a <> y + 16) ->
            load (remove_from_list s0 c) a = load s a).
  { intros a H8 H16 H24 Hap Hay.
    rewrite remove_from_list_writes by auto.
    apply load_init_heap_if_needed. }
  pose proof (remove_from_list_same_break s0 c) as (Hbrk1 & _).
  set (s1 := remove_from_list s0 c) in *.
  assert (Hsize1c : size_of s1 c = size_of s c).
  { unfold size_of. apply Hframe1; [lia | lia | lia | |].
    - intros p Hp'. specialize (Hp p Hp'). lia.
    - intros y Hy'. specialize (Hy y Hy'). lia. }
  (* the split *)
  unfold split_block. rewrite Hsize1c.
  assert (sub64 (sub64 (size_of s c) r) FBLOCKSIZE = size_of s c - r - 32)
    as ->.
  { unfold sub64, FBLOCKSIZE. rewrite (wrap_small (size_of s c - r)) by lia.
    apply wrap_small. lia. }
  assert ((size_of s c - r - 32 <? MIN_SPLIT_REMAINDER) = false) as ->.
  { apply Z.ltb_ge. unfold MIN_SPLIT_REMAINDER, POINTER_SIZE, FBLOCKSIZE. lia. }
  assert (add64 c (add64 r FBLOCKSIZE) = new) as ->.
  { unfold add64, FBLOCKSIZE, new. rewrite (wrap_small (r + 32)) by lia.
    rewrite wrap_small by lia. lia. }
  set (leftover := size_of s c - r - 32).
  set (s2 := set_prev (set_next (set_size (set_size s1 c r) new leftover)
                                new NULL) new NULL).
  assert (Hframe2 : forall a, a <> c -> a <> new -> a <> new + 16 ->
                              a <> new + 24 -> load s2 a = load s1 a).
  { intros a H1 H2 H3 H4. unfold s2, set_prev, set_next, set_size.
    by rewrite !load_store_ne by lia. }
  assert (Hpost : Forall (fun y => new + 32 <= y) post).
  { apply Forall_forall. intros y Hin.
    pose proof (proj1 (Forall_forall _ _) Hl2 y Hin) as [_ Hy'].
    destruct post as [| y0 post']; [inversion Hin |].
    specialize (Hnext y0 eq_refl). destruct (Hy' y0 eq_refl); unfold new; lia. }
  assert (Hord2 : headers_in_order (pre ++ new :: post)).
  { apply (headers_in_order_replace _ _ c); [done | unfold new; lia | done]. }
  assert (Hwl2 : well_linked s2 (pre ++ post)).
  { apply (well_linked_agree s1); [done | reflexivity |].
    apply Forall_app. split.
    - eapply Forall_impl; [exact Hl1 |]. simpl. intros x [Hx _].
      unfold next_of, prev_of. rewrite !Hframe2 by (unfold new; lia). done.
    - eapply Forall_impl; [exact Hpost |]. simpl. intros x Hx.
      unfold next_of, prev_of. rewrite !Hframe2 by (unfold new in *; lia).
      done. }
  assert (Hnewnull : new <> NULL) by (unfold new, NULL; lia).
  destruct (insert_to_list_apart fuel s2 new pre post Hnewnull Hwl2 Hord2)
    as (s' & Hrun & Hwl' & Hflag' & Hframe').
  { lia. }
  { intros p Hp'. specialize (Hprev p Hp'). specialize (Hp p Hp').
    unfold block_end in *.
    replace (size_of s2 p) with (size_of s p); [unfold new; lia |].
    unfold size_of. rewrite Hframe2 by (unfold new; lia).
    symmetry. apply Hframe1; [lia | lia | lia | |].
    - intros p' ?. simplify_eq. lia.
    - intros y Hy'. specialize (Hy y Hy'). lia. }
  { intros y Hy'. specialize (Hnext y Hy'). unfold block_end.
    assert (size_of s2 new = leftover) as ->.
    { unfold s2, size_of, set_prev, set_next, set_size.
      rewrite !load_store_ne by lia. apply load_store_eq. }
    unfold add64, FBLOCKSIZE. rewrite (wrap_small (new + 32))
      by (unfold new; lia).
    rewrite wrap_small by (unfold new, leftover; lia).
    unfold new, leftover. lia. }
  fold s2. rewrite Hrun. cbn [bind].
  pose proof (insert_to_list_same_break _ _ _ _ Hrun) as (Hbrk' & _).
  exists s'. split; [reflexivity |].
  assert (Hc_frame : forall k, 0 <= k < 16 ->
            load s' (c + k) = load s2 (c + k)).
  { intros k Hk. apply Hframe'; [unfold new; lia .. | |].
    - intros p Hp'. specialize (Hp p Hp'). lia.
    - intros y Hy'. rewrite Forall_forall in Hpost.
      assert (y ∈ post) as Hin by (destruct post; simplify_eq/=; left).
      specialize (Hpost y Hin). unfold new in Hpost. lia. }
  assert (Hnew_size : size_of s' new = leftover).
  { unfold size_of. rewrite Hframe'; [| lia | lia | lia | |].
    - unfold s2, set_prev, set_next, set_size.
      rewrite !load_store_ne by lia. apply load_store_eq.
    - intros p Hp'. specialize (Hp p Hp'). unfold new. lia.
    - intros y Hy'. rewrite Forall_forall in Hpost.
      assert (y ∈ post) as Hin by (destruct post; simplify_eq/=; left).
      specialize (Hpost y Hin). lia. }
  split_and!.
  - exact Hwl'.
  - unfold size_of. rewrite <- (Z.add_0_r c), Hc_frame by lia.
    rewrite Z.add_0_r. unfold s2, set_prev, set_next, set_size.
    rewrite !load_store_ne by (unfold new; lia). apply load_store_eq.
  - unfold is_allocated. rewrite Hc_frame by lia.
    rewrite Hframe2 by (unfold new; lia). exact Hflag1.
  - exact Hnew_size.
  - exact Hflag'.
  - unfold block_end. rewrite Hnew_size.
    unfold add64, FBLOCKSIZE. rewrite (wrap_small (new + 32))
      by (unfold new; lia).
    rewrite (wrap_small (c + 32)) by lia.
    f_equal. unfold new, leftover. lia.
  - simpl in Hbrk'. congruence.
  - intros x Hx. unfold size_of.
    rewrite Forall_forall in Hl1, Hl2, Hpost.
    apply elem_of_app in Hx as [Hx | Hx].
    + destruct (Hl1 x Hx) as [Hxc Hxp].
      rewrite Hframe'; [| unfold new; lia .. | |].
      * rewrite Hframe2 by (unfold new; lia).
        apply Hframe1; [lia | lia | lia | |].
        -- intros p Hp'. destruct (Hxp p Hp'); lia.
        -- intros y Hy'. specialize (Hy y Hy'). lia.
      * intros p Hp'. destruct (Hxp p Hp'); lia.
      * intros y Hy'. specialize (Hy y Hy'). lia.
    + destruct (Hl2 x Hx) as [Hxc Hxy]. specialize (Hpost x Hx).
      rewrite Hframe'; [| lia .. | |].
      * rewrite Hframe2 by lia.
        apply Hframe1; [lia | lia | lia | |].
        -- intros p Hp'. specialize (Hp p Hp'). lia.
        -- intros y Hy'. destruct (Hxy y Hy'); lia.
      * intros p Hp'. specialize (Hp p Hp'). lia.
      * intros y Hy'. destruct (Hxy y Hy'); lia.
Qed.

(** The first fit exceeds the request by less than a header and the
    minimum remainder: it is handed out whole. *)
Lemma first_fit_whole
    (fuel : nat) (s : state) (n : Z) (pre post : list Z) (c : Z) :
  0 < n <= SIZE_MAX - 63 ->
  well_linked s (pre ++ c :: post) ->
  headers_in_order (pre ++ c :: post) ->
  Forall (fun a => size_of s a < round_up n) pre ->
  round_up n <= size_of s c < round_up n + FBLOCKSIZE + MIN_SPLIT_REMAINDER ->
  size_of s c < 2 ^ 64 ->
  (length pre < fuel)%nat ->
  exists s',
    internal_myalloc fuel s n = Ret (s', PAYLOAD c) /\
    well_linked s' (pre ++ post) /\
    size_of s' c = size_of s c /\ is_allocated s' c = 1 /\
    brk s' = brk s /\
    (forall x, x ∈ pre ++ post -> size_of s' x = size_of s x).
Proof.
  unfold FBLOCKSIZE, MIN_SPLIT_REMAINDER, POINTER_SIZE, FBLOCKSIZE.
  intros Hn Hwl Hord Hsmall Hsize Hrange Hfuel.
  set (r := round_up n) in *.
  pose proof (round_up_bounds n ltac:(unfold SIZE_MAX in *; lia)) as Hr.
  fold r in Hr.
  destruct (headers_in_order_facts _ _ _ Hord) as (Hl1 & Hl2 & Hp & Hy).
  unfold internal_myalloc.
  assert ((n <=? 0) = false) as -> by (apply Z.leb_gt; lia).
  fold r.
  pose proof (well_linked_init_heap_if_needed _ _ Hwl) as Hwl0.
  assert (Hsize0 : forall a, size_of (init_heap_if_needed s) a = size_of s a).
  { intros a. unfold size_of. apply load_init_heap_if_needed. }
  pose proof (init_heap_if_needed_brk s) as Hbrk0.
  set (s0 := init_heap_if_needed s) in *.
  destruct (well_linked_inv _ _ _ _ Hwl0) as (Hw1 & Hcnull & Hw2 & _ & Hb2 & _).
  assert (Hloop : alloc_loop fuel fuel s0 r (head s0) NULL
                  = alloc_loop fuel (S (fuel - S (length pre))) s0 r c
                      (default NULL (last pre))).
  { rewrite <- (alloc_loop_skip fuel s0 r pre (S (fuel - S (length pre)))
                  (head s0) NULL c Hw1).
    - f_equal. lia.
    - eapply Forall_impl; [exact Hsmall |]. simpl. intros.
      by rewrite Hsize0. }
  rewrite Hloop. clear Hloop.
  pose proof (remove_from_list_well_linked s0 pre post c Hwl0 Hord) as Hwl1.
  assert (Hhead0 : head s0 <> NULL).
  { destruct Hwl0 as [Hfl0 _].
    destruct (walk_start _ _ _ _ Hfl0) as [_ ?]; [by destruct pre | done]. }
  destruct (remove_from_list_clears_links s0 c Hhead0 Hcnull)
    as (_ & _ & Hflag1).
  pose proof (walk_hd _ _ _ Hw2) as Hneq.
  assert (Hsize1c : size_of (remove_from_list s0 c) c = size_of s c).
  { rewrite <- Hsize0. unfold size_of.
    apply remove_from_list_writes; [lia | lia | lia | |].
    - rewrite Hb2. intros Hpn. destruct (last pre) as [p |] eqn:Hlast; [| done].
      specialize (Hp p eq_refl). simpl. lia.
    - rewrite Hneq. intros Hnn.
      specialize (Hy _ (hd_hd_error post 0 Hnn)). lia. }
  pose proof (remove_from_list_same_break s0 c) as (Hbrk1 & _).
  assert (Hsizes1 : forall x, x ∈ pre ++ post ->
            size_of (remove_from_list s0 c) x = size_of s x).
  { intros x Hx. rewrite <- Hsize0.
    apply (remove_from_list_sizes s0 pre post c Hwl0 Hord).
    apply elem_of_app in Hx as [Hx | Hx]; apply elem_of_app;
      [by left | right; by right]. }
  cbn [alloc_loop]. eqb_false c NULL.
  rewrite Hsize0.
  assert ((r <=? size_of s c) = true) as -> by (apply Z.leb_le; lia).
  assert (add64 r MIN_SPLIT_REMAINDER = r + 40) as ->.
  { unfold r. rewrite exact_fit_bound_without_wrap by lia. reflexivity. }
  destruct (size_of s c <? r + 40) eqn:Hexact; cbn [andb].
  - eexists. split; [reflexivity |].
    split_and!; [done | done | done | congruence | done].
  - apply Z.ltb_ge in Hexact.
    unfold split_block. rewrite Hsize1c.
    assert (sub64 (sub64 (size_of s c) r) FBLOCKSIZE = size_of s c - r - 32)
      as ->.
    { unfold sub64, FBLOCKSIZE. rewrite (wrap_small (size_of s c - r)) by lia.
      apply wrap_small. lia. }
    assert ((size_of s c - r - 32 <? MIN_SPLIT_REMAINDER) = true) as ->.
    { apply Z.ltb_lt. unfold MIN_SPLIT_REMAINDER, POINTER_SIZE, FBLOCKSIZE.
      lia. }
    cbn [bind].
    eexists. split; [reflexivity |].
    split_and!; [done | done | done | congruence | done].
Qed.

(** X9.  A request whose first fit is split.  The free list is
    pre ++ c :: post, linked in both directions, with the headers in list
    order; every node of pre is smaller than the rounded request r; c has
    at least r + FBLOCKSIZE + MIN_SPLIT_REMAINDER bytes, lies in the
    address space, starts at or after the end of its predecessor and ends
    before its successor starts.  Then internal_myalloc returns the payload
    of c; c has size r and is marked allocated; the remainder, the block at
    c + FBLOCKSIZE + r, has the size of c less r and one header, is marked
    free, takes the place of c in the free list, which stays linked in both
    directions, and ends where c ended; the break does not move and the
    sizes of the other nodes are unchanged. *)
Theorem first_fit_splits_a_larger_block
    (fuel : nat) (s : state) (n : Z) (pre post : list Z) (c : Z) :
  0 < n <= SIZE_MAX - 63 ->
  well_linked s (pre ++ c :: post) ->
  headers_in_order (pre ++ c :: post) ->
  Forall (fun a => size_of s a < round_up n) pre ->
  round_up n + FBLOCKSIZE + MIN_SPLIT_REMAINDER <= size_of s c ->
  0 <= c -> c + FBLOCKSIZE + size_of s c < 2 ^ 64 ->
  (forall p, last pre = Some p -> block_end s p <= c) ->
  (forall y, hd_error post = Some y -> c + FBLOCKSIZE + size_of s c < y) ->
  (length pre < fuel)%nat ->
  exists s',
    internal_myalloc fuel s n = Ret (s', PAYLOAD c) /\
    well_linked s' (pre ++ (c + FBLOCKSIZE + round_up n) :: post) /\
    size_of s' c = round_up n /\ is_allocated s' c = 1 /\
    size_of s' (c + FBLOCKSIZE + round_up n)
      = size_of s c - round_up n - FBLOCKSIZE /\
    is_allocated s' (c + FBLOCKSIZE + round_up n) = 0 /\
    block_end s' (c + FBLOCKSIZE + round_up n) = block_end s c /\
    brk s' = brk s /\
    (forall x, x ∈ pre ++ post -> size_of s' x = size_of s x).
Proof. exact (first_fit_split fuel s n pre post c). Qed.

(** X10.  A request whose first fit is handed out whole.  When the first
    node c that is not smaller than the rounded request r has fewer than
    r + FBLOCKSIZE + MIN_SPLIT_REMAINDER bytes, internal_myalloc returns
    the payload of c without splitting it: below r + MIN_SPLIT_REMAINDER
    by the test of the scan, and from there on by split_block, whose
    leftover is below MIN_SPLIT_REMAINDER.  The free list loses c and stays
    linked in both directions, the size of c is unchanged, c is marked
    allocated, the break does not move and the sizes of the other nodes are
    unchanged. *)
Theorem first_fit_below_the_split_threshold_is_whole
    (fuel : nat) (s : state) (n : Z) (pre post : list Z) (c : Z) :
  0 < n <= SIZE_MAX - 63 ->
  well_linked s (pre ++ c :: post) ->
  headers_in_order (pre ++ c :: post) ->
  Forall (fun a => size_of s a < round_up n) pre ->
  round_up n <= size_of s c < round_up n + FBLOCKSIZE + MIN_SPLIT_REMAINDER ->
  size_of s c < 2 ^ 64 ->
  (length pre < fuel)%nat ->
  exists s',
    internal_myalloc fuel s n = Ret (s', PAYLOAD c) /\
    well_linked s' (pre ++ post) /\
    size_of s' c = size_of s c /\ is_allocated s' c = 1 /\
    brk s' = brk s /\
    (forall x, x ∈ pre ++ post -> size_of s' x = size_of s x).
Proof. exact (first_fit_whole fuel s n pre post c). Qed.

(** ** Requests that no free block serves *)

(** After a scan that finds no fitting node, when the last node does not
    end at the break (or there is none), internal_myalloc is new_block. *)
Lemma internal_myalloc_new_block (fuel : nat) (s : state) (n : Z) (l : list Z) :
  0 < n ->
  free_list s l ->
  Forall (fun a => size_of s a < round_up n) l ->
  (length l <= fuel)%nat ->
  (forall b, last l = Some b ->
             add64 (add64 b (size_of s b)) FBLOCKSIZE <> brk s) ->
  internal_myalloc fuel s n =
  new_block (log_sbrk (init_heap_if_needed s) 0 (Some (brk s))) (round_up n).
Proof.
  intros Hn Hfl Hsmall Hfuel Hlast. unfold internal_myalloc.
  assert ((n <=? 0) = false) as -> by (by apply Z.leb_gt).
  rewrite (alloc_loop_no_fit fuel fuel _ (round_up n) l).
  - rewrite sbrk_zero, init_heap_if_needed_brk.
    destruct (last l) as [b |] eqn:Hb; simpl; [| reflexivity].
    destruct (b =? NULL); [reflexivity |]. cbn [negb].
    change (size_of (log_sbrk (init_heap_if_needed s) 0 (Some (brk s))) b)
      with (size_of (init_heap_if_needed s) b).
    unfold size_of at 1. rewrite load_init_heap_if_needed.
    fold (size_of s b).
    specialize (Hlast b eq_refl). apply Z.eqb_neq in Hlast.
    by rewrite Hlast.
  - unfold free_list. rewrite init_heap_if_needed_head.
    apply (walk_same_mem s); [apply init_heap_if_needed_mem | done].
  - eapply Forall_impl; [exact Hsmall |]. intros a Ha; simpl.
    unfold size_of. by rewrite load_init_heap_if_needed.
  - done.
Qed.

(** A request that no free block serves gets a new block at the break,
    when the kernel grants it. *)
Lemma new_block_carved
    (fuel : nat) (s : state) (n : Z) (l : list Z) :
  0 < n <= INTPTR_MAX - 63 ->
  free_list s l ->
  Forall (fun a => size_of s a < round_up n) l ->
  (length l <= fuel)%nat ->
  (forall b, last l = Some b ->
             add64 (add64 b (size_of s b)) FBLOCKSIZE <> brk s) ->
  0 <= brk s -> brk_max s < 2 ^ 64 ->
  brk_min s <= brk s + FBLOCKSIZE + round_up n <= brk_max s ->
  exists s',
    internal_myalloc fuel s n = Ret (s', PAYLOAD (brk s)) /\
    PAYLOAD (brk s) = brk s + FBLOCKSIZE /\
    brk s' = brk s + FBLOCKSIZE + round_up n /\
    size_of s' (brk s) = round_up n /\
    is_allocated s' (brk s) = 1 /\
    head s' = head s /\
    (forall a, a <> brk s -> a <> brk s + 8 -> load s' a = load s a) /\
    (Forall (fun a => a + FBLOCKSIZE <= brk s) l -> free_list s' l) /\
    (brk s mod ALIGNMENT = 0 ->
     PAYLOAD (brk s) mod ALIGNMENT = 0 /\ brk s' mod ALIGNMENT = 0).
Proof.
  unfold INTPTR_MAX, FBLOCKSIZE.
  intros Hn Hfl Hsmall Hfuel Hlast Hbrk Hmax Hroom.
  pose proof (round_up_bounds n ltac:(unfold SIZE_MAX; lia)) as Hr.
  pose proof (round_up_aligned n) as Hal.
  rewrite (internal_myalloc_new_block fuel s n l) by (done || lia).
  unfold new_block.
  assert (Hsum : add64 (round_up n) FBLOCKSIZE = round_up n + 32).
  { unfold add64, FBLOCKSIZE. apply wrap_small. lia. }
  rewrite Hsum.
  assert ((round_up n + 32 >? INTPTR_MAX) = false) as ->.
  { unfold INTPTR_MAX. rewrite Z.gtb_ltb. apply Z.ltb_ge.
    unfold ALIGNMENT in Hal.
    pose proof (Z.div_mod (round_up n) 32 ltac:(lia)). lia. }
  unfold to_intptr.
  assert ((round_up n + 32 <=? INTPTR_MAX) = true) as ->.
  { unfold INTPTR_MAX. apply Z.leb_le.
    unfold ALIGNMENT in Hal.
    pose proof (Z.div_mod (round_up n) 32 ltac:(lia)). lia. }
  unfold sbrk.
  assert ((round_up n + 32 =? 0) = false) as -> by (apply Z.eqb_neq; lia).
  cbn [brk brk_min brk_max log_sbrk].
  rewrite init_heap_if_needed_brk.
  destruct (init_heap_if_needed_limits s) as [-> ->].
  assert ((brk_min s <=? brk s + (round_up n + 32))
          && (brk s + (round_up n + 32) <=? brk_max s) = true) as ->.
  { apply andb_true_iff. split; apply Z.leb_le; lia. }
  assert ((brk s =? SBRK_FAILED) = false) as ->.
  { apply Z.eqb_neq. unfold SBRK_FAILED. rewrite <- (wrap_small (brk s)) by lia.
    intros Heq. symmetry in Heq. unfold wrap in Heq.
    change ((-1) mod 2 ^ 64) with (2 ^ 64 - 1) in Heq.
    rewrite Z.mod_small in Heq by lia. lia. }
  eexists. split; [reflexivity |].
  assert (Hpay : PAYLOAD (brk s) = brk s + 32).
  { unfold PAYLOAD, add64, FBLOCKSIZE. apply wrap_small. lia. }
  split_and!.
  - exact Hpay.
  - cbn [brk set_is_allocated set_size store set_mem set_brk]. lia.
  - unfold size_of, set_is_allocated, set_size.
    rewrite load_store_ne by lia. apply load_store_eq.
  - apply is_allocated_set_is_allocated; lia.
  - cbn [head set_is_allocated set_size store set_mem set_brk log_sbrk].
    apply init_heap_if_needed_head.
  - intros a H0 H8. unfold set_is_allocated, set_size.
    rewrite !load_store_ne by lia.
    rewrite load_set_brk, !load_log_sbrk. apply load_init_heap_if_needed.
  - intros Hbelow. unfold free_list.
    cbn [head set_is_allocated set_size store set_mem set_brk log_sbrk].
    rewrite init_heap_if_needed_head.
    apply (walk_agree s); [done |].
    eapply Forall_impl; [exact Hbelow |]. simpl. intros x Hx.
    unfold next_of, set_is_allocated, set_size.
    rewrite !load_store_ne by lia.
    rewrite load_set_brk, !load_log_sbrk. apply load_init_heap_if_needed.
  - unfold ALIGNMENT in *. intros Halign. rewrite Hpay.
    cbn [brk set_is_allocated set_size store set_mem set_brk].
    split.
    + rewrite Z.add_mod, Halign by lia. reflexivity.
    + rewrite Z.add_mod, Halign, (Z.add_mod (round_up n)), Hal by lia.
      reflexivity.
Qed.

(** X11.  A request that no free block serves gets a new block at the
    break.  The request has at most INTPTR_MAX - 63 bytes; every node of
    the null-terminated free list is smaller than the rounded request r;
    the last node, if there is one, does not end at the break; the kernel
    grants a break that is FBLOCKSIZE + r higher.  Then internal_myalloc
    returns the payload of the block at the old break, which is the old
    break plus FBLOCKSIZE; the break has risen by FBLOCKSIZE + r; the
    header at the old break holds the size r and is marked allocated; the
    head and every other cell are unchanged, and so is a free list whose
    headers lie below the old break; when the old break is a multiple of
    ALIGNMENT, so are the pointer returned and the new break. *)
Theorem new_block_is_carved_at_the_break
    (fuel : nat) (s : state) (n : Z) (l : list Z) :
  0 < n <= INTPTR_MAX - 63 ->
  free_list s l ->
  Forall (fun a => size_of s a < round_up n) l ->
  (length l <= fuel)%nat ->
  (forall b, last l = Some b ->
             add64 (add64 b (size_of s b)) FBLOCKSIZE <> brk s) ->
  0 <= brk s -> brk_max s < 2 ^ 64 ->
  brk_min s <= brk s + FBLOCKSIZE + round_up n <= brk_max s ->
  exists s',
    internal_myalloc fuel s n = Ret (s', PAYLOAD (brk s)) /\
    PAYLOAD (brk s) = brk s + FBLOCKSIZE /\
    brk s' = brk s + FBLOCKSIZE + round_up n /\
    size_of s' (brk s) = round_up n /\
    is_allocated s' (brk s) = 1 /\
    head s' = head s /\
    (forall a, a <> brk s -> a <> brk s + 8 -> load s' a = load s a) /\
    (Forall (fun a => a + FBLOCKSIZE <= brk s) l -> free_list s' l) /\
    (brk s mod ALIGNMENT = 0 ->
     PAYLOAD (brk s) mod ALIGNMENT = 0 /\ brk s' mod ALIGNMENT = 0).
Proof. exact (new_block_carved fuel s n l). Qed.

(** X12.  The overflow check of the branches that carve a new block.  A
    request n with INTPTR_MAX - 63 < n <= SIZE_MAX - 63 that no node of the
    null-terminated free list serves, when the last node does not end at
    the break, is refused by the test size + FBLOCKSIZE > INTPTR_MAX:
    internal_myalloc returns NULL, the head, the memory and the break are
    unchanged, and sbrk has only been asked for the break, with the
    increment 0. *)
Theorem oversized_request_is_refused
    (fuel : nat) (s : state) (n : Z) (l : list Z) :
  INTPTR_MAX - 63 < n <= SIZE_MAX - 63 ->
  free_list s l ->
  Forall (fun a => size_of s a < round_up n) l ->
  (length l <= fuel)%nat ->
  (forall b, last l = Some b ->
             add64 (add64 b (size_of s b)) FBLOCKSIZE <> brk s) ->
  exists s',
    internal_myalloc fuel s n = Ret (s', NULL) /\
    head s' = head s /\ mem s' = mem s /\ brk s' = brk s /\
    exists calls,
      sbrk_log s' = calls ++ sbrk_log s /\
      Forall (fun call => call = (0, Some (brk s))) calls.
Proof.
  unfold INTPTR_MAX, SIZE_MAX.
  intros Hn Hfl Hsmall Hfuel Hlast.
  pose proof (round_up_bounds n ltac:(unfold SIZE_MAX; lia)) as Hr.
  pose proof (round_up_aligned n) as Hal. unfold ALIGNMENT in Hal.
  pose proof (Z.div_mod (round_up n) 32 ltac:(lia)) as Hdiv.
  rewrite (internal_myalloc_new_block fuel s n l) by (done || lia).
  unfold new_block.
  assert (Hsum : add64 (round_up n) FBLOCKSIZE = round_up n + 32).
  { unfold add64, FBLOCKSIZE. apply wrap_small. lia. }
  rewrite Hsum.
  assert ((round_up n + 32 >? INTPTR_MAX) = true) as ->.
  { unfold INTPTR_MAX. rewrite Z.gtb_ltb. apply Z.ltb_lt. lia. }
  eexists. split; [reflexivity |].
  cbn [head mem brk log_sbrk sbrk_log].
  rewrite init_heap_if_needed_head, init_heap_if_needed_mem,
    init_heap_if_needed_brk.
  split_and!; [done .. |].
  unfold init_heap_if_needed. destruct (heap_initialized s).
  - exists [(0, Some (brk s))]. split; [done |]. by repeat constructor.
  - exists [(0, Some (brk s)); (0, Some (brk s))].
    split; [done |]. by repeat constructor.
Qed.

(** A request that no free block serves fails when the kernel refuses the
    new break. *)
Lemma new_block_refused (fuel : nat) (s : state) (n : Z) (l : list Z) :
  0 < n <= INTPTR_MAX - 63 ->
  free_list s l ->
  Forall (fun a => size_of s a < round_up n) l ->
  (length l <= fuel)%nat ->
  (forall b, last l = Some b ->
             add64 (add64 b (size_of s b)) FBLOCKSIZE <> brk s) ->
  ~ (brk_min s <= brk s + FBLOCKSIZE + round_up n <= brk_max s) ->
  exists s',
    internal_myalloc fuel s n = Ret (s', NULL) /\
    head s' = head s /\ (forall a, load s' a = load s a) /\ brk s' = brk s.
Proof.
  unfold INTPTR_MAX, FBLOCKSIZE.
  intros Hn Hfl Hsmall Hfuel Hlast Hroom.
  pose proof (round_up_bounds n ltac:(unfold SIZE_MAX; lia)) as Hr.
  pose proof (round_up_aligned n) as Hal. unfold ALIGNMENT in Hal.
  pose proof (Z.div_mod (round_up n) 32 ltac:(lia)) as Hdiv.
  rewrite (internal_myalloc_new_block fuel s n l) by (done || lia).
  unfold new_block.
  assert (Hsum : add64 (round_up n) FBLOCKSIZE = round_up n + 32).
  { unfold add64, FBLOCKSIZE. apply wrap_small. lia. }
  rewrite Hsum.
  assert ((round_up n + 32 >? INTPTR_MAX) = false) as ->.
  { unfold INTPTR_MAX. rewrite Z.gtb_ltb. apply Z.ltb_ge. lia. }
  unfold to_intptr.
  assert ((round_up n + 32 <=? INTPTR_MAX) = true) as ->.
  { unfold INTPTR_MAX. apply Z.leb_le. lia. }
  unfold sbrk.
  assert ((round_up n + 32 =? 0) = false) as -> by (apply Z.eqb_neq; lia).
  cbn [brk brk_min brk_max log_sbrk].
  rewrite init_heap_if_needed_brk.
  destruct (init_heap_if_needed_limits s) as [-> ->].
  assert ((brk_min s <=? brk s + (round_up n + 32))
          && (brk s + (round_up n + 32) <=? brk_max s) = false) as ->.
  { apply andb_false_iff.
    destruct (Z_le_gt_dec (brk_min s) (brk s + (round_up n + 32)));
      [right | left]; apply Z.leb_gt; lia. }
  assert ((SBRK_FAILED =? SBRK_FAILED) = true) as -> by apply Z.eqb_refl.
  eexists. split; [reflexivity |].
  cbn [head brk log_sbrk].
  rewrite init_heap_if_needed_head, init_heap_if_needed_brk.
  split_and!; [done | | done].
  intros a. rewrite !load_log_sbrk. apply load_init_heap_if_needed.
Qed.

(** After a scan that finds no fitting node, when the last node ends at
    the break, internal_myalloc asks the kernel for the difference. *)
Lemma internal_myalloc_tail (fuel : nat) (s : state) (n : Z) (l : list Z) (b : Z) :
  0 < n ->
  free_list s (l ++ [b]) ->
  Forall (fun a => size_of s a < round_up n) (l ++ [b]) ->
  (length (l ++ [b]) <= fuel)%nat ->
  add64 (add64 b (size_of s b)) FBLOCKSIZE = brk s ->
  internal_myalloc fuel s n =
  let s1 := log_sbrk (init_heap_if_needed s) 0 (Some (brk s)) in
  let (s2, r) := sbrk s1 (to_intptr (sub64 (round_up n) (size_of s b))) in
  if r =? SBRK_FAILED then Ret (s2, NULL)
  else Ret (remove_from_list (set_size s2 b (round_up n)) b, PAYLOAD b).
Proof.
  intros Hn Hfl Hsmall Hfuel Hend. unfold internal_myalloc.
  assert ((n <=? 0) = false) as -> by (by apply Z.leb_gt).
  rewrite (alloc_loop_no_fit fuel fuel _ (round_up n) (l ++ [b])).
  - rewrite sbrk_zero, init_heap_if_needed_brk, last_snoc. simpl.
    assert (b <> NULL).
    { pose proof (walk_nodes_nonnull s _ _ _ Hfl) as Hnn.
      rewrite Forall_forall in Hnn. apply Hnn. apply elem_of_app. right. left. }
    eqb_false b NULL. cbn [negb].
    change (size_of (log_sbrk (init_heap_if_needed s) 0 (Some (brk s))) b)
      with (size_of (init_heap_if_needed s) b).
    unfold size_of at 1 3. rewrite !load_init_heap_if_needed.
    fold (size_of s b).
    apply Z.eqb_eq in Hend. by rewrite Hend.
  - unfold free_list. rewrite init_heap_if_needed_head.
    apply (walk_same_mem s); [apply init_heap_if_needed_mem | done].
  - eapply Forall_impl; [exact Hsmall |]. intros a Ha; simpl.
    unfold size_of. by rewrite load_init_heap_if_needed.
  - done.
Qed.

(** The last free block ends at the break and is too small: it is grown by
    the difference when the kernel grants it, and the request fails
    otherwise. *)
Lemma tail_block_grows (fuel : nat) (s : state) (n : Z) (l : list Z) (b : Z) :
  0 < n <= INTPTR_MAX - 63 ->
  well_linked s (l ++ [b]) ->
  headers_in_order (l ++ [b]) ->
  Forall (fun a => size_of s a < round_up n) (l ++ [b]) ->
  (length (l ++ [b]) <= fuel)%nat ->
  0 <= size_of s b ->
  add64 (add64 b (size_of s b)) FBLOCKSIZE = brk s ->
  0 <= brk s -> brk_max s < 2 ^ 64 ->
  (exists s',
     internal_myalloc fuel s n = Ret (s', NULL) /\
     head s' = head s /\ (forall a, load s' a = load s a) /\ brk s' = brk s) \/
  (exists s',
     internal_myalloc fuel s n = Ret (s', PAYLOAD b) /\
     well_linked s' l /\ size_of s' b = round_up n /\
     is_allocated s' b = 1 /\
     brk s' = brk s + (round_up n - size_of s b) /\
     (forall x, x ∈ l -> size_of s' x = size_of s x)).
Proof.
  unfold INTPTR_MAX.
  intros Hn Hwl Hord Hsmall Hfuel Hsb Hend Hbrk Hmax.
  pose proof (round_up_bounds n ltac:(unfold SIZE_MAX; lia)) as Hr.
  set (r := round_up n) in *.
  assert (Hb : size_of s b < r).
  { rewrite Forall_forall in Hsmall. apply Hsmall. apply elem_of_app.
    right. left. }
  rewrite (internal_myalloc_tail fuel s n l b) by (done || lia || apply Hwl).
  fold r. cbv zeta.
  assert (to_intptr (sub64 r (size_of s b)) = r - size_of s b) as ->.
  { unfold to_intptr, sub64. rewrite wrap_small by lia.
    assert ((r - size_of s b <=? INTPTR_MAX) = true) as ->
      by (apply Z.leb_le; unfold INTPTR_MAX; lia).
    done. }
  unfold sbrk.
  assert ((r - size_of s b =? 0) = false) as -> by (apply Z.eqb_neq; lia).
  cbn [brk brk_min brk_max log_sbrk].
  rewrite init_heap_if_needed_brk.
  destruct (init_heap_if_needed_limits s) as [-> ->].
  destruct ((brk_min s <=? brk s + (r - size_of s b))
            && (brk s + (r - size_of s b) <=? brk_max s)) eqn:Hroom.
  - right. apply andb_true_iff in Hroom as [_ Hroom]. apply Z.leb_le in Hroom.
    assert ((brk s =? SBRK_FAILED) = false) as ->.
    { apply Z.eqb_neq. unfold SBRK_FAILED. unfold wrap.
      change ((-1) mod 2 ^ 64) with (2 ^ 64 - 1). lia. }
    eexists. split; [reflexivity |].
    destruct (headers_in_order_facts _ _ _ Hord) as (Hl1 & _ & _ & _).
    set (s2 := set_brk _ _).
    assert (Hload2 : forall a, load s2 a = load s a).
    { intros a. unfold s2.
      rewrite load_set_brk, !load_log_sbrk. apply load_init_heap_if_needed. }
    assert (Hwl3 : well_linked (set_size s2 b r) (l ++ [b])).
    { apply (well_linked_agree s); [done | |].
      - cbn [head set_size store set_mem]. unfold s2.
        cbn [head set_brk log_sbrk]. apply init_heap_if_needed_head.
      - apply Forall_app. split.
        + eapply Forall_impl; [exact Hl1 |]. simpl. intros x [Hx _].
          unfold next_of, prev_of, set_size.
          rewrite !load_store_ne by lia. by rewrite !Hload2.
        + apply Forall_singleton. unfold next_of, prev_of, set_size.
          rewrite !load_store_ne by lia. by rewrite !Hload2. }
    assert (Hnn : b <> NULL).
    { destruct Hwl as [Hfl _].
      pose proof (walk_nodes_nonnull s _ _ _ Hfl) as Hnn.
      rewrite Forall_forall in Hnn. apply Hnn. apply elem_of_app. right. left. }
    assert (Hhead : head (set_size s2 b r) <> NULL).
    { destruct Hwl3 as [Hfl _].
      destruct (walk_start _ _ _ _ Hfl) as [_ ?]; [by destruct l | done]. }
    split_and!.
    + rewrite <- (app_nil_r l) at 1.
      by apply remove_from_list_well_linked.
    + rewrite (remove_from_list_sizes _ l [] b Hwl3 Hord)
        by (apply elem_of_app; right; left).
      unfold size_of, set_size. apply load_store_eq.
    + by apply remove_from_list_marks_allocated.
    + rewrite remove_from_list_brk. reflexivity.
    + intros x Hx.
      rewrite (remove_from_list_sizes _ l [] b Hwl3 Hord)
        by (apply elem_of_app; by left).
      rewrite Forall_forall in Hl1. destruct (Hl1 x Hx) as [Hxb _].
      unfold size_of, set_size. rewrite load_store_ne by lia. apply Hload2.
  - left.
    assert ((SBRK_FAILED =? SBRK_FAILED) = true) as -> by apply Z.eqb_refl.
    eexists. split; [reflexivity |].
    cbn [head brk log_sbrk].
    rewrite init_heap_if_needed_head, init_heap_if_needed_brk.
    split_and!; [done | | done].
    intros a. rewrite !load_log_sbrk. apply load_init_heap_if_needed.
Qed.

(** ** The break and the origin of the heap *)

(** X13.  The origin of the heap.  After a returning call of
    internal_myalloc with a positive size the origin is captured:
    heap_initialized is set, and heap_start is the value it had when it was
    already captured before the call, and the break at entry otherwise. *)
Theorem heap_start_is_captured_once (fuel : nat) (s s' : state) (n p : Z) :
  0 < n ->
  internal_myalloc fuel s n = Ret (s', p) ->
  heap_initialized s' = true /\
  heap_start s' = (if heap_initialized s then heap_start s else brk s).
Proof.
  intros Hn. unfold internal_myalloc.
  assert ((n <=? 0) = false) as -> by (by apply Z.leb_gt).
  set (s0 := init_heap_if_needed s).
  assert (H0 : heap_initialized s0 = true /\
               heap_start s0 = if heap_initialized s then heap_start s
                               else brk s).
  { unfold s0, init_heap_if_needed. by destruct (heap_initialized s) eqn:Hi. }
  destruct H0 as [Hi0 Hs0]. rewrite <- Hi0, <- Hs0. clearbody s0.
  intros H.
  destruct (alloc_loop fuel fuel s0 (round_up n) (head s0) NULL)
    as [r | prev] eqn:Hloop.
  { subst r. apply alloc_loop_same_break in Hloop as (_ & _ & _ & _ & ? & ?).
    done. }
  rewrite sbrk_zero in H.
  assert (Hnew : forall s1 s2 q,
            heap_initialized s1 = heap_initialized s0 ->
            heap_start s1 = heap_start s0 ->
            new_block s1 (round_up n) = Ret (s2, q) ->
            heap_initialized s2 = heap_initialized s0 /\
            heap_start s2 = heap_start s0).
  { intros s1 s2 q Hi1 Hs1. unfold new_block.
    destruct (_ >? INTPTR_MAX); [intros; by simplify_eq |].
    pose proof (sbrk_same_origin s1 (to_intptr (add64 (round_up n) FBLOCKSIZE)))
      as (Hs & Hi & _).
    destruct (sbrk s1 _) as [s3 region]. simpl in Hs, Hi.
    destruct (region =? SBRK_FAILED); intros; simplify_eq; simpl;
      split; congruence. }
  destruct (negb (prev =? NULL)); [| by eapply Hnew; [| | exact H]].
  destruct (_ =? brk s0); [| by eapply Hnew; [| | exact H]].
  match type of H with
  | context [sbrk ?x ?i] =>
      pose proof (sbrk_same_origin x i) as (Hs & Hi & _);
      destruct (sbrk x i) as [s3 r]
  end.
  simpl in Hs, Hi.
  destruct (r =? SBRK_FAILED); simplify_eq; [done |].
  destruct (remove_from_list_same_break (set_size s3 prev (round_up n)) prev)
    as (_ & _ & _ & _ & Hs' & Hi').
  simpl in Hs', Hi'. split; congruence.
Qed.

(** The node at which the scan of internal_myalloc ends is too small. *)
Lemma alloc_loop_last_is_small (fuel0 : nat) (s : state) (size : Z) :
  forall (fuel : nat) (curr prev last : Z),
    alloc_loop fuel0 fuel s size curr prev = inr last ->
    (prev = NULL \/ size_of s prev < size) ->
    last = NULL \/ size_of s last < size.
Proof.
  induction fuel as [| fuel IH]; intros curr prev last H Hprev; simpl in H.
  - destruct (curr =? NULL); by simplify_eq.
  - destruct (curr =? NULL); [by simplify_eq |].
    destruct (size <=? size_of s curr) eqn:Hle.
    + destruct (size_of s curr <? add64 size MIN_SPLIT_REMAINDER);
        simpl in H; discriminate.
    + simpl in H. apply (IH _ _ _ H). right. by apply Z.leb_gt.
Qed.

(** X14.  A call of internal_myalloc for at most INTPTR_MAX - 31 bytes
    never lowers the break, in a memory whose size fields are not negative
    (they are values of size_t): the break on return is not below the break
    at entry. *)
Theorem allocation_never_lowers_the_break
    (fuel : nat) (s s' : state) (n p : Z) :
  n <= INTPTR_MAX - 31 ->
  (forall a, 0 <= size_of s a) ->
  internal_myalloc fuel s n = Ret (s', p) ->
  brk s <= brk s'.
Proof.
  unfold INTPTR_MAX. intros Hn Hsizes. unfold internal_myalloc.
  destruct (n <=? 0) eqn:Hpos; [intros; simplify_eq; lia |].
  apply Z.leb_gt in Hpos.
  pose proof (round_up_bounds n ltac:(unfold SIZE_MAX; lia)) as Hr.
  pose proof (round_up_aligned n) as Hal. unfold ALIGNMENT in Hal.
  pose proof (Z.div_mod (round_up n) 32 ltac:(lia)) as Hdiv.
  set (r := round_up n) in *.
  pose proof (init_heap_if_needed_brk s) as Hbrk0.
  assert (Hsizes0 : forall a, 0 <= size_of (init_heap_if_needed s) a).
  { intros a. unfold size_of. rewrite load_init_heap_if_needed. apply Hsizes. }
  set (s0 := init_heap_if_needed s) in *.
  assert (Hsbrk : forall s1 i s2 q,
            0 <= i -> sbrk s1 i = (s2, q) -> brk s1 <= brk s2).
  { intros s1 i s2 q Hi. unfold sbrk.
    repeat case_match; intros; simplify_eq; simpl; lia. }
  assert (Hnew : forall s1 s2 q,
            new_block s1 r = Ret (s2, q) -> brk s1 <= brk s2).
  { intros s1 s2 q. unfold new_block.
    destruct (add64 r FBLOCKSIZE >? INTPTR_MAX) eqn:Hcheck;
      [intros; simplify_eq; lia |].
    assert (0 <= to_intptr (add64 r FBLOCKSIZE)) as Hi.
    { unfold to_intptr. pose proof (wrap_range (r + FBLOCKSIZE)).
      rewrite Z.gtb_ltb in Hcheck. apply Z.ltb_ge in Hcheck.
      assert ((add64 r FBLOCKSIZE <=? INTPTR_MAX) = true) as ->
        by (by apply Z.leb_le).
      unfold add64. lia. }
    destruct (sbrk s1 _) as [s3 region] eqn:Hs.
    pose proof (Hsbrk _ _ _ _ Hi Hs).
    destruct (region =? SBRK_FAILED); intros; simplify_eq; simpl; lia. }
  intros H.
  destruct (alloc_loop fuel fuel s0 r (head s0) NULL) as [res | prev] eqn:Hloop.
  { subst res. apply alloc_loop_same_break in Hloop as (Hb & _). lia. }
  apply alloc_loop_last_is_small in Hloop; [| by left].
  rewrite sbrk_zero in H.
  destruct (prev =? NULL) eqn:Hprev; cbn [negb] in H.
  { apply Hnew in H. simpl in H. lia. }
  destruct (_ =? brk s0); [| apply Hnew in H; simpl in H; lia].
  apply Z.eqb_neq in Hprev. destruct Hloop as [? | Hsmall]; [done |].
  change (size_of (log_sbrk s0 0 (Some (brk s0))) prev)
    with (size_of s0 prev) in H.
  assert (0 <= to_intptr (sub64 r (size_of s0 prev))) as Hi.
  { specialize (Hsizes0 prev). unfold to_intptr, sub64.
    rewrite wrap_small by lia.
    assert ((r - size_of s0 prev <=? INTPTR_MAX) = true) as ->
      by (apply Z.leb_le; unfold INTPTR_MAX; lia).
    lia. }
  destruct (sbrk _ _) as [s3 q] eqn:Hs.
  pose proof (Hsbrk _ _ _ _ Hi Hs) as Hle. simpl in Hle.
  destruct (q =? SBRK_FAILED); simplify_eq; [lia |].
  rewrite remove_from_list_brk. simpl. lia.
Qed.

(** X15.  myfree gives nothing back to the kernel: a returning call
    leaves the break where it was, has not called sbrk, and leaves the
    captured origin of the heap as it was. *)
Theorem myfree_keeps_the_break (fuel : nat) (s s' : state) (ptr : Z) :
  myfree fuel s ptr = Ret s' ->
  brk s' = brk s /\ sbrk_log s' = sbrk_log s /\
  heap_start s' = heap_start s /\ heap_initialized s' = heap_initialized s.
Proof.
  unfold myfree. intros H.
  assert (same_break s s') as (? & _ & _ & ? & ? & ?); [| done].
  destruct (ptr =? NULL); [simplify_eq; apply same_break_refl |].
  destruct (is_allocated s ptr =? 0); [discriminate |].
  by apply insert_to_list_same_break in H.
Qed.

(** ** Free blocks in order and apart *)

Lemma block_end_no_wrap (s : state) (a : Z) :
  0 <= a -> 0 <= size_of s a -> a + 32 + size_of s a < 2 ^ 64 ->
  block_end s a = a + 32 + size_of s a.
Proof.
  intros Ha Hs Hend. unfold block_end, add64, FBLOCKSIZE.
  rewrite (wrap_small (a + 32)) by lia. apply wrap_small. lia.
Qed.

Lemma blocks_apart_app (s : state) (l1 l2 : list Z) :
  blocks_apart s (l1 ++ l2) <->
  blocks_apart s l1 /\ blocks_apart s l2 /\
  (forall p c, last l1 = Some p -> hd_error l2 = Some c ->
               p + 32 + size_of s p < c).
Proof.
  unfold FBLOCKSIZE.
  induction l1 as [| a l1 IH]; simpl.
  - split; [intros H; split_and!; [done | done | intros; discriminate] |].
    by intros (_ & H & _).
  - unfold FBLOCKSIZE. rewrite IH. split.
    + intros (Ha & Hs & Hend & Hnext & H1 & H2 & H12).
      split_and!; try done.
      * intros b Hb. apply Hnext. destruct l1; simplify_eq/=. done.
      * intros p c Hp Hc. destruct l1 as [| a' l1].
        -- simplify_eq/=. by apply Hnext.
        -- apply H12; [| done]. by rewrite last_cons_cons in Hp.
    + intros ((Ha & Hs & Hend & Hnext & H1) & H2 & H12).
      split_and!; try done.
      * intros b Hb. destruct l1 as [| a' l1].
        -- simpl in Hb. by apply H12.
        -- simplify_eq/=. by apply Hnext.
      * intros p c Hp Hc. apply H12; [| done].
        destruct l1 as [| a' l1]; [done |]. by rewrite last_cons_cons.
Qed.

Lemma blocks_apart_later (s : state) (l : list Z) :
  forall a, blocks_apart s (a :: l) ->
            Forall (fun b => a + 32 + size_of s a < b) l.
Proof.
  induction l as [| b l IH]; intros a Ha; [constructor |].
  destruct Ha as (_ & _ & _ & Hnext & Hb). unfold FBLOCKSIZE in *.
  specialize (Hnext b eq_refl).
  constructor; [done |].
  pose proof Hb as (_ & Hsb & _).
  eapply Forall_impl; [exact (IH b Hb) |]. simpl. intros x Hx. lia.
Qed.

Lemma blocks_apart_headers (s : state) (l : list Z) :
  blocks_apart s l -> headers_in_order l.
Proof.
  induction l as [| a l IH]; intros H; [constructor |].
  apply headers_in_order_cons. split.
  - pose proof H as (_ & Hs & _).
    eapply Forall_impl; [exact (blocks_apart_later s l a H) |].
    simpl. intros x Hx. lia.
  - apply IH. by destruct H as (_ & _ & _ & _ & H).
Qed.

Lemma blocks_apart_agree (s s' : state) (l : list Z) :
  Forall (fun x => size_of s' x = size_of s x) l ->
  blocks_apart s l -> blocks_apart s' l.
Proof.
  induction l as [| a l IH]; intros Hl H; [done |].
  apply Forall_cons in Hl as [Ha Hl].
  destruct H as (H1 & H2 & H3 & H4 & H5). simpl. rewrite Ha.
  split_and!; [done .. | by apply IH].
Qed.

Lemma blocks_apart_bounds (s : state) (l : list Z) (x : Z) :
  blocks_apart s l -> x ∈ l ->
  0 < x /\ 0 <= size_of s x /\ x + 32 + size_of s x < 2 ^ 64.
Proof.
  induction l as [| a l IH]; intros H Hx; [inversion Hx |].
  destruct H as (H1 & H2 & H3 & _ & H5). unfold FBLOCKSIZE in *.
  apply elem_of_cons in Hx as [-> | Hx]; [done | by apply IH].
Qed.

Lemma blocks_apart_singleton (s : state) (a : Z) :
  blocks_apart s [a] <->
  0 < a /\ 0 <= size_of s a /\ a + 32 + size_of s a < 2 ^ 64.
Proof.
  simpl. unfold FBLOCKSIZE. split.
  - intros (? & ? & ? & _). done.
  - intros (? & ? & ?). split_and!; done.
Qed.

Lemma blocks_apart_last (s : state) (l : list Z) (p : Z) :
  blocks_apart s l -> last l = Some p ->
  Forall (fun x => x = p \/ x + 32 + size_of s x < p) l.
Proof.
  intros H Hlast. apply last_Some in Hlast as [l' ->].
  apply Forall_app. split; [| apply Forall_singleton; by left].
  induction l' as [| a l' IH]; [constructor |].
  constructor.
  - right. pose proof (blocks_apart_later s _ a H) as Hl.
    rewrite Forall_forall in Hl. apply Hl. apply elem_of_app. right. left.
  - apply IH. by destruct H as (_ & _ & _ & _ & H).
Qed.

(** A block that fits between the last node of l1 and the first of l2 has
    its header between their headers. *)
Lemma blocks_apart_insert_order (s : state) (new : Z) (l1 l2 : list Z) :
  blocks_apart s (l1 ++ l2) ->
  0 <= size_of s new ->
  (forall p, last l1 = Some p -> p + 32 + size_of s p <= new) ->
  (forall c, hd_error l2 = Some c -> new + 32 + size_of s new <= c) ->
  headers_in_order (l1 ++ new :: l2).
Proof.
  intros Hba Hsn Hp Hc.
  apply blocks_apart_app in Hba as (H1 & H2 & _).
  assert (Hl2 : Forall (fun y => new + 32 <= y) l2).
  { destruct l2 as [| c l2']; [constructor |].
    specialize (Hc c eq_refl). constructor; [lia |].
    pose proof H2 as (_ & Hsc & _).
    eapply Forall_impl; [exact (blocks_apart_later s _ c H2) |].
    simpl. intros y Hy. lia. }
  apply headers_in_order_app. split_and!.
  - by apply (blocks_apart_headers s).
  - apply headers_in_order_cons. split; [done |].
    by apply (blocks_apart_headers s).
  - destruct (last l1) as [p |] eqn:Hlast;
      [| apply last_None in Hlast as ->; constructor].
    specialize (Hp p eq_refl).
    pose proof (blocks_apart_last s l1 p H1 Hlast) as Hl1.
    rewrite Forall_forall in Hl1 |- *. intros x Hx.
    assert (0 <= size_of s x /\ 0 <= size_of s p) as [Hsx Hsp].
    { split; [by apply (blocks_apart_bounds s l1) |].
      apply (blocks_apart_bounds s l1); [done |]. by apply last_Some_elem_of. }
    assert (x + 32 <= new) by (destruct (Hl1 x Hx) as [-> | ?]; lia).
    constructor; [done |].
    eapply Forall_impl; [exact Hl2 |]. simpl. intros y Hy. lia.
Qed.

Lemma blocks_apart_around (s : state) (l1 l2 : list Z) (c : Z) :
  blocks_apart s (l1 ++ c :: l2) ->
  Forall (fun x => x + 32 + size_of s x < c) l1 /\
  Forall (fun y => c + 32 + size_of s c < y) l2.
Proof.
  intros H. pose proof H as H'.
  apply blocks_apart_app in H' as (H1 & H2 & H12). split.
  - destruct (last l1) as [p |] eqn:Hlast;
      [| apply last_None in Hlast as ->; constructor].
    specialize (H12 p c eq_refl eq_refl).
    pose proof (blocks_apart_last s l1 p H1 Hlast) as Hl1.
    eapply Forall_impl; [exact Hl1 |]. simpl. intros x [-> | Hx]; [done |].
    assert (0 <= size_of s p).
    { apply (blocks_apart_bounds s l1); [done |]. by apply last_Some_elem_of. }
    lia.
  - by apply blocks_apart_later.
Qed.

Lemma blocks_apart_remove (s : state) (l1 l2 : list Z) (c : Z) :
  blocks_apart s (l1 ++ c :: l2) -> blocks_apart s (l1 ++ l2).
Proof.
  intros H. pose proof (blocks_apart_around _ _ _ _ H) as [_ Hl2].
  apply blocks_apart_app in H as (H1 & H2 & H12).
  apply blocks_apart_app. split_and!; [done | by destruct H2 as (_ & _ & _ & _ & H2) |].
  intros p y Hp Hy. specialize (H12 p c Hp eq_refl).
  destruct H2 as (_ & Hsc & _).
  rewrite Forall_forall in Hl2.
  assert (c + 32 + size_of s c < y).
  { apply Hl2. destruct l2; simplify_eq/=. left. }
  lia.
Qed.

Lemma blocks_apart_below (s : state) (l : list Z) (top : Z) :
  blocks_apart s l ->
  (forall b, last l = Some b -> b + 32 + size_of s b <= top) ->
  Forall (fun x => x + 32 + size_of s x <= top) l.
Proof.
  intros H Htop.
  destruct (last l) as [p |] eqn:Hlast;
    [| apply last_None in Hlast as ->; constructor].
  specialize (Htop p eq_refl).
  pose proof (blocks_apart_last s l p H Hlast) as Hl.
  assert (0 <= size_of s p).
  { apply (blocks_apart_bounds s l); [done |]. by apply last_Some_elem_of. }
  eapply Forall_impl; [exact Hl |]. simpl. intros x [-> | Hx]; lia.
Qed.

Lemma covered_by_self (s s' : state) (x : Z) (l' : list Z) :
  x ∈ l' -> size_of s' x = size_of s x ->
  exists b, b ∈ l' /\ b <= x /\
            x + FBLOCKSIZE + size_of s x <= b + FBLOCKSIZE + size_of s' b.
Proof. intros Hx Hs. exists x. rewrite Hs. split_and!; [done | lia | lia]. Qed.

(** The scan of internal_myalloc stops at the first node that is not
    smaller than the request, or passes every node. *)
Lemma first_fit_decompose (s : state) (r : Z) (l : list Z) :
  Forall (fun a => size_of s a < r) l \/
  exists pre c post,
    l = pre ++ c :: post /\
    Forall (fun a => size_of s a < r) pre /\ r <= size_of s c.
Proof.
  induction l as [| a l IH]; [left; constructor |].
  destruct (Z_lt_le_dec (size_of s a) r) as [Hlt | Hle].
  - destruct IH as [Hall | (pre & c & post & -> & Hpre & Hc)].
    + left. by constructor.
    + right. exists (a :: pre), c, post. split_and!; [done | by constructor | done].
  - right. exists [], a, l. split_and!; [done | constructor | done].
Qed.

(** X20.  insert_to_list keeps the free blocks in order and apart.  The
    free list is l1 ++ l2, linked in both directions; its blocks lie in the
    address space in list order and each ends before the next one starts;
    the block new, of a size that is not negative, starts at or after the
    end of the last block of l1 and ends at or before the start of the
    first block of l2.  Then the call returns (the scan takes one unit of
    fuel for each node of l1) with a free list l' that is a sublist of
    l1 ++ new :: l2 and whose blocks again lie in order and apart, the
    neighbours that new touched being merged with it; every block of
    l1 ++ new :: l2 lies inside a block of l'; the block of l' that holds
    the header of new is marked free.  The list l' is linked backwards as
    well, unless new touched both its neighbours and the successor had a
    successor of its own. *)
Theorem insert_to_list_keeps_the_blocks_apart
    (fuel : nat) (s : state) (new : Z) (l1 l2 : list Z) :
  well_linked s (l1 ++ l2) ->
  blocks_apart s (l1 ++ l2) ->
  0 < new -> 0 <= size_of s new ->
  new + FBLOCKSIZE + size_of s new < 2 ^ 64 ->
  (forall p, last l1 = Some p -> p + FBLOCKSIZE + size_of s p <= new) ->
  (forall c, hd_error l2 = Some c -> new + FBLOCKSIZE + size_of s new <= c) ->
  (length l1 <= fuel)%nat ->
  exists s' l',
    insert_to_list fuel s new = Ret s' /\
    free_list s' l' /\ blocks_apart s' l' /\
    l' `sublist_of` l1 ++ new :: l2 /\
    covered_by s (l1 ++ new :: l2) s' l' /\
    (exists b, b ∈ l' /\ b <= new < b + FBLOCKSIZE + size_of s' b /\
               is_allocated s' b = 0) /\
    ((forall p c d l2', last l1 = Some p -> l2 = c :: d :: l2' ->
                        p + FBLOCKSIZE + size_of s p = new ->
                        new + FBLOCKSIZE + size_of s new = c -> False) ->
     back_linked s' NULL l').
Proof.
  unfold covered_by, FBLOCKSIZE.
  intros Hwl Hba Hnew Hsn Hne Hp Hc Hfuel.
  pose proof (blocks_apart_insert_order s new l1 l2 Hba Hsn Hp Hc) as Hord.
  assert (Hnewnull : new <> NULL) by (unfold NULL; lia).
  pose proof Hba as Hba'.
  apply blocks_apart_app in Hba' as (Hba1 & Hba2 & Hba12).
  pose proof (block_end_no_wrap s new ltac:(lia) Hsn Hne) as Hend_new.
  assert (Hbounds : forall x, x ∈ l1 ++ l2 ->
            0 < x /\ 0 <= size_of s x /\ x + 32 + size_of s x < 2 ^ 64).
  { intros x Hx. by apply (blocks_apart_bounds s (l1 ++ l2)). }
  assert (Hend : forall x, x ∈ l1 ++ l2 ->
                           block_end s x = x + 32 + size_of s x).
  { intros x Hx. destruct (Hbounds x Hx) as (? & ? & ?).
    apply block_end_no_wrap; lia. }
  assert (Hbt : (forall p, last l1 = Some p -> block_end s p <> new) \/
                exists l1' p, l1 = l1' ++ [p] /\ block_end s p = new).
  { destruct (last l1) as [p |] eqn:Hlast; [| left; intros; discriminate].
    destruct (decide (block_end s p = new)) as [Heq | Hneq].
    - right. apply last_Some in Hlast as [l1' ->]. eauto.
    - left. intros p' ?. by simplify_eq. }
  assert (Hft : (forall c, hd_error l2 = Some c -> block_end s new <> c) \/
                exists c l2', l2 = c :: l2' /\ block_end s new = c).
  { destruct l2 as [| c l2']; [left; intros; discriminate |].
    destruct (decide (block_end s new = c)) as [Heq | Hneq].
    - right. eauto.
    - left. intros c' ?. by simplify_eq/=. }
  destruct Hbt as [Hbt | (l1' & p & -> & Hbt)];
    destruct Hft as [Hft | (c & l2' & -> & Hft)].
  - (* no merge *)
    destruct (insert_to_list_apart_sizes fuel s new l1 l2 Hnewnull Hwl Hord
                Hfuel Hbt Hft) as (s' & Hrun & Hwl' & Hflag & Hsizes & _).
    exists s', (l1 ++ new :: l2). split_and!.
    + exact Hrun.
    + apply Hwl'.
    + apply (blocks_apart_agree s); [by apply Forall_forall |].
      apply blocks_apart_app. split_and!.
      * done.
      * simpl. unfold FBLOCKSIZE. split_and!; [done .. | | done].
        intros b Hb. specialize (Hc b Hb). specialize (Hft b Hb).
        rewrite Hend_new in Hft. lia.
      * intros p c Hlast Hhd. simpl in Hhd. simplify_eq.
        specialize (Hp p Hlast). specialize (Hbt p Hlast).
        rewrite Hend in Hbt; [lia |].
        apply elem_of_app. left. by apply last_Some_elem_of.
    + done.
    + intros x Hx. apply covered_by_self; [done | by apply Hsizes].
    + exists new. split_and!.
      * apply elem_of_app. right. left.
      * lia.
      * rewrite Hsizes; [lia |]. apply elem_of_app. right. left.
      * done.
    + intros _. apply Hwl'.
  - (* the successor is absorbed *)
    destruct (insert_to_list_forward_sizes fuel s new c l1 l2' Hnewnull Hwl
                Hord Hfuel Hft Hbt)
      as (s' & Hrun & Hwl' & Hsize & _ & Hflag & Hsizes).
    rewrite Hend_new in Hft.
    destruct (Hbounds c) as (Hc0 & Hsc & Hce);
      [apply elem_of_app; right; left |].
    assert (Hsize' : size_of s' new = size_of s new + size_of s c + 32).
    { rewrite Hsize. unfold add64, FBLOCKSIZE.
      rewrite (wrap_small (size_of s c + 32)) by lia.
      rewrite wrap_small by lia. lia. }
    destruct Hba2 as (_ & _ & _ & Hnext_c & Hba2). unfold FBLOCKSIZE in *.
    exists s', (l1 ++ new :: l2'). split_and!.
    + exact Hrun.
    + apply Hwl'.
    + apply blocks_apart_app. split_and!.
      * apply (blocks_apart_agree s); [| done].
        apply Forall_forall. intros x Hx. apply Hsizes.
        apply elem_of_app. by left.
      * simpl. unfold FBLOCKSIZE. rewrite Hsize'. split_and!; [lia .. | |].
        -- intros d Hd. specialize (Hnext_c d Hd). lia.
        -- apply (blocks_apart_agree s); [| done].
           apply Forall_forall. intros x Hx. apply Hsizes.
           apply elem_of_app. by right.
      * intros p c' Hlast Hhd. simpl in Hhd. simplify_eq.
        specialize (Hp p Hlast). specialize (Hbt p Hlast).
        assert (Hpin : p ∈ l1) by (by apply last_Some_elem_of).
        rewrite Hsizes by (apply elem_of_app; by left).
        rewrite Hend in Hbt by (apply elem_of_app; by left). lia.
    + apply sublist_app; [done |]. apply sublist_skip, sublist_cons. done.
    + intros x Hx.
      apply elem_of_app in Hx as [Hx | Hx];
        [| apply elem_of_cons in Hx as [-> | Hx];
           [| apply elem_of_cons in Hx as [-> | Hx]]].
      * apply covered_by_self; [apply elem_of_app; by left |].
        apply Hsizes. apply elem_of_app. by left.
      * exists new. split_and!; [apply elem_of_app; right; left | lia |].
        unfold FBLOCKSIZE. lia.
      * exists new. split_and!; [apply elem_of_app; right; left | lia |].
        unfold FBLOCKSIZE. lia.
      * apply covered_by_self; [apply elem_of_app; right; by right |].
        apply Hsizes. apply elem_of_app. by right.
    + exists new. split_and!; [apply elem_of_app; right; left | lia | lia |].
      done.
    + intros _. apply Hwl'.
  - (* the block is absorbed by its predecessor *)
    destruct (insert_to_list_backward fuel s new p l1' l2 Hnewnull Hwl Hord
                Hfuel Hbt Hft)
      as (s' & Hrun & Hwl' & Hsize & _ & Hflag & _ & Hsizes & _).
    destruct (Hbounds p) as (Hp0 & Hsp & Hpe);
      [apply elem_of_app; left; apply elem_of_app; right; left |].
    rewrite Hend in Hbt
      by (apply elem_of_app; left; apply elem_of_app; right; left).
    assert (Hsize' : size_of s' p = size_of s p + size_of s new + 32).
    { rewrite Hsize. unfold add64, FBLOCKSIZE.
      rewrite (wrap_small (size_of s new + 32)) by lia.
      rewrite wrap_small by lia. lia. }
    apply blocks_apart_app in Hba1 as (Hba1 & _ & Hba1p).
    exists s', ((l1' ++ [p]) ++ l2). split_and!.
    + exact Hrun.
    + apply Hwl'.
    + apply blocks_apart_app. split_and!.
      * apply blocks_apart_app. split_and!.
        -- apply (blocks_apart_agree s); [| done].
           apply Forall_forall. intros x Hx. apply Hsizes.
           apply elem_of_app. by left.
        -- apply blocks_apart_singleton. rewrite Hsize'. lia.
        -- intros q p' Hq Hp'. simpl in Hp'. simplify_eq.
           rewrite Hsizes
             by (apply elem_of_app; left; by apply last_Some_elem_of).
           by apply Hba1p.
      * apply (blocks_apart_agree s); [| done].
        apply Forall_forall. intros x Hx. apply Hsizes.
        apply elem_of_app. by right.
      * intros p' c Hlast Hhd. rewrite last_snoc in Hlast. simplify_eq.
        specialize (Hc c Hhd). specialize (Hft c Hhd).
        rewrite Hend_new in Hft. lia.
    + apply sublist_app; [done |]. by apply sublist_cons.
    + intros x Hx.
      apply elem_of_app in Hx as [Hx | Hx];
        [apply elem_of_app in Hx as [Hx | Hx] |
         apply elem_of_cons in Hx as [-> | Hx]].
      * apply covered_by_self;
          [apply elem_of_app; left; apply elem_of_app; by left |].
        apply Hsizes. apply elem_of_app. by left.
      * apply list_elem_of_singleton in Hx as ->.
        exists p. split_and!;
          [apply elem_of_app; left; apply elem_of_app; right; left | lia |].
        unfold FBLOCKSIZE. lia.
      * exists p. split_and!;
          [apply elem_of_app; left; apply elem_of_app; right; left | lia |].
        unfold FBLOCKSIZE. lia.
      * apply covered_by_self; [apply elem_of_app; by right |].
        apply Hsizes. apply elem_of_app. by right.
    + exists p. split_and!;
        [apply elem_of_app; left; apply elem_of_app; right; left
        | lia | lia | done].
    + intros _. apply Hwl'.
  - (* the block and its successor are absorbed by the predecessor *)
    destruct (insert_to_list_both fuel s new p c l1' l2' Hnewnull Hwl Hord
                Hfuel Hbt Hft)
      as (s' & Hrun & Hfl' & Hback' & _ & Hsize & _ & Hflag & Hsizes).
    destruct (Hbounds p) as (Hp0 & Hsp & Hpe);
      [apply elem_of_app; left; apply elem_of_app; right; left |].
    destruct (Hbounds c) as (Hc0 & Hsc & Hce);
      [apply elem_of_app; right; left |].
    rewrite Hend in Hbt
      by (apply elem_of_app; left; apply elem_of_app; right; left).
    rewrite Hend_new in Hft.
    assert (Hsize' : size_of s' p
                     = size_of s p + size_of s new + size_of s c + 64).
    { rewrite Hsize. unfold add64, FBLOCKSIZE.
      rewrite (wrap_small (size_of s c + 32)) by lia.
      rewrite (wrap_small (size_of s new + (size_of s c + 32))) by lia.
      rewrite (wrap_small (size_of s new + (size_of s c + 32) + 32)) by lia.
      rewrite wrap_small by lia. lia. }
    apply blocks_apart_app in Hba1 as (Hba1 & _ & Hba1p).
    destruct Hba2 as (_ & _ & _ & Hnext_c & Hba2). unfold FBLOCKSIZE in *.
    exists s', ((l1' ++ [p]) ++ l2'). split_and!.
    + exact Hrun.
    + exact Hfl'.
    + apply blocks_apart_app. split_and!.
      * apply blocks_apart_app. split_and!.
        -- apply (blocks_apart_agree s); [| done].
           apply Forall_forall. intros x Hx. apply Hsizes.
           apply elem_of_app. by left.
        -- apply blocks_apart_singleton. rewrite Hsize'. lia.
        -- intros q p' Hq Hp'. simpl in Hp'. simplify_eq.
           rewrite Hsizes
             by (apply elem_of_app; left; by apply last_Some_elem_of).
           by apply Hba1p.
      * apply (blocks_apart_agree s); [| done].
        apply Forall_forall. intros x Hx. apply Hsizes.
        apply elem_of_app. by right.
      * intros p' d Hlast Hhd. rewrite last_snoc in Hlast. simplify_eq.
        specialize (Hnext_c d Hhd). lia.
    + apply sublist_app; [done |]. by do 2 apply sublist_cons.
    + intros x Hx.
      apply elem_of_app in Hx as [Hx | Hx];
        [apply elem_of_app in Hx as [Hx | Hx] |
         apply elem_of_cons in Hx as [-> | Hx];
         [| apply elem_of_cons in Hx as [-> | Hx]]].
      * apply covered_by_self;
          [apply elem_of_app; left; apply elem_of_app; by left |].
        apply Hsizes. apply elem_of_app. by left.
      * apply list_elem_of_singleton in Hx as ->.
        exists p. split_and!;
          [apply elem_of_app; left; apply elem_of_app; right; left | lia |].
        unfold FBLOCKSIZE. lia.
      * exists p. split_and!;
          [apply elem_of_app; left; apply elem_of_app; right; left | lia |].
        unfold FBLOCKSIZE. lia.
      * exists p. split_and!;
          [apply elem_of_app; left; apply elem_of_app; right; left | lia |].
        unfold FBLOCKSIZE. lia.
      * apply covered_by_self; [apply elem_of_app; by right |].
        apply Hsizes. apply elem_of_app. by right.
    + exists p. split_and!;
        [apply elem_of_app; left; apply elem_of_app; right; left
        | lia | lia | done].
    + intros Hno. destruct l2' as [| d l2''].
      * by rewrite app_nil_r.
      * exfalso. apply (Hno p c d l2''); [apply last_snoc | done | lia | lia].
Qed.

(** X21.  internal_myalloc keeps the free blocks in order and apart, and
    hands out only memory that was free or lies above the old break.  The
    request has at most INTPTR_MAX - 63 bytes; the free list l is linked in
    both directions; its blocks lie in order and apart, and the last one
    ends at or below the break; the break is positive and the kernel's
    limit is an address.  Then the call returns (given a unit of fuel for
    each node) with a free list l' that is linked in both directions and
    whose blocks lie in order, apart and below the break; every block of l'
    lies inside a block of l; the break has not fallen.  Either the result
    is NULL, and the list, the break and every memory cell are unchanged;
    or it is the payload of a block b that is marked allocated, holds at
    least n bytes, ends at or below the break and overlaps no block of l',
    and every address of b, header included, was inside a block of l or at
    or above the break at entry. *)
Theorem internal_myalloc_keeps_the_blocks_apart
    (fuel : nat) (s : state) (n : Z) (l : list Z) :
  n <= INTPTR_MAX - 63 ->
  well_linked s l ->
  blocks_apart s l ->
  (forall b, last l = Some b -> b + FBLOCKSIZE + size_of s b <= brk s) ->
  0 < brk s -> brk_max s < 2 ^ 64 ->
  (length l <= fuel)%nat ->
  exists s' p l',
    internal_myalloc fuel s n = Ret (s', p) /\
    well_linked s' l' /\ blocks_apart s' l' /\
    (forall b, last l' = Some b -> b + FBLOCKSIZE + size_of s' b <= brk s') /\
    covered_by s' l' s l /\
    brk s <= brk s' /\
    ((p = NULL /\ l' = l /\ brk s' = brk s /\
      forall a, load s' a = load s a) \/
     exists b,
       p = b + FBLOCKSIZE /\ 0 < b /\ is_allocated s' b = 1 /\
       n <= size_of s' b /\
       b + FBLOCKSIZE + size_of s' b <= brk s' /\
       Forall (fun x => x + FBLOCKSIZE + size_of s' x <= b \/
                        b + FBLOCKSIZE + size_of s' b <= x) l' /\
       (forall a, b <= a < b + FBLOCKSIZE + size_of s' b ->
                  brk s <= a \/
                  exists c, c ∈ l /\ c <= a < c + FBLOCKSIZE + size_of s c)).
Proof.
  unfold covered_by, INTPTR_MAX, FBLOCKSIZE.
  intros Hn Hwl Hba Hlast Hbrk Hmax Hfuel.
  assert (Hsame : forall s',
            internal_myalloc fuel s n = Ret (s', NULL) ->
            head s' = head s -> (forall a, load s' a = load s a) ->
            brk s' = brk s ->
            exists s' p l',
              internal_myalloc fuel s n = Ret (s', p) /\
              well_linked s' l' /\ blocks_apart s' l' /\
              (forall b, last l' = Some b -> b + 32 + size_of s' b <= brk s') /\
              (forall x, x ∈ l' ->
                 exists b, b ∈ l /\ b <= x /\
                           x + 32 + size_of s' x <= b + 32 + size_of s b) /\
              brk s <= brk s' /\
              ((p = NULL /\ l' = l /\ brk s' = brk s /\
                forall a, load s' a = load s a) \/
               exists b,
                 p = b + 32 /\ 0 < b /\ is_allocated s' b = 1 /\
                 n <= size_of s' b /\
                 b + 32 + size_of s' b <= brk s' /\
                 Forall (fun x => x + 32 + size_of s' x <= b \/
                                  b + 32 + size_of s' b <= x) l' /\
                 (forall a, b <= a < b + 32 + size_of s' b ->
                    brk s <= a \/
                    exists c, c ∈ l /\ c <= a < c + 32 + size_of s c))).
  { intros s' Hrun Hh Hl Hb. exists s', NULL, l. split_and!.
    - done.
    - apply (well_linked_agree s); [done | done |].
      apply Forall_forall. intros x _. unfold next_of, prev_of.
      by rewrite !Hl.
    - apply (blocks_apart_agree s); [| done].
      apply Forall_forall. intros x _. unfold size_of. apply Hl.
    - intros b Hb'. unfold size_of. rewrite Hl, Hb. by apply Hlast.
    - intros x Hx. exists x. unfold size_of. rewrite Hl.
      split_and!; [done | lia | lia].
    - lia.
    - left. done. }
  destruct (Z_le_gt_dec n 0) as [Hn0 | Hn0].
  { apply (Hsame s); try done. unfold internal_myalloc.
    by rewrite (proj2 (Z.leb_le n 0)). }
  pose proof (round_up_bounds n ltac:(unfold SIZE_MAX; lia)) as Hr.
  set (r := round_up n) in *.
  pose proof (blocks_apart_headers s l Hba) as Hord.
  pose proof (blocks_apart_below s l (brk s) Hba Hlast) as Hbelow.
  rewrite Forall_forall in Hbelow.
  pose proof (blocks_apart_bounds s l) as Hbounds.
  specialize (fun x => Hbounds x Hba).
  destruct (first_fit_decompose s r l)
    as [Hsmall | (pre & c & post & -> & Hpre & Hc)].
  - (* no node serves the request *)
    assert (Hcases :
      (exists l0 b, l = l0 ++ [b] /\
                    add64 (add64 b (size_of s b)) FBLOCKSIZE = brk s) \/
      (forall b, last l = Some b ->
                 add64 (add64 b (size_of s b)) FBLOCKSIZE <> brk s)).
    { destruct (last l) as [b |] eqn:Hl; [| right; intros; discriminate].
      destruct (Z.eq_dec (add64 (add64 b (size_of s b)) FBLOCKSIZE) (brk s))
        as [Heq | Hne].
      - left. apply last_Some in Hl as [l0 ->]. by exists l0, b.
      - right. intros b' Hb'. by simplify_eq. }
    destruct Hcases as [(l0 & b & -> & Hend) | Hnt].
    + (* the last node ends at the break *)
      destruct (Hbounds b) as (Hb0 & Hsb & Hbend);
        [apply elem_of_app; right; left |].
      assert (Hend' : b + 32 + size_of s b = brk s).
      { rewrite <- Hend. unfold add64, FBLOCKSIZE.
        rewrite (wrap_small (b + size_of s b)) by lia.
        rewrite wrap_small by lia. lia. }
      assert (Hb : size_of s b < r).
      { rewrite Forall_forall in Hsmall. apply Hsmall. apply elem_of_app.
        right. left. }
      pose proof (blocks_apart_around s l0 [] b Hba) as [Hl0 _].
      rewrite Forall_forall in Hl0.
      assert (Hn' : 0 < n <= INTPTR_MAX - 63) by (unfold INTPTR_MAX; lia).
      destruct (tail_block_grows fuel s n l0 b Hn' Hwl Hord Hsmall Hfuel Hsb
                  Hend ltac:(lia) Hmax)
        as [(s' & Hrun & Hh & Hl & Hb') |
            (s' & Hrun & Hwl' & Hsb' & Hflag & Hbrk' & Hsizes)];
        [by apply (Hsame s') |].
      exists s', (PAYLOAD b), l0.
      assert (Hpay : PAYLOAD b = b + 32).
      { unfold PAYLOAD, add64, FBLOCKSIZE. apply wrap_small. lia. }
      apply blocks_apart_app in Hba as (Hba0 & _ & _).
      split_and!.
      * done.
      * done.
      * apply (blocks_apart_agree s); [| done].
        apply Forall_forall. exact Hsizes.
      * intros q Hq. apply last_Some_elem_of in Hq.
        rewrite (Hsizes q Hq). specialize (Hl0 q Hq). lia.
      * intros x Hx. exists x. rewrite (Hsizes x Hx).
        split_and!; [apply elem_of_app; by left | lia | lia].
      * lia.
      * right. exists b. fold r in Hsb'. rewrite Hsb'.
        split_and!; [done | done | done | lia | lia | |].
        -- apply Forall_forall. intros x Hx. left.
           rewrite (Hsizes x Hx). specialize (Hl0 x Hx). lia.
        -- intros a Ha. destruct (Z_lt_le_dec a (brk s)); [right | by left].
           exists b. split; [apply elem_of_app; right; left | lia].
    + (* it does not, or there is none *)
      destruct (decide (brk_min s <= brk s + FBLOCKSIZE + round_up n <= brk_max s))
        as [Hroom | Hroom].
      * assert (Hn' : 0 < n <= INTPTR_MAX - 63) by (unfold INTPTR_MAX; lia).
        destruct (new_block_carved fuel s n l Hn' (proj1 Hwl) Hsmall Hfuel
                    Hnt ltac:(lia) Hmax Hroom)
          as (s' & Hrun & Hpay & Hbrk' & Hsz & Hflag & Hh & Hframe & _).
        unfold FBLOCKSIZE in *. fold r in Hbrk', Hsz.
        assert (Hcells : forall x a, x ∈ l -> x <= a < x + 32 ->
                                     load s' a = load s a).
        { intros x a Hx Ha. specialize (Hbelow x Hx).
          destruct (Hbounds x Hx) as (_ & Hsx & _).
          apply Hframe; lia. }
        assert (Hsizes : forall x, x ∈ l -> size_of s' x = size_of s x).
        { intros x Hx. unfold size_of. apply (Hcells x); [done | lia]. }
        exists s', (PAYLOAD (brk s)), l. split_and!.
        -- done.
        -- apply (well_linked_agree s); [done | done |].
           apply Forall_forall. intros x Hx. unfold next_of, prev_of.
           split; apply (Hcells x); (done || lia).
        -- apply (blocks_apart_agree s); [| done].
           apply Forall_forall. exact Hsizes.
        -- intros q Hq. apply last_Some_elem_of in Hq.
           rewrite (Hsizes q Hq). specialize (Hbelow q Hq). lia.
        -- intros x Hx. exists x. rewrite (Hsizes x Hx).
           split_and!; [done | lia | lia].
        -- lia.
        -- right. exists (brk s). rewrite Hsz.
           split_and!; [done | done | done | lia | lia | |].
           ++ apply Forall_forall. intros x Hx. left.
              rewrite (Hsizes x Hx). by apply Hbelow.
           ++ intros a Ha. left. lia.
      * assert (Hn' : 0 < n <= INTPTR_MAX - 63) by (unfold INTPTR_MAX; lia).
        destruct (new_block_refused fuel s n l Hn' (proj1 Hwl) Hsmall Hfuel
                    Hnt Hroom)
          as (s' & Hrun & Hh & Hl & Hb').
        by apply (Hsame s').
  - (* c is the first fit *)
    destruct (Hbounds c) as (Hc0 & Hsc & Hcend);
      [apply elem_of_app; right; left |].
    pose proof (blocks_apart_around s pre post c Hba) as [Hbefore Hafter].
    rewrite Forall_forall in Hbefore, Hafter.
    assert (Hpay : PAYLOAD c = c + 32).
    { unfold PAYLOAD, add64, FBLOCKSIZE. apply wrap_small. lia. }
    assert (Hin : forall x, x ∈ pre ++ post -> x ∈ pre ++ c :: post).
    { intros x Hx. apply elem_of_app in Hx as [Hx | Hx]; apply elem_of_app;
        [by left | right; by right]. }
    assert (Hlen : (length pre < fuel)%nat).
    { rewrite length_app in Hfuel. simpl in Hfuel. lia. }
    destruct (Z_lt_le_dec (size_of s c) (r + 72)) as [Hwhole | Hsplit].
    + (* handed out whole *)
      assert (Hn' : 0 < n <= SIZE_MAX - 63) by (unfold SIZE_MAX; lia).
      assert (Hsize : round_up n <= size_of s c
                      < round_up n + FBLOCKSIZE + MIN_SPLIT_REMAINDER).
      { unfold FBLOCKSIZE, MIN_SPLIT_REMAINDER, POINTER_SIZE, FBLOCKSIZE.
        fold r. lia. }
      assert (Hsc64 : size_of s c < 2 ^ 64) by lia.
      destruct (first_fit_whole fuel s n pre post c Hn' Hwl Hord Hpre Hsize
                  Hsc64 Hlen)
        as (s' & Hrun & Hwl' & Hsc' & Hflag & Hbrk' & Hsizes).
      exists s', (PAYLOAD c), (pre ++ post). split_and!.
      * done.
      * done.
      * apply (blocks_apart_agree s); [by apply Forall_forall |].
        by apply (blocks_apart_remove s pre post c).
      * intros q Hq. apply last_Some_elem_of in Hq.
        rewrite (Hsizes q Hq), Hbrk'. apply Hbelow. by apply Hin.
      * intros x Hx. exists x. rewrite (Hsizes x Hx).
        split_and!; [by apply Hin | lia | lia].
      * lia.
      * right. exists c. rewrite Hsc'.
        assert (c + 32 + size_of s c <= brk s).
        { apply Hbelow. apply elem_of_app. right. left. }
        split_and!; [done | done | done | lia | lia | |].
        -- apply Forall_forall. intros x Hx. pose proof (Hsizes x Hx) as Hsx.
           apply elem_of_app in Hx as [Hx | Hx].
           ++ left. rewrite Hsx. specialize (Hbefore x Hx). lia.
           ++ right. specialize (Hafter x Hx). lia.
        -- intros a Ha. right. exists c.
           split; [apply elem_of_app; right; left | lia].
    + (* split *)
      assert (Hn' : 0 < n <= SIZE_MAX - 63) by (unfold SIZE_MAX; lia).
      assert (Hsize : round_up n + FBLOCKSIZE + MIN_SPLIT_REMAINDER
                      <= size_of s c).
      { unfold FBLOCKSIZE, MIN_SPLIT_REMAINDER, POINTER_SIZE, FBLOCKSIZE.
        fold r. lia. }
      assert (Hc0' : 0 <= c) by lia.
      assert (Hcend' : c + FBLOCKSIZE + size_of s c < 2 ^ 64)
        by (unfold FBLOCKSIZE; lia).
      assert (Hprev : forall p, last pre = Some p -> block_end s p <= c).
      { intros p Hp. apply last_Some_elem_of in Hp.
        destruct (Hbounds p) as (? & ? & ?); [apply elem_of_app; by left |].
        rewrite block_end_no_wrap by lia. specialize (Hbefore p Hp). lia. }
      assert (Hnext : forall y, hd_error post = Some y ->
                                c + FBLOCKSIZE + size_of s c < y).
      { intros y Hy. unfold FBLOCKSIZE. apply Hafter.
        destruct post; simplify_eq/=. left. }
      destruct (first_fit_split fuel s n pre post c Hn' Hwl Hord Hpre Hsize
                  Hc0' Hcend' Hprev Hnext Hlen)
        as (s' & Hrun & Hwl' & Hsc' & Hflag & Hsnew & Hfnew & Hendnew
            & Hbrk' & Hsizes).
      clear Hsize Hcend' Hnext.
      unfold FBLOCKSIZE in *. fold r in Hwl', Hsc', Hsnew, Hfnew, Hendnew.
      assert (Htop : c + 32 + size_of s c <= brk s).
      { apply Hbelow. apply elem_of_app. right. left. }
      pose proof Hba as Hba'.
      apply blocks_apart_app in Hba' as (Hba1 & Hba2 & Hba12).
      assert (Hall : forall x, x ∈ pre ++ (c + 32 + r) :: post ->
                x + 32 + size_of s' x <= brk s').
      { intros x Hx. rewrite Hbrk'.
        apply elem_of_app in Hx as [Hx | Hx];
          [| apply elem_of_cons in Hx as [-> | Hx]].
        - rewrite Hsizes by (apply elem_of_app; by left).
          apply Hbelow. apply elem_of_app. by left.
        - rewrite Hsnew. lia.
        - rewrite Hsizes by (apply elem_of_app; by right).
          apply Hbelow. apply elem_of_app. right. by right. }
      exists s', (PAYLOAD c), (pre ++ (c + 32 + r) :: post). split_and!.
      * done.
      * done.
      * apply blocks_apart_app. split_and!.
        -- apply (blocks_apart_agree s); [| done].
           apply Forall_forall. intros x Hx. apply Hsizes.
           apply elem_of_app. by left.
        -- simpl. unfold FBLOCKSIZE. rewrite Hsnew. split_and!.
           ++ lia.
           ++ lia.
           ++ lia.
           ++ intros y Hy.
              assert (c + 32 + size_of s c < y); [| lia].
              apply Hafter. destruct post; simplify_eq/=. left.
           ++ apply (blocks_apart_agree s);
                [| by destruct Hba2 as (_ & _ & _ & _ & ?)].
              apply Forall_forall. intros x Hx. apply Hsizes.
              apply elem_of_app. by right.
        -- intros p y Hp Hy. simpl in Hy. simplify_eq.
           apply last_Some_elem_of in Hp.
           rewrite Hsizes by (apply elem_of_app; by left).
           specialize (Hbefore p Hp). lia.
      * intros q Hq. apply last_Some_elem_of in Hq. by apply Hall.
      * intros x Hx. apply elem_of_app in Hx as [Hx | Hx];
          [| apply elem_of_cons in Hx as [-> | Hx]].
        -- exists x. rewrite Hsizes by (apply elem_of_app; by left).
           split_and!; [apply elem_of_app; by left | lia | lia].
        -- exists c. rewrite Hsnew.
           split_and!; [apply elem_of_app; right; left
                       | lia | lia].
        -- exists x. rewrite Hsizes by (apply elem_of_app; by right).
           split_and!; [apply elem_of_app; right; by right | lia | lia].
      * lia.
      * right. exists c. rewrite Hsc'.
        split_and!; [done | done | done | lia | lia | |].
        -- apply Forall_forall. intros x Hx.
           apply elem_of_app in Hx as [Hx | Hx];
             [| apply elem_of_cons in Hx as [-> | Hx]].
           ++ left. rewrite Hsizes by (apply elem_of_app; by left).
              specialize (Hbefore x Hx). lia.
           ++ right. lia.
           ++ right. specialize (Hafter x Hx). lia.
        -- intros a Ha. right. exists c.
           split; [apply elem_of_app; right; left | lia].
Qed.

(** ** The first fit and the split on a well-formed free list *)






(** ** The exit of the process *)


(** ** print_list *)

Lemma print_loop_walk (s : state) (l : list Z) :
  forall (fuel : nat) (a : Z),
    walk s a l NULL -> (length l <= fuel)%nat ->
    print_loop fuel s a = Ret (map (fun x => (node_format, [x])) l).
Proof.
  induction l as [| x l IH]; intros fuel a Hw Hfuel.
  - apply walk_nil_inv in Hw as ->. by destruct fuel.
  - apply walk_cons_inv in Hw as (-> & Hx & Hw).
    destruct fuel as [| fuel]; [simpl in Hfuel; lia |].
    cbn [print_loop]. eqb_false x NULL.
    rewrite (IH fuel _ Hw) by (simpl in Hfuel; lia). reflexivity.
Qed.

(** X18.  print_list on a null-terminated free list l returns (given a
    unit of fuel for each node).  It prints nothing when the list is empty;
    otherwise it calls printf with the node format once for each node of l,
    in list order, with the address of the node as argument, and then once
    with the newline format. *)
Theorem print_list_prints_every_node (fuel : nat) (s : state) (l : list Z) :
  free_list s l -> (length l <= fuel)%nat ->
  print_list fuel s =
  Ret (match l with
       | [] => []
       | _ => map (fun x => (node_format, [x])) l ++ [(newline_format, [])]
       end).
Proof.
  intros Hfl Hfuel. unfold print_list.
  destruct l as [| x l].
  - apply walk_nil_inv in Hfl as ->. reflexivity.
  - unfold free_list in Hfl. pose proof Hfl as Hfl'.
    apply walk_cons_inv in Hfl' as (Hhead & Hx & _).
    rewrite Hhead in *. eqb_false x NULL.
    by rewrite (print_loop_walk s (x :: l) fuel x Hfl Hfuel).
Qed.

Lemma print_loop_cycle (s : state) (a : Z) (l2 : list Z) :
  walk s a (a :: l2) a ->
  forall (fuel : nat) (l1 : list Z) (x : Z),
    walk s x l1 a -> print_loop fuel s x = OutOfFuel.
Proof.
  intros Hcycle.
  pose proof Hcycle as Hc. apply walk_cons_inv in Hc as (_ & Ha & Hnext).
  induction fuel as [| fuel IH]; intros l1 x Hw.
  - assert (x <> NULL) as Hx.
    { destruct l1; [by apply walk_nil_inv in Hw as -> |].
      by apply walk_cons_inv in Hw as (-> & ? & _). }
    simpl. by eqb_false x NULL.
  - destruct l1 as [| y l1].
    + apply walk_nil_inv in Hw as ->. cbn [print_loop]. eqb_false a NULL.
      by rewrite (IH l2 _ Hnext).
    + apply walk_cons_inv in Hw as (-> & Hy & Hw).
      cbn [print_loop]. eqb_false y NULL.
      by rewrite (IH l1 _ Hw).
Qed.

(** X19.  print_list on a free list that runs into a cycle never
    returns: when the next pointers lead from the head to a node a and from
    a back to a, the loop is still running when the fuel is used up,
    however much fuel there is. *)
Theorem print_list_never_returns_on_a_cycle
    (s : state) (a : Z) (l1 l2 : list Z) :
  walk s (head s) l1 a -> walk s a (a :: l2) a ->
  forall fuel, print_list fuel s = OutOfFuel.
Proof.
  intros Hw Hcycle fuel. unfold print_list.
  assert (head s <> NULL) as Hhead.
  { destruct l1; [apply walk_nil_inv in Hw as -> |].
    - by apply walk_cons_inv in Hcycle as (_ & ? & _).
    - by apply walk_cons_inv in Hw as (-> & ? & _). }
  eqb_false (head s) NULL.
  by rewrite (print_loop_cycle s a l2 Hcycle fuel l1 _ Hw).
Qed.

(** ** The theorems at concrete inputs *)

(** Paths, back links and the order of blocks in a concrete state. *)
Ltac concrete_walk :=
  simpl app; repeat (apply walk_cons; [discriminate |]); apply (walk_nil _ NULL).

Ltac concrete_well_linked :=
  split; [concrete_walk | simpl; repeat split; reflexivity].

Ltac concrete_apart :=
  simpl app; unfold blocks_apart, FBLOCKSIZE;
  repeat split; try (vm_compute; congruence);
  intros b Hb; injection Hb as <-; vm_compute; congruence.

Ltac concrete_order :=
  unfold headers_in_order, FBLOCKSIZE; simpl app;
  repeat (constructor; [repeat constructor; lia |]); constructor.

Lemma myfree_takes_ptr_for_the_header_witness :
  (FBLOCKSIZE <= 4128 < 2 ^ 64) /\ head one_block_in_use = NULL /\
  is_allocated one_block_in_use (HEADER 4128) = 1 /\
  is_allocated one_block_in_use 4128 <> 0 /\
  exists s',
    myfree 8 one_block_in_use 4128 = Ret s' /\
    head s' = 4128 /\ head s' <> HEADER 4128 /\
    is_allocated s' 4128 = 0 /\
    forall a, a < 4128 -> load s' a = load one_block_in_use a.
Proof.
  assert (H1 : FBLOCKSIZE <= 4128 < 2 ^ 64) by (vm_compute; split; congruence).
  assert (H2 : head one_block_in_use = NULL) by reflexivity.
  assert (H3 : is_allocated one_block_in_use 4128 <> 0)
    by (vm_compute; congruence).
  split_and!; [exact (proj1 H1) | exact (proj2 H1) | exact H2 | reflexivity | exact H3 |].
  exact (proj2 (myfree_takes_ptr_for_the_header 8 one_block_in_use 4128 H1 H2)
               H3).
Defined.

Lemma round_trip_returns_another_block_witness :
  (0 < 32 <= SIZE_MAX - 63) /\ head a_process = NULL /\
  myalloc 8 a_process 32 = Ret (final_state (myalloc 8 a_process 32), 4128) /\
  myfree 8 one_block_in_use 4128 = Ret one_block_freed /\
  myalloc 8 one_block_freed 32 =
    Ret (final_state (myalloc 8 one_block_freed 32), 4160) /\
  HEADER 4160 <> HEADER 4128.
Proof.
  assert (H1 : 0 < 32 <= SIZE_MAX - 63) by (vm_compute; split; congruence).
  assert (H2 : myalloc 8 a_process 32 =
               Ret (final_state (myalloc 8 a_process 32), 4128))
    by (vm_compute; reflexivity).
  assert (H3 : myfree 8 one_block_in_use 4128 = Ret one_block_freed)
    by (vm_compute; reflexivity).
  assert (H4 : myalloc 8 one_block_freed 32 =
               Ret (final_state (myalloc 8 one_block_freed 32), 4160))
    by (vm_compute; reflexivity).
  split_and!; [exact (proj1 H1) | exact (proj2 H1) | reflexivity
              | exact H2 | exact H3 | exact H4 |].
  apply (round_trip_returns_another_block 8 a_process
           (final_state (myalloc 8 a_process 32)) one_block_freed
           (final_state (myalloc 8 one_block_freed 32)) 32 4128 4160
           (mem one_block_in_use) H1 eq_refl H2).
  - discriminate.
  - exact H3.
  - exact H4.
  - discriminate.
Defined.

Lemma myalloc_SIZE_MAX_extends_the_heap_witness :
  head a_process = NULL /\ 0 <= brk a_process /\
  brk a_process + 32 <= brk_max a_process /\
  brk_min a_process <= brk a_process /\
  brk_max a_process < 2 ^ 64 - 32 /\
  round_up SIZE_MAX = 0 /\
  exists s',
    myalloc 8 a_process SIZE_MAX = Ret (s', 4128) /\
    4128 <> NULL /\
    sbrk_log s' = [(32, Some 4096); (0, Some 4096); (0, Some 4096)] /\
    brk s' = 4128 /\
    size_of s' 4096 = 0.
Proof.
  assert (H1 : 0 <= brk a_process) by (vm_compute; congruence).
  assert (H2 : brk a_process + 32 <= brk_max a_process)
    by (vm_compute; congruence).
  assert (H3 : brk_min a_process <= brk a_process) by (vm_compute; congruence).
  assert (H4 : brk_max a_process < 2 ^ 64 - 32) by (vm_compute; congruence).
  split_and!; [reflexivity | exact H1 | exact H2 | exact H3 | exact H4 | ..];
    apply (myalloc_SIZE_MAX_extends_the_heap 8 a_process eq_refl H1 H2 H3 H4).
Defined.



Lemma tail_growth_lowers_the_break_witness :
  0 < 2 ^ 64 - 64 /\
  free_list second_block_freed ([] ++ [4192]) /\
  Forall (fun a => size_of second_block_freed a < round_up (2 ^ 64 - 64))
         ([] ++ [4192]) /\
  add64 (add64 4192 (size_of second_block_freed 4192)) FBLOCKSIZE
    = brk second_block_freed /\
  INTPTR_MAX < round_up (2 ^ 64 - 64) - size_of second_block_freed 4192 /\
  brk second_block_freed = 4224 /\
  exists s',
    internal_myalloc 8 second_block_freed (2 ^ 64 - 64)
      = Ret (s', PAYLOAD 4192) /\
    to_intptr (sub64 (round_up (2 ^ 64 - 64))
                     (size_of second_block_freed 4192)) = -64 /\
    sbrk_log s' = (-64, Some 4224) :: (0, Some 4224)
                    :: sbrk_log (init_heap_if_needed second_block_freed) /\
    brk s' = 4160 /\
    brk s' < brk second_block_freed /\
    is_allocated s' 4192 = 1 /\
    size_of s' 4192 = 2 ^ 64 - 64 /\ free_list s' [].
Proof.
  assert (H1 : 0 < 2 ^ 64 - 64) by lia.
  assert (H2 : free_list second_block_freed ([] ++ [4192])).
  { apply walk_cons; [discriminate |]. apply (walk_nil _ NULL). }
  assert (H3 : Forall (fun a => size_of second_block_freed a
                                < round_up (2 ^ 64 - 64)) ([] ++ [4192])).
  { apply Forall_cons. split; [reflexivity | apply Forall_nil_2]. }
  assert (H4 : add64 (add64 4192 (size_of second_block_freed 4192))
                     FBLOCKSIZE
               = brk second_block_freed) by reflexivity.
  assert (H5 : (length ([] ++ [4192%Z]) <= 8)%nat) by (simpl; lia).
  assert (H6 : 0 <= size_of second_block_freed 4192)
    by (vm_compute; congruence).
  assert (H7 : INTPTR_MAX
               < round_up (2 ^ 64 - 64) - size_of second_block_freed 4192)
    by reflexivity.
  assert (H8 : brk second_block_freed <= brk_max second_block_freed)
    by (vm_compute; congruence).
  assert (H9 : brk_max second_block_freed <= INTPTR_MAX)
    by (vm_compute; congruence).
  assert (H10 : brk_min second_block_freed
                <= brk second_block_freed
                   - (2 ^ 64 - (round_up (2 ^ 64 - 64)
                                - size_of second_block_freed 4192)))
    by (vm_compute; congruence).
  assert (H11 : well_separated ([] ++ [4192])).
  { intros x y Hx Hy Hne. apply list_elem_of_singleton in Hx, Hy.
    congruence. }
  split_and!; [exact H1 | exact H2 | exact H3 | exact H4 | exact H7
              | reflexivity |].
  destruct (tail_growth_lowers_the_break 8 second_block_freed (2 ^ 64 - 64)
              [] 4192 H1 H2 H3 H5 H4 H6 H7 H8 H9 H10)
    as (s' & Hrun & Hinc & Hlog & Hbrk & Hlt & Hflag & Hwl).
  destruct (Hwl H11) as [Hsize Hfl]; [intros p Hp; discriminate Hp |].
  exists s'.
  split_and!; [exact Hrun | exact Hinc | exact Hlog | exact Hbrk | exact Hlt
              | exact Hflag | exact Hsize | exact Hfl].
Defined.

Lemma tail_block_grows_in_place_witness :
  0 < 32 /\
  free_list one_block_freed ([] ++ [4128]) /\
  Forall (fun a => size_of one_block_freed a < round_up 32) ([] ++ [4128]) /\
  add64 (add64 4128 (size_of one_block_freed 4128)) FBLOCKSIZE
    = brk one_block_freed /\
  brk_min one_block_freed
    <= brk one_block_freed + (round_up 32 - size_of one_block_freed 4128)
    <= brk_max one_block_freed /\
  well_separated ([] ++ [4128]) /\
  exists s',
    internal_myalloc 8 one_block_freed 32 = Ret (s', PAYLOAD 4128) /\
    brk s' = brk one_block_freed
             + (round_up 32 - size_of one_block_freed 4128) /\
    is_allocated s' 4128 = 1 /\
    size_of s' 4128 = round_up 32 /\
    free_list s' [].
Proof.
  assert (H1 : 0 < 32) by lia.
  assert (H2 : free_list one_block_freed ([] ++ [4128])).
  { apply walk_cons; [discriminate |]. apply (walk_nil _ NULL). }
  assert (H3 : Forall (fun a => size_of one_block_freed a < round_up 32)
                      ([] ++ [4128])).
  { apply Forall_cons. split; [reflexivity | apply Forall_nil_2]. }
  assert (H4 : add64 (add64 4128 (size_of one_block_freed 4128)) FBLOCKSIZE
               = brk one_block_freed) by reflexivity.
  assert (H5 : brk_min one_block_freed
               <= brk one_block_freed
                  + (round_up 32 - size_of one_block_freed 4128)
               <= brk_max one_block_freed)
    by (vm_compute; split; congruence).
  assert (H6 : (length ([] ++ [4128%Z]) <= 8)%nat) by (simpl; lia).
  assert (H7 : 0 <= brk one_block_freed) by (vm_compute; congruence).
  assert (H8 : brk_max one_block_freed <= INTPTR_MAX)
    by (vm_compute; congruence).
  assert (H9 : well_separated ([] ++ [4128])).
  { intros x y Hx Hy Hne. apply list_elem_of_singleton in Hx, Hy.
    congruence. }
  split_and!; [exact H1 | exact H2 | exact H3 | exact H4
              | exact (proj1 H5) | exact (proj2 H5) | exact H9 |].
  destruct (tail_block_grows_in_place 8 one_block_freed 32 [] 4128
              H1 H2 H3 H6 H4 H7 H8 H5)
    as (s' & Hrun & Hbrk & Halloc & _ & Hlinked).
  exists s'. split_and!; [exact Hrun | exact Hbrk | exact Halloc | |];
    apply (Hlinked H9); intros p Hp; discriminate Hp.
Defined.

Lemma out_of_memory_leaves_heap_unchanged_witness :
  free_list no_room [] /\
  internal_myalloc 8 no_room 32
    = Ret (final_state (internal_myalloc 8 no_room 32), NULL) /\
  sbrk_failed_during no_room (final_state (internal_myalloc 8 no_room 32)) /\
  NULL = NULL /\
  head (final_state (internal_myalloc 8 no_room 32)) = head no_room /\
  mem (final_state (internal_myalloc 8 no_room 32)) = mem no_room /\
  brk (final_state (internal_myalloc 8 no_room 32)) = brk no_room.
Proof.
  assert (H0 : free_list no_room []) by apply (walk_nil _ NULL).
  assert (H1 : internal_myalloc 8 no_room 32
               = Ret (final_state (internal_myalloc 8 no_room 32), NULL))
    by (vm_compute; reflexivity).
  assert (H2 : sbrk_failed_during no_room
                 (final_state (internal_myalloc 8 no_room 32))).
  { exists [(64, None); (0, Some 4096); (0, Some 4096)], 64.
    split; [vm_compute; reflexivity | constructor]. }
  split; [exact H0 |]. split; [exact H1 |]. split; [exact H2 |].
  exact (proj1 (out_of_memory_leaves_heap_unchanged 8 no_room 32) _ NULL
               H1 H2).
Defined.

Lemma round_up_is_the_next_multiple_witness :
  0 <= 100 <= SIZE_MAX - 31 /\ SIZE_MAX - 31 < SIZE_MAX <= SIZE_MAX /\
  round_up 100 = 128 /\
  (round_up 100 mod ALIGNMENT = 0 /\ 100 <= round_up 100 < 100 + ALIGNMENT) /\
  round_up SIZE_MAX = 0.
Proof.
  assert (H1 : 0 <= 100 <= SIZE_MAX - 31) by (vm_compute; split; congruence).
  assert (H2 : SIZE_MAX - 31 < SIZE_MAX <= SIZE_MAX)
    by (vm_compute; split; congruence).
  split; [exact H1 |]. split; [exact H2 |]. split; [reflexivity |].
  split.
  - exact (proj1 (round_up_is_the_next_multiple 100) H1).
  - exact (proj2 (round_up_is_the_next_multiple SIZE_MAX) H2).
Defined.

Lemma header_and_payload_are_inverse_witness :
  0 <= 4096 < 2 ^ 64 /\ PAYLOAD 4096 = 4128 /\
  HEADER (PAYLOAD 4096) = 4096 /\ PAYLOAD (HEADER 4096) = 4096.
Proof.
  assert (H1 : 0 <= 4096 < 2 ^ 64) by (vm_compute; split; congruence).
  split; [exact H1 |]. split; [reflexivity |].
  exact (header_and_payload_are_inverse 4096 H1).
Defined.

Lemma insert_to_list_links_in_address_order_witness :
  well_linked outer_blocks_free ([4096] ++ [4352]) /\
  headers_in_order ([4096] ++ 4224 :: [4352]) /\
  block_end outer_blocks_free 4096 = 4160 /\
  block_end outer_blocks_free 4224 = 4288 /\
  exists s',
    insert_to_list 8 outer_blocks_free 4224 = Ret s' /\
    well_linked s' ([4096] ++ 4224 :: [4352]) /\
    is_allocated s' 4224 = 0 /\
    (forall x, x ∈ [4096] ++ 4224 :: [4352] ->
               size_of s' x = size_of outer_blocks_free x) /\
    (forall a, a <> 4224 + 8 -> a <> 4224 + 16 -> a <> 4224 + 24 ->
               (forall p, last [4096] = Some p -> a <> p + 24) ->
               (forall c, hd_error [4352] = Some c -> a <> c + 16) ->
               load s' a = load outer_blocks_free a).
Proof.
  assert (H0 : 4224 <> NULL) by discriminate.
  assert (H1 : well_linked outer_blocks_free ([4096] ++ [4352]))
    by concrete_well_linked.
  assert (H2 : headers_in_order ([4096] ++ 4224 :: [4352]))
    by concrete_order.
  assert (H3 : (length [4096] <= 8)%nat) by (simpl; lia).
  assert (H4 : forall p, last [4096] = Some p ->
                         block_end outer_blocks_free p <> 4224).
  { intros p Hp. injection Hp as <-. vm_compute. congruence. }
  assert (H5 : forall c, hd_error [4352] = Some c ->
                         block_end outer_blocks_free 4224 <> c).
  { intros c Hc. injection Hc as <-. vm_compute. congruence. }
  split; [exact H1 |]. split; [exact H2 |].
  split; [reflexivity |]. split; [reflexivity |].
  exact (insert_to_list_links_in_address_order 8 outer_blocks_free 4224
           [4096] [4352] H0 H1 H2 H3 H4 H5).
Defined.

Lemma insert_to_list_absorbs_next_block_witness :
  well_linked third_block_free ([] ++ 4224 :: []) /\
  headers_in_order ([] ++ 4160 :: 4224 :: []) /\
  block_end third_block_free 4160 = 4224 /\
  exists s',
    insert_to_list 8 third_block_free 4160 = Ret s' /\
    well_linked s' ([] ++ 4160 :: []) /\
    size_of s' 4160
      = add64 (size_of third_block_free 4160)
              (add64 (size_of third_block_free 4224) FBLOCKSIZE) /\
    block_end s' 4160 = block_end third_block_free 4224 /\
    is_allocated s' 4160 = 0 /\
    (forall x, x ∈ [] ++ [] -> size_of s' x = size_of third_block_free x).
Proof.
  assert (H0 : 4160 <> NULL) by discriminate.
  assert (H1 : well_linked third_block_free ([] ++ 4224 :: []))
    by concrete_well_linked.
  assert (H2 : headers_in_order ([] ++ 4160 :: 4224 :: []))
    by concrete_order.
  assert (H3 : (length ([] : list Z) <= 8)%nat) by (simpl; lia).
  assert (H4 : block_end third_block_free 4160 = 4224) by reflexivity.
  assert (H5 : forall p, last [] = Some p ->
                         block_end third_block_free p <> 4160)
    by (intros p Hp; discriminate Hp).
  split; [exact H1 |]. split; [exact H2 |]. split; [exact H4 |].
  exact (insert_to_list_absorbs_next_block 8 third_block_free 4160 4224
           [] [] H0 H1 H2 H3 H4 H5).
Defined.

Lemma insert_to_list_merges_into_previous_block_witness :
  well_linked first_block_free (([] ++ [4096]) ++ []) /\
  headers_in_order (([] ++ [4096]) ++ 4160 :: []) /\
  block_end first_block_free 4096 = 4160 /\
  is_allocated first_block_free 4160 = 1 /\
  exists s',
    insert_to_list 8 first_block_free 4160 = Ret s' /\
    well_linked s' (([] ++ [4096]) ++ []) /\
    size_of s' 4096
      = add64 (size_of first_block_free 4096)
              (add64 (size_of first_block_free 4160) FBLOCKSIZE) /\
    block_end s' 4096 = block_end first_block_free 4160 /\
    is_allocated s' 4096 = 0 /\
    is_allocated s' 4160 = is_allocated first_block_free 4160 /\
    (forall x, x ∈ [] ++ [] -> size_of s' x = size_of first_block_free x) /\
    (forall a, a < 4096 \/ 4096 + FBLOCKSIZE <= a ->
               a <> 4160 + 16 -> a <> 4160 + 24 ->
               (forall c, hd_error [] = Some c -> a <> c + 16) ->
               load s' a = load first_block_free a).
Proof.
  assert (H0 : 4160 <> NULL) by discriminate.
  assert (H1 : well_linked first_block_free (([] ++ [4096]) ++ []))
    by concrete_well_linked.
  assert (H2 : headers_in_order (([] ++ [4096]) ++ 4160 :: []))
    by concrete_order.
  assert (H3 : (length ([] ++ [4096]) <= 8)%nat) by (simpl; lia).
  assert (H4 : block_end first_block_free 4096 = 4160) by reflexivity.
  assert (H5 : forall c, hd_error [] = Some c ->
                         block_end first_block_free 4160 <> c)
    by (intros c Hc; discriminate Hc).
  split; [exact H1 |]. split; [exact H2 |]. split; [exact H4 |].
  split; [reflexivity |].
  exact (insert_to_list_merges_into_previous_block 8 first_block_free 4160
           4096 [] [] H0 H1 H2 H3 H4 H5).
Defined.

Lemma insert_to_list_merges_on_both_sides_witness :
  well_linked three_free_blocks (([] ++ [4096]) ++ 4224 :: [4352]) /\
  headers_in_order (([] ++ [4096]) ++ 4160 :: 4224 :: [4352]) /\
  block_end three_free_blocks 4096 = 4160 /\
  block_end three_free_blocks 4160 = 4224 /\
  exists s',
    insert_to_list 8 three_free_blocks 4160 = Ret s' /\
    free_list s' (([] ++ [4096]) ++ [4352]) /\
    back_linked s' NULL ([] ++ [4096]) /\
    (forall d l2', [4352] = d :: l2' ->
                   prev_of s' d = 4160 /\ back_linked s' d l2') /\
    size_of s' 4096
      = add64 (size_of three_free_blocks 4096)
          (add64 (add64 (size_of three_free_blocks 4160)
                        (add64 (size_of three_free_blocks 4224) FBLOCKSIZE))
                 FBLOCKSIZE) /\
    block_end s' 4096 = block_end three_free_blocks 4224 /\
    is_allocated s' 4096 = 0 /\
    (forall x, x ∈ [] ++ [4352] ->
               size_of s' x = size_of three_free_blocks x).
Proof.
  assert (H0 : 4160 <> NULL) by discriminate.
  assert (H1 : well_linked three_free_blocks
                 (([] ++ [4096]) ++ 4224 :: [4352]))
    by concrete_well_linked.
  assert (H2 : headers_in_order (([] ++ [4096]) ++ 4160 :: 4224 :: [4352]))
    by concrete_order.
  assert (H3 : (length ([] ++ [4096]) <= 8)%nat) by (simpl; lia).
  assert (H4 : block_end three_free_blocks 4096 = 4160) by reflexivity.
  assert (H5 : block_end three_free_blocks 4160 = 4224) by reflexivity.
  split; [exact H1 |]. split; [exact H2 |]. split; [exact H4 |].
  split; [exact H5 |].
  exact (insert_to_list_merges_on_both_sides 8 three_free_blocks 4160
           4096 4224 [] [4352] H0 H1 H2 H3 H4 H5).
Defined.

Lemma remove_from_list_unlinks_both_ways_witness :
  well_linked three_free_blocks ([4096] ++ 4224 :: [4352]) /\
  headers_in_order ([4096] ++ 4224 :: [4352]) /\
  well_linked (remove_from_list three_free_blocks 4224) ([4096] ++ [4352]) /\
  is_allocated (remove_from_list three_free_blocks 4224) 4224 = 1 /\
  next_of (remove_from_list three_free_blocks 4224) 4224 = NULL /\
  prev_of (remove_from_list three_free_blocks 4224) 4224 = NULL /\
  (forall a, a <> 4224 + 8 -> a <> 4224 + 16 -> a <> 4224 + 24 ->
             (forall p, last [4096] = Some p -> a <> p + 24) ->
             (forall n, hd_error [4352] = Some n -> a <> n + 16) ->
             load (remove_from_list three_free_blocks 4224) a
             = load three_free_blocks a).
Proof.
  assert (H1 : well_linked three_free_blocks ([4096] ++ 4224 :: [4352]))
    by concrete_well_linked.
  assert (H2 : headers_in_order ([4096] ++ 4224 :: [4352]))
    by concrete_order.
  split; [exact H1 |]. split; [exact H2 |].
  exact (remove_from_list_unlinks_both_ways three_free_blocks [4096] [4352]
           4224 H1 H2).
Defined.

Lemma remove_then_insert_restores_the_heap_witness :
  well_linked three_free_blocks ([4096] ++ 4224 :: [4352]) /\
  is_allocated three_free_blocks 4224 = 0 /\
  well_linked (remove_from_list three_free_blocks 4224) ([4096] ++ [4352]) /\
  is_allocated (remove_from_list three_free_blocks 4224) 4224 = 1 /\
  exists s',
    insert_to_list 8 (remove_from_list three_free_blocks 4224) 4224 = Ret s' /\
    head s' = head three_free_blocks /\
    (forall a, load s' a = load three_free_blocks a).
Proof.
  assert (H1 : well_linked three_free_blocks ([4096] ++ 4224 :: [4352]))
    by concrete_well_linked.
  assert (H2 : headers_in_order ([4096] ++ 4224 :: [4352]))
    by concrete_order.
  assert (H3 : is_allocated three_free_blocks 4224 = 0) by reflexivity.
  assert (H4 : forall p, last [4096] = Some p ->
                         block_end three_free_blocks p <> 4224).
  { intros p Hp. injection Hp as <-. vm_compute. congruence. }
  assert (H5 : forall n, hd_error [4352] = Some n ->
                         block_end three_free_blocks 4224 <> n).
  { intros n Hn. injection Hn as <-. vm_compute. congruence. }
  assert (H6 : (length [4096] <= 8)%nat) by (simpl; lia).
  split; [exact H1 |]. split; [exact H3 |].
  exact (remove_then_insert_restores_the_heap 8 three_free_blocks 4224
           [4096] [4352] H1 H2 H3 H4 H5 H6).
Defined.

Lemma first_fit_splits_a_larger_block_witness :
  0 < 32 <= SIZE_MAX - 63 /\
  well_linked free_block_of_128 ([] ++ 4096 :: []) /\
  round_up 32 + FBLOCKSIZE + MIN_SPLIT_REMAINDER
    <= size_of free_block_of_128 4096 /\
  exists s',
    internal_myalloc 8 free_block_of_128 32 = Ret (s', PAYLOAD 4096) /\
    well_linked s' ([] ++ (4096 + FBLOCKSIZE + round_up 32) :: []) /\
    size_of s' 4096 = round_up 32 /\ is_allocated s' 4096 = 1 /\
    size_of s' (4096 + FBLOCKSIZE + round_up 32)
      = size_of free_block_of_128 4096 - round_up 32 - FBLOCKSIZE /\
    is_allocated s' (4096 + FBLOCKSIZE + round_up 32) = 0 /\
    block_end s' (4096 + FBLOCKSIZE + round_up 32)
      = block_end free_block_of_128 4096 /\
    brk s' = brk free_block_of_128 /\
    (forall x, x ∈ [] ++ [] -> size_of s' x = size_of free_block_of_128 x).
Proof.
  assert (H1 : 0 < 32 <= SIZE_MAX - 63) by (vm_compute; split; congruence).
  assert (H2 : well_linked free_block_of_128 ([] ++ 4096 :: []))
    by concrete_well_linked.
  assert (H3 : headers_in_order ([] ++ 4096 :: [])) by concrete_order.
  assert (H4 : Forall (fun a => size_of free_block_of_128 a < round_up 32) [])
    by apply Forall_nil_2.
  assert (H5 : round_up 32 + FBLOCKSIZE + MIN_SPLIT_REMAINDER
               <= size_of free_block_of_128 4096) by (vm_compute; congruence).
  assert (H6 : 0 <= 4096) by lia.
  assert (H7 : 4096 + FBLOCKSIZE + size_of free_block_of_128 4096 < 2 ^ 64)
    by (vm_compute; congruence).
  assert (H8 : forall p, last [] = Some p ->
                         block_end free_block_of_128 p <= 4096)
    by (intros p Hp; discriminate Hp).
  assert (H9 : forall y, hd_error [] = Some y ->
                 4096 + FBLOCKSIZE + size_of free_block_of_128 4096 < y)
    by (intros y Hy; discriminate Hy).
  assert (H10 : (length ([] : list Z) < 8)%nat) by (simpl; lia).
  split; [exact H1 |]. split; [exact H2 |]. split; [exact H5 |].
  exact (first_fit_splits_a_larger_block 8 free_block_of_128 32 [] [] 4096
           H1 H2 H3 H4 H5 H6 H7 H8 H9 H10).
Defined.

Lemma first_fit_below_the_split_threshold_is_whole_witness :
  0 < 32 <= SIZE_MAX - 63 /\
  well_linked free_block_of_96 ([] ++ 4096 :: []) /\
  round_up 32 + MIN_SPLIT_REMAINDER <= size_of free_block_of_96 4096
    < round_up 32 + FBLOCKSIZE + MIN_SPLIT_REMAINDER /\
  exists s',
    internal_myalloc 8 free_block_of_96 32 = Ret (s', PAYLOAD 4096) /\
    well_linked s' ([] ++ []) /\
    size_of s' 4096 = size_of free_block_of_96 4096 /\
    is_allocated s' 4096 = 1 /\
    brk s' = brk free_block_of_96 /\
    (forall x, x ∈ [] ++ [] -> size_of s' x = size_of free_block_of_96 x).
Proof.
  assert (H1 : 0 < 32 <= SIZE_MAX - 63) by (vm_compute; split; congruence).
  assert (H2 : well_linked free_block_of_96 ([] ++ 4096 :: []))
    by concrete_well_linked.
  assert (H3 : headers_in_order ([] ++ 4096 :: [])) by concrete_order.
  assert (H4 : Forall (fun a => size_of free_block_of_96 a < round_up 32) [])
    by apply Forall_nil_2.
  assert (H5 : round_up 32 <= size_of free_block_of_96 4096
               < round_up 32 + FBLOCKSIZE + MIN_SPLIT_REMAINDER)
    by (vm_compute; split; congruence).
  assert (H5' : round_up 32 + MIN_SPLIT_REMAINDER
                <= size_of free_block_of_96 4096) by (vm_compute; congruence).
  assert (H6 : size_of free_block_of_96 4096 < 2 ^ 64)
    by (vm_compute; congruence).
  assert (H7 : (length ([] : list Z) < 8)%nat) by (simpl; lia).
  split; [exact H1 |]. split; [exact H2 |].
  split; [exact (conj H5' (proj2 H5)) |].
  exact (first_fit_below_the_split_threshold_is_whole 8 free_block_of_96 32
           [] [] 4096 H1 H2 H3 H4 H5 H6 H7).
Defined.

Lemma new_block_is_carved_at_the_break_witness :
  0 < 32 <= INTPTR_MAX - 63 /\ free_list a_process [] /\
  brk_min a_process <= brk a_process + FBLOCKSIZE + round_up 32
    <= brk_max a_process /\
  exists s',
    internal_myalloc 8 a_process 32 = Ret (s', PAYLOAD (brk a_process)) /\
    PAYLOAD (brk a_process) = brk a_process + FBLOCKSIZE /\
    brk s' = brk a_process + FBLOCKSIZE + round_up 32 /\
    size_of s' (brk a_process) = round_up 32 /\
    is_allocated s' (brk a_process) = 1 /\
    head s' = head a_process /\
    (forall a, a <> brk a_process -> a <> brk a_process + 8 ->
               load s' a = load a_process a) /\
    (Forall (fun a => a + FBLOCKSIZE <= brk a_process) [] -> free_list s' []) /\
    (brk a_process mod ALIGNMENT = 0 ->
     PAYLOAD (brk a_process) mod ALIGNMENT = 0 /\ brk s' mod ALIGNMENT = 0).
Proof.
  assert (H1 : 0 < 32 <= INTPTR_MAX - 63) by (vm_compute; split; congruence).
  assert (H2 : free_list a_process []) by apply (walk_nil _ NULL).
  assert (H3 : Forall (fun a => size_of a_process a < round_up 32) [])
    by apply Forall_nil_2.
  assert (H4 : (length ([] : list Z) <= 8)%nat) by (simpl; lia).
  assert (H5 : forall b, last [] = Some b ->
                 add64 (add64 b (size_of a_process b)) FBLOCKSIZE
                 <> brk a_process) by (intros b Hb; discriminate Hb).
  assert (H6 : 0 <= brk a_process) by (vm_compute; congruence).
  assert (H7 : brk_max a_process < 2 ^ 64) by (vm_compute; congruence).
  assert (H8 : brk_min a_process <= brk a_process + FBLOCKSIZE + round_up 32
               <= brk_max a_process) by (vm_compute; split; congruence).
  split; [exact H1 |]. split; [exact H2 |]. split; [exact H8 |].
  exact (new_block_is_carved_at_the_break 8 a_process 32 []
           H1 H2 H3 H4 H5 H6 H7 H8).
Defined.

Lemma oversized_request_is_refused_witness :
  INTPTR_MAX - 63 < 2 ^ 63 <= SIZE_MAX - 63 /\ free_list a_process [] /\
  exists s',
    internal_myalloc 8 a_process (2 ^ 63) = Ret (s', NULL) /\
    head s' = head a_process /\ mem s' = mem a_process /\
    brk s' = brk a_process /\
    exists calls,
      sbrk_log s' = calls ++ sbrk_log a_process /\
      Forall (fun call => call = (0, Some (brk a_process))) calls.
Proof.
  assert (H1 : INTPTR_MAX - 63 < 2 ^ 63 <= SIZE_MAX - 63)
    by (vm_compute; split; congruence).
  assert (H2 : free_list a_process []) by apply (walk_nil _ NULL).
  assert (H3 : Forall (fun a => size_of a_process a < round_up (2 ^ 63)) [])
    by apply Forall_nil_2.
  assert (H4 : (length ([] : list Z) <= 8)%nat) by (simpl; lia).
  assert (H5 : forall b, last [] = Some b ->
                 add64 (add64 b (size_of a_process b)) FBLOCKSIZE
                 <> brk a_process) by (intros b Hb; discriminate Hb).
  split; [exact H1 |]. split; [exact H2 |].
  exact (oversized_request_is_refused 8 a_process (2 ^ 63) [] H1 H2 H3 H4 H5).
Defined.

Lemma heap_start_is_captured_once_witness :
  0 < 32 /\
  internal_myalloc 8 a_process 32
    = Ret (final_state (internal_myalloc 8 a_process 32), 4128) /\
  heap_initialized (final_state (internal_myalloc 8 a_process 32)) = true /\
  heap_start (final_state (internal_myalloc 8 a_process 32))
    = (if heap_initialized a_process then heap_start a_process
       else brk a_process).
Proof.
  assert (H1 : 0 < 32) by lia.
  assert (H2 : internal_myalloc 8 a_process 32
               = Ret (final_state (internal_myalloc 8 a_process 32), 4128))
    by (vm_compute; reflexivity).
  split; [exact H1 |]. split; [exact H2 |].
  exact (heap_start_is_captured_once 8 a_process _ 32 4128 H1 H2).
Defined.

Lemma allocation_never_lowers_the_break_witness :
  32 <= INTPTR_MAX - 31 /\
  internal_myalloc 8 a_process 32
    = Ret (final_state (internal_myalloc 8 a_process 32), 4128) /\
  brk a_process = 4096 /\
  brk (final_state (internal_myalloc 8 a_process 32)) = 4160 /\
  brk a_process <= brk (final_state (internal_myalloc 8 a_process 32)).
Proof.
  assert (H1 : 32 <= INTPTR_MAX - 31) by (vm_compute; congruence).
  assert (H2 : forall a, 0 <= size_of a_process a).
  { intros a. unfold size_of, load, a_process, fresh. simpl.
    rewrite lookup_empty. simpl. lia. }
  assert (H3 : internal_myalloc 8 a_process 32
               = Ret (final_state (internal_myalloc 8 a_process 32), 4128))
    by (vm_compute; reflexivity).
  split; [exact H1 |]. split; [exact H3 |].
  split; [reflexivity |]. split; [reflexivity |].
  exact (allocation_never_lowers_the_break 8 a_process _ 32 4128 H1 H2 H3).
Defined.

Lemma myfree_keeps_the_break_witness :
  myfree 8 one_block_in_use 4128 = Ret one_block_freed /\
  brk one_block_freed = brk one_block_in_use /\
  sbrk_log one_block_freed = sbrk_log one_block_in_use /\
  heap_start one_block_freed = heap_start one_block_in_use /\
  heap_initialized one_block_freed = heap_initialized one_block_in_use.
Proof.
  assert (H1 : myfree 8 one_block_in_use 4128 = Ret one_block_freed)
    by (vm_compute; reflexivity).
  split; [exact H1 |].
  exact (myfree_keeps_the_break 8 one_block_in_use one_block_freed 4128 H1).
Defined.


Lemma print_list_prints_every_node_witness :
  free_list three_free_blocks [4096; 4224; 4352] /\
  print_list 8 three_free_blocks =
  Ret [(node_format, [4096]); (node_format, [4224]); (node_format, [4352]);
       (newline_format, [])].
Proof.
  assert (H1 : free_list three_free_blocks [4096; 4224; 4352])
    by concrete_walk.
  assert (H2 : (length [4096; 4224; 4352] <= 8)%nat) by (simpl; lia).
  split; [exact H1 |].
  exact (print_list_prints_every_node 8 three_free_blocks
           [4096; 4224; 4352] H1 H2).
Defined.

Lemma print_list_never_returns_on_a_cycle_witness :
  walk after_split_onto_free_block (head after_split_onto_free_block)
       [] 4192 /\
  walk after_split_onto_free_block 4192 (4192 :: []) 4192 /\
  forall fuel, print_list fuel after_split_onto_free_block = OutOfFuel.
Proof.
  assert (H1 : walk after_split_onto_free_block
                 (head after_split_onto_free_block) [] 4192)
    by apply (walk_nil _ 4192).
  assert (H2 : walk after_split_onto_free_block 4192 (4192 :: []) 4192).
  { apply walk_cons; [discriminate |]. apply (walk_nil _ 4192). }
  split; [exact H1 |]. split; [exact H2 |].
  exact (print_list_never_returns_on_a_cycle after_split_onto_free_block
           4192 [] [] H1 H2).
Defined.

Lemma insert_to_list_keeps_the_blocks_apart_witness :
  well_linked first_block_free ([4096] ++ []) /\
  blocks_apart first_block_free ([4096] ++ []) /\
  (forall p, last [4096] = Some p ->
             p + FBLOCKSIZE + size_of first_block_free p <= 4160) /\
  exists s' l',
    insert_to_list 8 first_block_free 4160 = Ret s' /\
    free_list s' l' /\ blocks_apart s' l' /\
    l' `sublist_of` [4096] ++ 4160 :: [] /\
    covered_by first_block_free ([4096] ++ 4160 :: []) s' l' /\
    (exists b, b ∈ l' /\ b <= 4160 < b + FBLOCKSIZE + size_of s' b /\
               is_allocated s' b = 0) /\
    ((forall p c d l2', last [4096] = Some p -> [] = c :: d :: l2' ->
                        p + FBLOCKSIZE + size_of first_block_free p = 4160 ->
                        4160 + FBLOCKSIZE + size_of first_block_free 4160 = c ->
                        False) ->
     back_linked s' NULL l').
Proof.
  assert (H1 : well_linked first_block_free ([4096] ++ []))
    by concrete_well_linked.
  assert (H2 : blocks_apart first_block_free ([4096] ++ []))
    by concrete_apart.
  assert (H3 : 0 < 4160) by lia.
  assert (H4 : 0 <= size_of first_block_free 4160)
    by (vm_compute; congruence).
  assert (H5 : 4160 + FBLOCKSIZE + size_of first_block_free 4160 < 2 ^ 64)
    by (vm_compute; congruence).
  assert (H6 : forall p, last [4096] = Some p ->
                 p + FBLOCKSIZE + size_of first_block_free p <= 4160)
    by (intros p Hp; injection Hp as <-; vm_compute; congruence).
  assert (H7 : forall c, hd_error [] = Some c ->
                 4160 + FBLOCKSIZE + size_of first_block_free 4160 <= c)
    by (intros c Hc; discriminate Hc).
  assert (H8 : (length [4096] <= 8)%nat) by (simpl; lia).
  split; [exact H1 |]. split; [exact H2 |]. split; [exact H6 |].
  exact (insert_to_list_keeps_the_blocks_apart 8 first_block_free 4160
           [4096] [] H1 H2 H3 H4 H5 H6 H7 H8).
Defined.

Lemma internal_myalloc_keeps_the_blocks_apart_witness :
  64 <= INTPTR_MAX - 63 /\
  well_linked three_free_blocks [4096; 4224; 4352] /\
  blocks_apart three_free_blocks [4096; 4224; 4352] /\
  (forall b, last [4096; 4224; 4352] = Some b ->
             b + FBLOCKSIZE + size_of three_free_blocks b
             <= brk three_free_blocks) /\
  0 < brk three_free_blocks /\ brk_max three_free_blocks < 2 ^ 64 /\
  exists s' p l',
    internal_myalloc 8 three_free_blocks 64 = Ret (s', p) /\
    well_linked s' l' /\ blocks_apart s' l' /\
    (forall b, last l' = Some b -> b + FBLOCKSIZE + size_of s' b <= brk s') /\
    covered_by s' l' three_free_blocks [4096; 4224; 4352] /\
    brk three_free_blocks <= brk s' /\
    ((p = NULL /\ l' = [4096; 4224; 4352] /\
      brk s' = brk three_free_blocks /\
      forall a, load s' a = load three_free_blocks a) \/
     exists b,
       p = b + FBLOCKSIZE /\ 0 < b /\ is_allocated s' b = 1 /\
       64 <= size_of s' b /\
       b + FBLOCKSIZE + size_of s' b <= brk s' /\
       Forall (fun x => x + FBLOCKSIZE + size_of s' x <= b \/
                        b + FBLOCKSIZE + size_of s' b <= x) l' /\
       (forall a, b <= a < b + FBLOCKSIZE + size_of s' b ->
                  brk three_free_blocks <= a \/
                  exists c, c ∈ [4096; 4224; 4352] /\
                            c <= a < c + FBLOCKSIZE
                                     + size_of three_free_blocks c)).
Proof.
  assert (H1 : 64 <= INTPTR_MAX - 63) by (vm_compute; congruence).
  assert (H2 : well_linked three_free_blocks [4096; 4224; 4352])
    by concrete_well_linked.
  assert (H3 : blocks_apart three_free_blocks [4096; 4224; 4352])
    by concrete_apart.
  assert (H4 : forall b, last [4096; 4224; 4352] = Some b ->
                 b + FBLOCKSIZE + size_of three_free_blocks b
                 <= brk three_free_blocks)
    by (intros b Hb; injection Hb as <-; vm_compute; congruence).
  assert (H5 : 0 < brk three_free_blocks) by reflexivity.
  assert (H6 : brk_max three_free_blocks < 2 ^ 64) by reflexivity.
  assert (H7 : (length [4096; 4224; 4352] <= 8)%nat) by (simpl; lia).
  split; [exact H1 |]. split; [exact H2 |]. split; [exact H3 |].
  split; [exact H4 |]. split; [exact H5 |]. split; [exact H6 |].
  exact (internal_myalloc_keeps_the_blocks_apart 8 three_free_blocks 64
           [4096; 4224; 4352] H1 H2 H3 H4 H5 H6 H7).
Defined.
